(** * Chat Noir: the board graph, the distance engine and the cat's turn

    A shallow embedding of [chat-noir.js].  JavaScript objects live in an
    explicit store: every [Spot] ever allocated sits in a list and is named
    by its index, every [Board] likewise, and the module-level [boundary]
    object is a field of the store.  Object identity ([===], membership in
    a [Set]) is equality of indices.  The SVG drawing code ([draw],
    [drawInitialBoard], [showDistances]) only writes attributes of DOM
    nodes that the game logic never reads back; the DOM is left out, and
    of the drawing code only the class string of [draw] and the geometry
    of the circles are modelled, as functions. *)

From stdpp Require Import gmap strings list pretty.
From Stdlib Require Import ZArith Zquot Lia Ascii Sorted.
From Stdlib Require Import QArith Qround Qabs Qpower Lqa.

Close Scope Q_scope.

Set Default Proof Using "Type".
Open Scope Z_scope.

(** ** Grid keys

    The grid is a JavaScript object indexed by the template string
    [`${x}-${y}`]; on integers, [`${x}`] is the decimal numeral with a
    leading minus sign for negative numbers, which is stdpp's [pretty]. *)

Definition key (x y : Z) : string := pretty x +:+ "-" +:+ pretty y.

Definition is_digit (c : ascii) : bool :=
  bool_decide (c ∈ ["0"; "1"; "2"; "3"; "4"; "5"; "6"; "7"; "8"; "9"]%char).

Fixpoint all_digits (s : string) : bool :=
  match s with
  | EmptyString => true
  | String c s' => is_digit c && all_digits s'
  end.

(** ** Numbers

    [distance] holds a hop count or [Infinity]. *)

Inductive dist := Fin (n : nat) | Infinity.

Global Instance dist_eq_dec : EqDecision dist.
Proof. solve_decision. Defined.

(** [spot.distance + 1] *)
Definition dist_succ (d : dist) : dist :=
  match d with Fin n => Fin (S n) | Infinity => Infinity end.

(** [Math.min] on two arguments, and on a spread list ([Math.min()] is
    [Infinity]). *)
Definition dist_min (a b : dist) : dist :=
  match a, b with
  | Fin n, Fin m => Fin (Nat.min n m)
  | Fin n, Infinity => Fin n
  | Infinity, b => b
  end.

Definition Math_min (ds : list dist) : dist := foldr dist_min Infinity ds.

(** ** Randomness

    [Math.random()] returns a number in the half-open interval [0, 1).
    A draw is modelled as an exact fraction [num / den].  The products of
    [rand_index] and [quarter] are taken exactly; the sum of [middle] is
    rounded as doubles are, see [fl]. *)

Record rand := {
  num : Z;
  den : Z;
  rand_range : (0 <=? num) && (num <? den) = true
}.

(** [Math.floor(Math.random() * n)] *)
Definition rand_index (u : rand) (n : nat) : nat :=
  Z.to_nat (num u * Z.of_nat n / den u).

(** [Math.random() < 0.5] *)
Definition rand_coin (u : rand) : bool := 2 * num u <? den u.

(** ** The store *)

Record Spot := {
  board : nat;            (* this.board *)
  x : Z;
  y : Z;
  blocked : bool;
  adjacent : list nat;    (* spots we can reach as neighbors *)
  distance : dist         (* distance from boundary *)
}.

Record Board := {
  height : Z;
  width : Z;
  grid : list (string * nat);   (* this.grid, in insertion order *)
  cat : option nat              (* this.cat; [None] is [undefined] *)
}.

Inductive Outcome := win | lose.

Global Instance Outcome_eq_dec : EqDecision Outcome.
Proof. solve_decision. Defined.

(** [boundary_adjacent] is [boundary.adjacent]; [boundary.distance] is the
    constant 0 and is never written.  [console] collects the messages of
    failed [console.assert] calls, [announced] the calls of [gameEnd] in
    order (each one sets the text of the result message and shows it). *)
Record World := {
  spots : list Spot;
  boards : list Board;
  boundary_adjacent : list nat;
  console : list string;
  announced : list Outcome
}.

Definition empty_World : World :=
  {| spots := []; boards := []; boundary_adjacent := [];
     console := []; announced := [] |}.

Definition with_spots (f : list Spot → list Spot) (w : World) : World :=
  {| spots := f (spots w); boards := boards w;
     boundary_adjacent := boundary_adjacent w;
     console := console w; announced := announced w |}.

Definition set_blocked (v : bool) (s : Spot) : Spot :=
  {| board := board s; x := x s; y := y s; blocked := v;
     adjacent := adjacent s; distance := distance s |}.

Definition set_adjacent (v : list nat) (s : Spot) : Spot :=
  {| board := board s; x := x s; y := y s; blocked := blocked s;
     adjacent := v; distance := distance s |}.

Definition set_distance (v : dist) (s : Spot) : Spot :=
  {| board := board s; x := x s; y := y s; blocked := blocked s;
     adjacent := adjacent s; distance := v |}.

(** Field update of the object at reference [r]. *)
Definition update_spot (r : nat) (f : Spot → Spot) (w : World) : World :=
  with_spots (alter f r) w.

(** [boundary.adjacent.push(r)] *)
Definition push_boundary (r : nat) (w : World) : World :=
  {| spots := spots w; boards := boards w;
     boundary_adjacent := boundary_adjacent w ++ [r];
     console := console w; announced := announced w |}.

Definition log_console (msg : string) (w : World) : World :=
  {| spots := spots w; boards := boards w;
     boundary_adjacent := boundary_adjacent w;
     console := console w ++ [msg]; announced := announced w |}.

(** Field reads through a reference.  References always point to allocated
    objects; the defaults are never reached in a well-formed store. *)
Definition spot_distance (w : World) (r : nat) : dist :=
  match spots w !! r with Some s => distance s | None => Infinity end.

Definition spot_blocked (w : World) (r : nat) : bool :=
  match spots w !! r with Some s => blocked s | None => false end.

Definition spot_adjacent (w : World) (r : nat) : list nat :=
  match spots w !! r with Some s => adjacent s | None => [] end.

(** ** The grid object *)

(** [grid[k]] *)
Fixpoint grid_get (g : list (string * nat)) (k : string) : option nat :=
  match g with
  | [] => None
  | (k', r) :: g' => if decide (k = k') then Some r else grid_get g' k
  end.

(** [grid[k] = r]: an existing property keeps its place, a new one goes
    last. *)
Fixpoint grid_set (g : list (string * nat)) (k : string) (r : nat)
  : list (string * nat) :=
  match g with
  | [] => [(k, r)]
  | (k', r') :: g' =>
      if decide (k = k') then (k, r) :: g' else (k', r') :: grid_set g' k r
  end.

(** [Object.values(grid)] *)
Definition grid_values (g : list (string * nat)) : list nat := g.*2.

(** The values taken by [for (let i = 0; i < n; i++)]. *)
Definition zrange (n : Z) : list Z := seqZ 0 n.

(** ** class Spot *)

Definition new_Spot (b : nat) (cx cy : Z) : Spot :=
  {| board := b; x := cx; y := cy; blocked := false;
     adjacent := []; distance := Infinity |}.

(** ** class Board: construction *)

(** The top-left and bottom-left spots are left out. *)
Definition superfluous (h cx cy : Z) : bool :=
  (cx =? 0) && ((cy =? 0) || (cy =? h - 1)).

(** Body of the inner loop of the constructor, on the pair of the object
    store and [this.grid]. *)
Definition make_cell (b : nat) (h cy : Z)
    (st : list Spot * list (string * nat)) (cx : Z)
  : list Spot * list (string * nat) :=
  if negb (superfluous h cx cy)
  then (st.1 ++ [new_Spot b cx cy], grid_set st.2 (key cx cy) (length st.1))
  else st.

Definition make_row (b : nat) (h w : Z)
    (st : list Spot * list (string * nat)) (cy : Z)
  : list Spot * list (string * nat) :=
  foldl (make_cell b h cy) st (zrange w).

Definition make_grid (b : nat) (h w : Z) (sp : list Spot)
  : list Spot * list (string * nat) :=
  foldl (make_row b h w) (sp, []) (zrange h).

(** Candidate neighbors, by row parity. *)
Definition cand_coords (cx cy : Z) : list (Z * Z) :=
  if Z.rem cy 2 =? 0
  then [(cx - 1, cy - 1); (cx, cy - 1); (cx - 1, cy);
        (cx + 1, cy); (cx - 1, cy + 1); (cx, cy + 1)]
  else [(cx, cy - 1); (cx + 1, cy - 1); (cx - 1, cy);
        (cx + 1, cy); (cx, cy + 1); (cx + 1, cy + 1)].

Definition cands (g : list (string * nat)) (cx cy : Z) : list (option nat) :=
  (λ c, grid_get g (key c.1 c.2)) <$> cand_coords cx cy.

Definition on_boundary (h w cx cy : Z) : bool :=
  (cx =? 0) || (cy =? 0) || (cx =? w - 1) || (cy =? h - 1).

(** Body of the loop of [createGraph] for the spot at reference [r]. *)
Definition createGraph_step (g : list (string * nat)) (h w : Z)
    (st : World) (r : nat) : World :=
  match spots st !! r with
  | None => st
  | Some s =>
      let st1 :=
        update_spot r (set_adjacent (omap id (cands g (x s) (y s)))) st in
      if on_boundary h w (x s) (y s) then push_boundary r st1 else st1
  end.

Definition createGraph (g : list (string * nat)) (h w : Z) (st : World)
  : World :=
  foldl (createGraph_step g h w) st (grid_values g).

(** *** Numbers

    A JS number is a double.  The result of a division, a product or a
    sum is the double nearest to the exact result, the one with the even
    significand when the exact result lies halfway; [fl] is this rounding
    on the rationals, with 53 significant bits and no bound on the
    exponent: overflow and underflow, which need numbers far beyond any
    board that can be built, are not modelled. *)

(** The integer nearest to [y], the even one of the two when [y] lies
    halfway. *)
Definition nearest_even (y : Q) : Z :=
  let k := Qfloor y in
  match (y - inject_Z k ?= 1 # 2)%Q with
  | Lt => k
  | Gt => k + 1
  | Eq => if Z.even k then k else k + 1
  end.

(** The binary exponent of [x <> 0], the [l] with
    [2 ^ l <= |x| < 2 ^ (l + 1)]. *)
Definition binade (x : Q) : Z :=
  let l := Z.log2 (Z.abs (Qnum x)) - Z.log2 (Z.pos (Qden x)) in
  if Qle_bool (2 ^ l) (Qabs x) then l else l - 1.

Definition fl (x : Q) : Q :=
  if Qeq_bool x 0 then 0%Q
  else
    let e := binade x - 52 in
    (inject_Z (nearest_even (x / 2 ^ e)) * 2 ^ e)%Q.

Definition rand_Q (u : rand) : Q := num u # Z.to_pos (den u).

(** [Math.floor(n / 2.5 + Math.random() * (n / 5))] *)
Definition middle (n : Z) (u : rand) : Z :=
  Qfloor (fl (fl (inject_Z n / (5 # 2)) +
              fl (rand_Q u * fl (inject_Z n / 5))))%Q.

Definition setInitialCat (g : list (string * nat)) (h w : Z) (ux uy : rand)
  : option nat :=
  grid_get g (key (middle w ux) (middle h uy)).

(** The four draws of one round of [setInitialBlocks]. *)
Record block_draw := {
  draw_dx : rand; draw_dy : rand; draw_x : rand; draw_y : rand
}.

(** [Math.floor((Math.random() * n) / 4)] *)
Definition quarter (n : Z) (u : rand) : Z := num u * n / (4 * den u).

Definition block_target (g : list (string * nat)) (h w : Z) (d : block_draw)
  : option nat :=
  let dx := quarter w (draw_dx d) in
  let dy := quarter h (draw_dy d) in
  let cx := if rand_coin (draw_x d) then dx else w - dx - 1 in
  let cy := if rand_coin (draw_y d) then dy else h - dy - 1 in
  grid_get g (key cx cy).

(** The loop of [setInitialBlocks], started with counter [i].  It draws
    until [numBlocks] spots are blocked; on a finite supply of draws the
    result is [None] when the supply ends first. *)
Fixpoint setInitialBlocks (draws : list block_draw) (numBlocks i : Z)
    (g : list (string * nat)) (h w : Z) (c : option nat) (st : World)
  : option World :=
  if i <? numBlocks then
    match draws with
    | [] => None
    | d :: draws' =>
        match block_target g h w d with
        | Some r =>
            if negb (spot_blocked st r) && negb (bool_decide (c = Some r))
            then setInitialBlocks draws' numBlocks (i + 1) g h w c
                   (update_spot r (set_blocked true) st)
            else setInitialBlocks draws' numBlocks i g h w c st
        | None => setInitialBlocks draws' numBlocks i g h w c st
        end
    end
  else Some st.

Definition assert_odd (h w : Z) (st : World) : World :=
  if negb (Z.rem h 2 =? 0) && negb (Z.rem w 2 =? 0) then st
  else log_console "Height & width must be odd" st.

Definition push_board (b : Board) (w : World) : World :=
  {| spots := spots w; boards := boards w ++ [b];
     boundary_adjacent := boundary_adjacent w;
     console := console w; announced := announced w |}.

(** [new Board(height, width, numBlocks)].  The new board is the last
    element of [boards]. *)
Definition new_Board (h w numBlocks : Z) (ux uy : rand)
    (draws : list block_draw) (st : World) : option World :=
  let b := length (boards st) in
  let st0 := assert_odd h w st in
  let sg := make_grid b h w (spots st0) in
  let g := sg.2 in
  let st1 := createGraph g h w (with_spots (λ _, sg.1) st0) in
  let c := setInitialCat g h w ux uy in
  st2 ← setInitialBlocks draws numBlocks 0 g h w c st1;
  Some (push_board {| height := h; width := w; grid := g; cat := c |} st2).

(** ** class Board: the distance engine *)

(** The objects the search visits: the module-level [boundary] or a spot. *)
Inductive node := boundary | spot (r : nat).

Global Instance node_eq_dec : EqDecision node.
Proof. solve_decision. Defined.

Definition node_adjacent (w : World) (n : node) : list nat :=
  match n with boundary => boundary_adjacent w | spot r => spot_adjacent w r end.

Definition node_distance (w : World) (n : node) : dist :=
  match n with boundary => Fin 0 | spot r => spot_distance w r end.

Record bfs_state := {
  bfs_world : World;
  toVisit : list node;
  seen : gset nat
}.

(** Body of [for (let n of spot.adjacent)], where [p] is the dequeued
    [spot]. *)
Definition visit (p : node) (st : bfs_state) (n : nat) : bfs_state :=
  match spots (bfs_world st) !! n with
  | None => st
  | Some s =>
      if bool_decide (n ∈ seen st) || blocked s then st
      else
        {| bfs_world :=
             update_spot n
               (set_distance (dist_succ (node_distance (bfs_world st) p)))
               (bfs_world st);
           toVisit := toVisit st ++ [spot n];
           seen := {[n]} ∪ seen st |}
  end.

(** [while (toVisit.length > 0)], at most [fuel] rounds. *)
Fixpoint bfs_loop (fuel : nat) (st : bfs_state) : bfs_state :=
  match fuel with
  | O => st
  | S fuel' =>
      match toVisit st with
      | [] => st
      | p :: rest =>
          bfs_loop fuel'
            (foldl (visit p)
               {| bfs_world := bfs_world st; toVisit := rest;
                  seen := seen st |}
               (node_adjacent (bfs_world st) p))
      end
  end.

(** [for (let key in this.grid) this.grid[key].distance = Infinity] *)
Definition reset_distances (g : list (string * nat)) (w : World) : World :=
  foldl (λ st r, update_spot r (set_distance Infinity) st) w (grid_values g).

Definition bfs_start (g : list (string * nat)) (w : World) : bfs_state :=
  {| bfs_world := reset_distances g w; toVisit := [boundary]; seen := ∅ |}.

(** Every round dequeues one object and every spot is enqueued at most
    once, so one round more than there are spots is enough (see
    [updateDistances_runs_to_completion]). *)
Definition updateDistances_run (g : list (string * nat)) (w : World)
  : bfs_state :=
  bfs_loop (S (length (spots w))) (bfs_start g w).

Definition updateDistances (g : list (string * nat)) (w : World) : World :=
  bfs_world (updateDistances_run g w).

(** ** class Board: the cat's turn *)

(** A call either returns or throws a [TypeError] (a property read on
    [undefined]). *)
Inductive completion (A : Type) := Return (a : A) | Throw.
Arguments Return {A} a.
Arguments Throw {A}.

Definition paths_of (w : World) (adjToCat : list nat) : list nat :=
  let distancesNextToCat := spot_distance w <$> adjToCat in
  let minSteps := Math_min distancesNextToCat in
  filter (λ n, spot_distance w n = minSteps) adjToCat.

(** [nextStepForCat] on the board at index [bi]; the result is
    [paths[...]], which is [undefined] ([None]) when [paths] is empty. *)
Definition nextStepForCat (b : Board) (u : rand) (w : World)
  : World * completion (option nat) :=
  let w1 := updateDistances (grid b) w in
  match cat b with
  | None => (w1, Throw)
  | Some c =>
      let paths := paths_of w1 (spot_adjacent w1 c) in
      (w1, Return (paths !! rand_index u (length paths)))
  end.

Definition gameEnd (o : Outcome) (w : World) : World :=
  {| spots := spots w; boards := boards w;
     boundary_adjacent := boundary_adjacent w;
     console := console w; announced := announced w ++ [o] |}.

Definition set_cat (c : option nat) (b : Board) : Board :=
  {| height := height b; width := width b; grid := grid b; cat := c |}.

Definition with_boards (f : list Board → list Board) (w : World) : World :=
  {| spots := spots w; boards := f (boards w);
     boundary_adjacent := boundary_adjacent w;
     console := console w; announced := announced w |}.

(** [moveCat] on the board at index [bi]. *)
Definition moveCat (bi : nat) (u : rand) (w : World)
  : World * completion unit :=
  match boards w !! bi with
  | None => (w, Throw)
  | Some b =>
      match nextStepForCat b u w with
      | (w1, Throw) => (w1, Throw)
      | (w1, Return None) => (w1, Throw)
      | (w1, Return (Some move)) =>
          if decide (spot_distance w1 move = Infinity)
          then (gameEnd win w1, Return ())
          else
            let w2 := with_boards (alter (set_cat (Some move)) bi) w1 in
            if decide (spot_distance w2 move = Fin 1)
            then (gameEnd lose w2, Return ())
            else (w2, Return ())
      end
  end.

(** ** Spot.handleClick

    The click handler of the spot at reference [s]. *)
Definition handleClick (s : nat) (u : rand) (w : World)
  : World * completion unit :=
  match spots w !! s with
  | None => (w, Return ())
  | Some sp =>
      match boards w !! board sp with
      | None => (w, Throw)
      | Some b =>
          if bool_decide (cat b = Some s) || blocked sp then (w, Return ())
          else moveCat (board sp) u (update_spot s (set_blocked true) w)
      end
  end.

(** ** The page

    The script builds one board when it loads; the reset button builds
    another one with the same arguments. *)
Definition load (ux uy : rand) (draws : list block_draw) : option World :=
  new_Board 11 11 6 ux uy draws empty_World.

Definition reset (ux uy : rand) (draws : list block_draw) (w : World)
  : option World :=
  new_Board 11 11 6 ux uy draws w.

(** ** A sample game

    The draw [a / b]; any other pair of numbers stands for 0. *)
Definition fraction (a b : Z) : rand :=
  match ((0 <=? a) && (a <? b)) as c
        return ((0 <=? a) && (a <? b) = c → rand) with
  | true => λ H, {| num := a; den := b; rand_range := H |}
  | false => λ _, {| num := 0; den := 1; rand_range := eq_refl |}
  end eq_refl.

Definition one_half : rand := fraction 1 2.

(** Six rounds of [setInitialBlocks] that block, in this order, the spots
    at (9,1), (10,1), (1,10), (2,10), (0,9) and (1,9). *)
Definition sample_draws : list block_draw :=
  [ {| draw_dx := fraction 4 11; draw_dy := fraction 4 11;
       draw_x := one_half; draw_y := fraction 0 1 |};
    {| draw_dx := fraction 0 1; draw_dy := fraction 4 11;
       draw_x := one_half; draw_y := fraction 0 1 |};
    {| draw_dx := fraction 4 11; draw_dy := fraction 0 1;
       draw_x := fraction 0 1; draw_y := one_half |};
    {| draw_dx := fraction 8 11; draw_dy := fraction 0 1;
       draw_x := fraction 0 1; draw_y := one_half |};
    {| draw_dx := fraction 0 1; draw_dy := fraction 4 11;
       draw_x := fraction 0 1; draw_y := one_half |};
    {| draw_dx := fraction 4 11; draw_dy := fraction 4 11;
       draw_x := fraction 0 1; draw_y := one_half |} ].

(** A sequence of clicks, each with the draw of the cat's answer. *)
Definition play (clicks : list (nat * rand)) (w : World) : World :=
  foldl (λ st c, (handleClick c.1 c.2 st).1) w clicks.

(** The page after loading: the cat sits at (5,5), reference 59. *)
Definition sample_loaded : World :=
  Eval vm_compute in
  default empty_World (load one_half one_half sample_draws).

Definition sample_board : Board :=
  Eval vm_compute in
  default {| height := 0; width := 0; grid := []; cat := None |}
    (boards sample_loaded !! 0%nat).

(** The player blocks (0,8), (1,8), (2,8), (0,7) and (1,7) while the cat
    walks (6,4), (6,3), (7,2), (7,1), (8,0): the loss is announced. *)
Definition sample_lost_clicks : list (nat * rand) :=
  [(87, fraction 1 6); (88, one_half); (89, one_half); (76, one_half);
   (77, one_half)]%nat.

Definition sample_lost : World :=
  Eval vm_compute in play sample_lost_clicks sample_loaded.

(** Play goes on: the player blocks (2,7) and (3,8), the cat walks along
    the top row to (9,0) and into the corner (10,0), reference 9. *)
Definition sample_cornered : World :=
  Eval vm_compute in play [(78, one_half); (90, one_half)]%nat sample_lost.

(** The player clicks (9,0), reference 8: all three neighbors of the cat
    are now blocked.  This is the store on which [moveCat] runs. *)
Definition sample_trapped : World :=
  Eval vm_compute in update_spot 8 (set_blocked true) sample_cornered.

(** The page after loading and one press of the reset button. *)
Definition sample_reset : World :=
  Eval vm_compute in
  default empty_World (reset one_half one_half sample_draws sample_loaded).

(** * Specification-level notions

    From here on numbers are naturals unless marked. *)

Close Scope Z_scope.

(** An allocated spot that is not blocked. *)
Definition open (w : World) (r : nat) : Prop :=
  ∃ s, spots w !! r = Some s ∧ blocked s = false.

(** [walk w n r]: the spot [r] is reached from the escape node in [n] hops,
    every spot on the way (and [r] itself) being unblocked. *)
Inductive walk (w : World) : nat → nat → Prop :=
  | walk_escape r :
      r ∈ boundary_adjacent w → open w r → walk w 1 r
  | walk_step n p r :
      walk w n p → r ∈ spot_adjacent w p → open w r → walk w (S n) r.

(** [n] is the minimum number of hops from the escape node to [r]. *)
Definition min_hops (w : World) (r n : nat) : Prop :=
  walk w n r ∧ ∀ m, walk w m r → n ≤ m.

(** ** The shape of a constructed grid *)

(** The coordinates in the order the constructor's loops run through them,
    and those that get a spot. *)
Definition coords (h w : Z) : list (Z * Z) :=
  zrange h ≫= λ cy, (λ cx, (cx, cy)) <$> zrange w.

Definition cells (h w : Z) : list (Z * Z) :=
  filter (λ c, superfluous h c.1 c.2 = false) (coords h w).

Definition in_grid (h w cx cy : Z) : Prop :=
  (0 ≤ cx < w)%Z ∧ (0 ≤ cy < h)%Z ∧ superfluous h cx cy = false.

Definition key_of (c : Z * Z) : string := key c.1 c.2.

(** The spots and the grid object built for a list of coordinates, the
    first spot being allocated at reference [base]. *)
Definition spots_of (b : nat) (cs : list (Z * Z)) : list Spot :=
  (λ c, new_Spot b c.1 c.2) <$> cs.

Definition grid_of (base : nat) (cs : list (Z * Z)) : list (string * nat) :=
  zip (key_of <$> cs) (seq base (length cs)).

(** What [createGraph] makes of a spot. *)
Definition graph_spot (g : list (string * nat)) (s : Spot) : Spot :=
  set_adjacent (omap id (cands g (x s) (y s))) s.

(** The spot at [r] lies on the outer ring of an [h] by [w] board. *)
Definition border (h w : Z) (st : World) (r : nat) : bool :=
  match spots st !! r with
  | Some s => on_boundary h w (x s) (y s)
  | None => false
  end.

(** [w] differs from [w0] in [blocked] and [distance] fields only. *)
Definition strip (s : Spot) : Spot := set_blocked false (set_distance Infinity s).

Definition same_layout (w0 w : World) : Prop :=
  boundary_adjacent w = boundary_adjacent w0 ∧
  boards w = boards w0 ∧ console w = console w0 ∧
  announced w = announced w0 ∧
  ∀ r, strip <$> spots w !! r = strip <$> spots w0 !! r.

(** Everything in the store but the spots. *)
Definition rest (w : World)
  : list Board * list nat * list string * list Outcome :=
  (boards w, boundary_adjacent w, console w, announced w).



(** ** Well-formed stores *)

(** The spots of a board's grid are allocated, point back to the board,
    and have their neighbors in the same grid. *)
Definition wf_board (w : World) (bi : nat) (b : Board) : Prop :=
  (∀ r, r ∈ grid_values (grid b) →
     ∃ s, spots w !! r = Some s ∧ board s = bi ∧
          ∀ r', r' ∈ adjacent s → r' ∈ grid_values (grid b)) ∧
  (∀ c, cat b = Some c → c ∈ grid_values (grid b)).

Definition wf_store (w : World) : Prop :=
  ∀ bi b, boards w !! bi = Some b → wf_board w bi b.

(** No board has its cat on a blocked spot. *)
Definition cat_free (w : World) : Prop :=
  ∀ bi b c, boards w !! bi = Some b → cat b = Some c → open w c.

(** Every spot on the outer ring of every board is a neighbor of the
    escape node. *)
Definition ring_registered (w : World) : Prop :=
  ∀ bj b r, boards w !! bj = Some b → r ∈ grid_values (grid b) →
    border (height b) (width b) w r = true → r ∈ boundary_adjacent w.

(** A board with at least one row and three columns, as the page's 11 by
    11 boards are. *)
Definition roomy (b : Board) : Prop := (1 ≤ height b)%Z ∧ (3 ≤ width b)%Z.

(** On every roomy board the cat is placed and every spot has a
    neighbor. *)
Definition policy_ready (w : World) : Prop :=
  ∀ bj b, boards w !! bj = Some b → roomy b →
    is_Some (cat b) ∧
    ∀ r, r ∈ grid_values (grid b) → spot_adjacent w r ≠ [].

(** ** Reachable stores

    The page starts from the empty store; boards are built (on load and
    on reset) and spots are clicked.  Only the circles of the newest board
    are in the document, so the clicks that can happen are a subset of
    those allowed here. *)
Inductive reachable : World → Prop :=
  | reachable_empty : reachable empty_World
  | reachable_new_Board w h wd numBlocks ux uy draws w' :
      reachable w →
      new_Board h wd numBlocks ux uy draws w = Some w' →
      reachable w'
  | reachable_click w s u :
      reachable w → reachable (handleClick s u w).1.

(** ** Invariants of the search *)

Definition erase (s : Spot) : Spot := set_distance Infinity s.

(** [w] differs from [w0] in [distance] fields only. *)
Definition same_graph (w0 w : World) : Prop :=
  boundary_adjacent w = boundary_adjacent w0 ∧
  ∀ r, erase <$> spots w !! r = erase <$> spots w0 !! r.

Definition known (st : bfs_state) (p : node) : Prop :=
  match p with boundary => True | spot r => r ∈ seen st end.

Definition hops (w : World) (p : node) : nat :=
  match node_distance w p with Fin n => n | Infinity => 0 end.

Definition levels (st : bfs_state) : list nat :=
  hops (bfs_world st) <$> toVisit st.

(** [P] is the set of objects already dequeued and fully expanded. *)
Record bfs_inv (w0 : World) (P : node → Prop) (st : bfs_state) : Prop := {
  inv_graph : same_graph w0 (bfs_world st);
  inv_unseen : ∀ r, r ∉ seen st →
    spot_distance (bfs_world st) r = spot_distance w0 r;
  inv_seen : ∀ r, r ∈ seen st →
    open w0 r ∧ ∃ n, spot_distance (bfs_world st) r = Fin n ∧ walk w0 n r;
  inv_queue : ∀ p, p ∈ toVisit st → known st p;
  inv_sorted : StronglySorted le (levels st);
  inv_closed : ∀ p, P p →
    known st p ∧
    ∀ r, r ∈ node_adjacent w0 p → open w0 r →
      r ∈ seen st ∧ hops (bfs_world st) (spot r) ≤ S (hops (bfs_world st) p)
}.

(** Between two rounds of the [while] loop. *)
Record bfs_outer (w0 : World) (P : node → Prop) (st : bfs_state) : Prop := {
  outer_inv : bfs_inv w0 P st;
  outer_bound : ∀ r q, r ∈ seen st → q ∈ toVisit st →
    hops (bfs_world st) (spot r) ≤ S (hops (bfs_world st) q);
  outer_cover : ∀ p, known st p → P p ∨ p ∈ toVisit st
}.

(** Inside the [for] loop over the neighbors of the dequeued [p]. *)
Record bfs_inner (w0 : World) (P : node → Prop) (p : node) (st : bfs_state)
  : Prop := {
  inner_inv : bfs_inv w0 P st;
  inner_known : known st p;
  inner_bound : ∀ r, r ∈ seen st →
    hops (bfs_world st) (spot r) ≤ S (hops (bfs_world st) p);
  inner_low : ∀ q, q ∈ toVisit st →
    hops (bfs_world st) p ≤ hops (bfs_world st) q;
  inner_cover : ∀ q, known st q → P q ∨ q ∈ toVisit st ∨ q = p
}.

(** ** Drawing

    The constructors place a circle of radius 13 for every spot in an SVG
    area sized after the board; [draw] computes the class of the circle. *)

(** The [cx] and [cy] attributes of the circle of the spot at [(cx, cy)]:
    [20 + 33 * x + (y % 2 ? 20 : 0)] and [20 + 30 * y]. *)
Definition circle_cx (cx cy : Z) : Z :=
  (20 + 33 * cx + (if Z.rem cy 2 =? 0 then 0 else 20))%Z.

Definition circle_cy (cy : Z) : Z := (20 + 30 * cy)%Z.

Definition circle_r : Z := 13%Z.

(** The [width] and [height] attributes of the board element. *)
Definition svg_width (w : Z) : Z := (w * 33 + 30)%Z.

Definition svg_height (h : Z) : Z := (h * 30 + 12)%Z.

(** [this.board.cat === this] *)
Definition is_cat (w : World) (s : nat) (sp : Spot) : bool :=
  match boards w !! board sp with
  | Some b => bool_decide (cat b = Some s)
  | None => false
  end.

(** [draw(drawCat)] on the spot at reference [s]: the class attribute it
    sets. *)
Definition draw (drawCat : bool) (s : nat) (w : World) : option string :=
  match spots w !! s with
  | None => None
  | Some sp =>
      let classes := "spot" in
      let classes := if blocked sp then classes +:+ " blocked" else classes in
      let classes :=
        if drawCat && is_cat w s sp then classes +:+ " cat" else classes in
      Some classes
  end.

(** ** Further notions used in statements *)

(** The number of blocked spots among [l]. *)
Definition blocked_count (l : list nat) (w : World) : nat :=
  length (filter (λ r, spot_blocked w r = true) l).

(** Neighborhood is mutual between any two spots of the store. *)
Definition adjacency_symmetric (w : World) : Prop :=
  ∀ a c, c ∈ spot_adjacent w a → a ∈ spot_adjacent w c.

(** [c] lies in the first or the last quarter of [0 .. n-1]. *)
Definition in_quarter (n c : Z) : Prop :=
  (0 ≤ c < n)%Z ∧ (4 * c < n ∨ 4 * (n - 1 - c) < n)%Z.

(** [c] lies in the middle band of [0 .. n-1] where the cat is put:
    from [floor (2 n / 5)] to [floor (3 n / 5)]. *)
Definition in_middle (n c : Z) : Prop :=
  (2 * n ≤ 5 * c + 4 ∧ 5 * c ≤ 3 * n)%Z.

(** No neighbor of [c] is connected to the escape node through unblocked
    spots. *)
Definition enclosed (w : World) (c : nat) : Prop :=
  ∀ r n, r ∈ spot_adjacent w c → ¬ walk w n r.

(** * Key injectivity *)

Lemma pretty_N_char_digit n : is_digit (pretty_N_char n) = true.
Proof. unfold pretty_N_char. by repeat case_match. Qed.

Lemma pretty_N_go_digits n s :
  all_digits s = true → all_digits (pretty_N_go n s) = true.
Proof.
  revert s. induction (N.lt_wf_0 n) as [n _ IH]; intros s Hs.
  destruct (decide (n = 0%N)) as [->|Hn].
  - by rewrite pretty_N_go_0.
  - rewrite pretty_N_go_step by lia. apply IH.
    + apply N.div_lt; lia.
    + simpl. by rewrite pretty_N_char_digit.
Qed.

Lemma pretty_N_go_nonempty n s : (0 < n)%N → pretty_N_go n s ≠ "".
Proof.
  revert s. induction (N.lt_wf_0 n) as [n _ IH]; intros s Hn.
  rewrite pretty_N_go_step by done.
  destruct (decide (n `div` 10 = 0)%N) as [->|Hd].
  - by rewrite pretty_N_go_0.
  - apply IH; [apply N.div_lt; lia | by apply N.neq_0_lt_0].
Qed.

Lemma pretty_N_digits (n : N) :
  all_digits (pretty n) = true ∧ pretty n ≠ "".
Proof.
  unfold pretty, pretty_N. case_decide as Hn; [done|].
  split; [by apply pretty_N_go_digits | apply pretty_N_go_nonempty; lia].
Qed.

(** A numeral is an optional minus sign followed by a non-empty run of
    digits. *)
Lemma pretty_Z_shape (z : Z) :
  ∃ (neg : bool) (ds : string),
    pretty z = (if neg then "-" else "") +:+ ds ∧
    all_digits ds = true ∧ ds ≠ "".
Proof.
  destruct z as [|p|p].
  - by exists false, "0".
  - exists false, (pretty (N.pos p)).
    destruct (pretty_N_digits (N.pos p)); done.
  - exists true, (pretty (N.pos p)).
    destruct (pretty_N_digits (N.pos p)); done.
Qed.

Lemma digits_dash_split ds ds' r r' :
  all_digits ds = true → all_digits ds' = true →
  ds +:+ "-" +:+ r = ds' +:+ "-" +:+ r' → ds = ds' ∧ r = r'.
Proof.
  revert ds'. induction ds as [|c ds IH]; intros [|c' ds']; simpl;
    intros Hd Hd' Heq.
  - by simplify_eq.
  - by simplify_eq.
  - by simplify_eq.
  - apply andb_prop in Hd as [_ Hd]. apply andb_prop in Hd' as [_ Hd'].
    injection Heq as -> Heq. by destruct (IH ds' Hd Hd' Heq) as [-> ->].
Qed.

Lemma key_inj x y x' y' : key x y = key x' y' → x = x' ∧ y = y'.
Proof.
  unfold key. intros Heq.
  destruct (pretty_Z_shape x) as (n & ds & Hx & Hds & Hne).
  destruct (pretty_Z_shape x') as (n' & ds' & Hx' & Hds' & Hne').
  rewrite Hx, Hx' in Heq.
  assert (n = n' ∧ ds +:+ "-" +:+ pretty y = ds' +:+ "-" +:+ pretty y')
    as [-> Heq'].
  { destruct ds as [|c ds]; [done|]. destruct ds' as [|c' ds']; [done|].
    simpl in Hds, Hds'.
    apply andb_prop in Hds as [Hc _]. apply andb_prop in Hds' as [Hc' _].
    destruct n, n'; simpl in Heq; simplify_eq; try done;
      (split; [done|];
       change (String c' (ds +:+ "-" +:+ pretty y) =
               String c' (ds' +:+ "-" +:+ pretty y')); congruence). }
  destruct (digits_dash_split _ _ _ _ Hds Hds' Heq') as [-> Hy].
  split; apply (inj pretty); congruence.
Qed.

(** * The store: frame lemmas *)

Lemma spots_update_spot r f w r' :
  spots (update_spot r f w) !! r' =
  if decide (r = r') then f <$> spots w !! r' else spots w !! r'.
Proof.
  unfold update_spot, with_spots; simpl. case_decide as Hr.
  - subst. apply list_lookup_alter_eq.
  - by apply list_lookup_alter_ne.
Qed.

Lemma length_spots_update_spot r f w :
  length (spots (update_spot r f w)) = length (spots w).
Proof. apply length_alter. Qed.

Lemma spot_distance_update_ne r d w r' :
  r ≠ r' →
  spot_distance (update_spot r (set_distance d) w) r' = spot_distance w r'.
Proof.
  intros Hne. unfold spot_distance. rewrite spots_update_spot.
  by rewrite decide_False.
Qed.

Lemma spot_distance_update_eq r d w s :
  spots w !! r = Some s →
  spot_distance (update_spot r (set_distance d) w) r = d.
Proof.
  intros Hs. unfold spot_distance. rewrite spots_update_spot.
  rewrite decide_True by done. by rewrite Hs.
Qed.

Lemma same_graph_refl w : same_graph w w.
Proof. done. Qed.

Lemma same_graph_trans w0 w1 w2 :
  same_graph w0 w1 → same_graph w1 w2 → same_graph w0 w2.
Proof.
  intros [Hb1 Hs1] [Hb2 Hs2]. split; [congruence|].
  intros r. by rewrite Hs2.
Qed.

Lemma same_graph_sym w0 w1 : same_graph w0 w1 → same_graph w1 w0.
Proof. intros [Hb Hs]. split; [done|]. intros r. by rewrite Hs. Qed.

Lemma same_graph_set_distance r d w :
  same_graph w (update_spot r (set_distance d) w).
Proof.
  split; [done|]. intros r'. rewrite spots_update_spot.
  case_decide; [|done]. by destruct (spots w !! r').
Qed.

Lemma same_graph_lookup w0 w r s :
  same_graph w0 w → spots w !! r = Some s →
  ∃ s0, spots w0 !! r = Some s0 ∧ blocked s0 = blocked s ∧
        adjacent s0 = adjacent s ∧ x s0 = x s ∧ y s0 = y s ∧
        board s0 = board s.
Proof.
  intros [_ Hs] Hr. specialize (Hs r). rewrite Hr in Hs.
  destruct (spots w0 !! r) as [s0|] eqn:H0; [|done].
  exists s0. injection Hs as Hs. unfold erase, set_distance in Hs.
  destruct s, s0; simpl in *. by simplify_eq.
Qed.

Lemma same_graph_adjacent w0 w r :
  same_graph w0 w → spot_adjacent w r = spot_adjacent w0 r.
Proof.
  intros Hg. unfold spot_adjacent.
  destruct (spots w !! r) as [s|] eqn:Hr.
  - destruct (same_graph_lookup _ _ _ _ Hg Hr) as (s0 & -> & _ & -> & _).
    done.
  - destruct Hg as [_ Hs]. specialize (Hs r). rewrite Hr in Hs.
    by destruct (spots w0 !! r).
Qed.

Lemma same_graph_blocked w0 w r :
  same_graph w0 w → spot_blocked w r = spot_blocked w0 r.
Proof.
  intros Hg. unfold spot_blocked.
  destruct (spots w !! r) as [s|] eqn:Hr.
  - destruct (same_graph_lookup _ _ _ _ Hg Hr) as (s0 & -> & -> & _).
    done.
  - destruct Hg as [_ Hs]. specialize (Hs r). rewrite Hr in Hs.
    by destruct (spots w0 !! r).
Qed.

Lemma same_graph_node_adjacent w0 w p :
  same_graph w0 w → node_adjacent w p = node_adjacent w0 p.
Proof.
  intros Hg. destruct p; simpl; [apply Hg | by apply same_graph_adjacent].
Qed.

Lemma same_graph_open w0 w r : same_graph w0 w → open w r → open w0 r.
Proof.
  intros Hg (s & Hs & Hb).
  destruct (same_graph_lookup _ _ _ _ Hg Hs) as (s0 & H0 & Hb0 & _).
  exists s0. split; [done | congruence].
Qed.

Lemma same_graph_walk w0 w n r : same_graph w0 w → walk w n r → walk w0 n r.
Proof.
  intros Hg. induction 1 as [r Hr Ho | n p r _ IH Hr Ho].
  - apply walk_escape; [by rewrite <-(proj1 Hg) | by eapply same_graph_open].
  - eapply walk_step; [exact IH | | by eapply same_graph_open].
    by rewrite <-(same_graph_adjacent w0 w).
Qed.

Lemma same_graph_length w0 w :
  same_graph w0 w → length (spots w) = length (spots w0).
Proof.
  intros [_ Hs].
  destruct (decide (length (spots w) = length (spots w0))) as [|Hne];
    [done | exfalso].
  destruct (decide (length (spots w) < length (spots w0))).
  - specialize (Hs (length (spots w))).
    rewrite (lookup_ge_None_2 (spots w)) in Hs by lia.
    destruct (lookup_lt_is_Some_2 (spots w0) (length (spots w))) as [s0 H0];
      [lia|]. by rewrite H0 in Hs.
  - specialize (Hs (length (spots w0))).
    rewrite (lookup_ge_None_2 (spots w0)) in Hs by lia.
    destruct (lookup_lt_is_Some_2 (spots w) (length (spots w0))) as [s0 H0];
      [lia|]. by rewrite H0 in Hs.
Qed.

Lemma walk_open w n r : walk w n r → open w r.
Proof. by destruct 1. Qed.

Lemma walk_pos w n r : walk w n r → 1 ≤ n.
Proof. destruct 1; lia. Qed.

(** * The distance engine is a breadth-first search *)

Section search.
Context (w0 : World).

Lemma known_distance P st p :
  bfs_inv w0 P st → known st p →
  node_distance (bfs_world st) p = Fin (hops (bfs_world st) p).
Proof.
  intros Hinv Hk. destruct p as [|r]; [done|].
  destruct (inv_seen _ _ _ Hinv r Hk) as (_ & n & Hn & _).
  unfold hops; simpl. by rewrite Hn.
Qed.

Lemma known_walk P st r :
  bfs_inv w0 P st → r ∈ seen st → walk w0 (hops (bfs_world st) (spot r)) r.
Proof.
  intros Hinv Hk.
  destruct (inv_seen _ _ _ Hinv r Hk) as (_ & n & Hn & Hw).
  unfold hops; simpl. by rewrite Hn.
Qed.

Lemma visit_skip p st n :
  (∀ s, spots (bfs_world st) !! n = Some s →
        n ∈ seen st ∨ blocked s = true) →
  visit p st n = st.
Proof.
  intros H. unfold visit. destruct (spots (bfs_world st) !! n) as [s|]; [|done].
  destruct (H s eq_refl) as [Hs | ->].
  - by rewrite bool_decide_eq_true_2.
  - by rewrite orb_true_r.
Qed.

Lemma visit_fresh p st n s :
  spots (bfs_world st) !! n = Some s → n ∉ seen st → blocked s = false →
  visit p st n =
  {| bfs_world :=
       update_spot n
         (set_distance (dist_succ (node_distance (bfs_world st) p)))
         (bfs_world st);
     toVisit := toVisit st ++ [spot n];
     seen := {[n]} ∪ seen st |}.
Proof.
  intros Hs Hn Hb. unfold visit. rewrite Hs, Hb.
  by rewrite bool_decide_eq_false_2.
Qed.

(** Writing the distance of an unseen spot leaves the levels of all
    known objects alone. *)
Lemma hops_stable st n d q :
  n ∉ seen st → known st q →
  hops (update_spot n (set_distance d) (bfs_world st)) q =
  hops (bfs_world st) q.
Proof.
  intros Hn Hq. destruct q as [|r]; [done|]. unfold hops; simpl.
  rewrite spot_distance_update_ne; [done|]. intros ->. by apply Hn.
Qed.

Lemma elem_of_added (n r : nat) (X : gset nat) :
  r ∈ {[n]} ∪ X → r ≠ n → r ∈ X.
Proof.
  intros [Hr%elem_of_singleton|Hr]%elem_of_union Hne; [congruence | done].
Qed.

Lemma StronglySorted_snoc (l : list nat) (a : nat) :
  StronglySorted le l → Forall (λ b, b ≤ a) l → StronglySorted le (l ++ [a]).
Proof.
  induction 1 as [|b l Hl IH Hb]; intros Hall; simpl.
  - repeat constructor.
  - inversion_clear Hall as [|?? Hba Hla]. constructor; [by apply IH|].
    apply Forall_app; split; [done | by constructor].
Qed.

Lemma visit_inner P p st n :
  bfs_inner w0 P p st → n ∈ node_adjacent w0 p →
  bfs_inner w0 P p (visit p st n) ∧
  (open w0 n → n ∈ seen (visit p st n)) ∧
  seen st ⊆ seen (visit p st n).
Proof.
  intros Hin Hadj. pose proof (inner_inv _ _ _ _ Hin) as Hinv.
  pose proof (inv_graph _ _ _ Hinv) as Hg.
  destruct (spots (bfs_world st) !! n) as [s|] eqn:Hs; last first.
  { rewrite visit_skip by (intros ?; congruence).
    split_and!; [done | | done].
    intros Ho. apply (same_graph_open (bfs_world st) w0) in Ho as (s & Hs' & _);
      [congruence | by apply same_graph_sym]. }
  destruct (decide (n ∈ seen st)) as [Hn|Hn].
  { rewrite visit_skip by (intros; by left). done. }
  destruct (blocked s) eqn:Hb.
  { rewrite visit_skip by (intros ? ?; right; congruence).
    split_and!; [done | | done].
    intros (s0 & H0 & Hb0).
    destruct (same_graph_lookup _ _ _ _ Hg Hs) as (s0' & H0' & Hb0' & _).
    congruence. }
  rewrite (visit_fresh _ _ _ _ Hs Hn Hb).
  set (w := bfs_world st) in *.
  pose proof (known_distance _ _ _ Hinv (inner_known _ _ _ _ Hin)) as Hdp.
  fold w in Hdp. rewrite Hdp. simpl dist_succ.
  set (w' := update_spot n (set_distance (Fin (S (hops w p)))) w).
  assert (Hst : ∀ q, known st q → hops w' q = hops w q).
  { intros q Hq. by apply hops_stable. }
  assert (Hdn : spot_distance w' n = Fin (S (hops w p))).
  { by eapply spot_distance_update_eq. }
  assert (Hhn : hops w' (spot n) = S (hops w p)).
  { unfold hops; simpl. by rewrite Hdn. }
  assert (Hopen : open w0 n).
  { eapply same_graph_open; [exact Hg | by exists s]. }
  assert (Hwalk : walk w0 (S (hops w p)) n).
  { destruct p as [|r0].
    - by apply walk_escape.
    - eapply walk_step; [|exact Hadj|exact Hopen].
      eapply known_walk; [exact Hinv | exact (inner_known _ _ _ _ Hin)]. }
  split_and!; [| intros _; set_solver | set_solver].
  split; cbn [bfs_world toVisit seen].
  - split; cbn [bfs_world toVisit seen].
    + eapply same_graph_trans; [exact Hg | apply same_graph_set_distance].
    + intros r Hr. unfold w'. rewrite spot_distance_update_ne by set_solver.
      apply (inv_unseen _ _ _ Hinv). set_solver.
    + intros r Hr. destruct (decide (r = n)) as [->|Hne].
      * split; [done|]. by exists (S (hops w p)).
      * unfold w'. rewrite spot_distance_update_ne by done.
        apply (inv_seen _ _ _ Hinv). by apply (elem_of_added n).
    + intros q Hq. apply elem_of_app in Hq as [Hq|Hq].
      * pose proof (inv_queue _ _ _ Hinv q Hq) as Hk.
        destruct q; [done | simpl in *; set_solver].
      * apply list_elem_of_singleton in Hq as ->. simpl. set_solver.
    + unfold levels; simpl. rewrite fmap_app. simpl. rewrite Hhn.
      assert (hops w' <$> toVisit st = levels st) as ->.
      { apply list_fmap_ext. intros i q Hq. apply Hst.
        apply (inv_queue _ _ _ Hinv). by eapply list_elem_of_lookup_2. }
      apply StronglySorted_snoc; [apply (inv_sorted _ _ _ Hinv)|].
      apply Forall_forall. intros b Hb'.
      apply list_elem_of_fmap in Hb' as (q & -> & Hq).
      pose proof (inv_queue _ _ _ Hinv q Hq) as Hk.
      destruct q as [|r]; [unfold hops; simpl; lia|].
      by apply (inner_bound _ _ _ _ Hin).
    + intros q Hq. destruct (inv_closed _ _ _ Hinv q Hq) as [Hk Hcl].
      split; [destruct q; [done | simpl in *; apply elem_of_union; by right]|].
      intros r Hr Ho. destruct (Hcl r Hr Ho) as [Hrs Hle].
      split; [apply elem_of_union; by right|].
      by rewrite (Hst (spot r)), (Hst q).
  - pose proof (inner_known _ _ _ _ Hin).
    destruct p; [done | simpl in *; set_solver].
  - intros r Hr. rewrite (Hst p) by apply (inner_known _ _ _ _ Hin).
    destruct (decide (r = n)) as [->|Hne]; [lia|].
    assert (r ∈ seen st) as Hrs by by apply (elem_of_added n).
    rewrite (Hst (spot r)) by done. by apply (inner_bound _ _ _ _ Hin).
  - intros q Hq. rewrite (Hst p) by apply (inner_known _ _ _ _ Hin).
    apply elem_of_app in Hq as [Hq|Hq].
    + rewrite (Hst q) by by apply (inv_queue _ _ _ Hinv).
      by apply (inner_low _ _ _ _ Hin).
    + apply list_elem_of_singleton in Hq as ->. lia.
  - intros q Hq. destruct (decide (q = spot n)) as [->|Hne].
    + right; left. apply elem_of_app; right. by apply list_elem_of_singleton.
    + assert (known st q) as Hk.
      { destruct q as [|r]; [done|]. simpl in *.
        apply elem_of_union in Hq as [Hq|Hq]; [|done].
        apply elem_of_singleton in Hq. congruence. }
      destruct (inner_cover _ _ _ _ Hin q Hk) as [?|[?|?]]; auto.
      right; left. apply elem_of_app; by left.
Qed.

Lemma visit_fold_inner P p l st :
  bfs_inner w0 P p st → (∀ n, n ∈ l → n ∈ node_adjacent w0 p) →
  bfs_inner w0 P p (foldl (visit p) st l) ∧
  (∀ n, n ∈ l → open w0 n → n ∈ seen (foldl (visit p) st l)) ∧
  seen st ⊆ seen (foldl (visit p) st l).
Proof.
  revert st. induction l as [|n l IH]; intros st Hin Hl; simpl.
  { split_and!; [done | by intros ? ?%elem_of_nil | done]. }
  destruct (visit_inner P p st n Hin) as (Hin' & Hopen & Hsub).
  { apply Hl. by left. }
  destruct (IH (visit p st n) Hin') as (Hin'' & Hopen' & Hsub').
  { intros m Hm. apply Hl. by right. }
  split_and!; [done | | by etrans].
  intros m Hm Ho. apply elem_of_cons in Hm as [->|Hm].
  - apply Hsub', Hopen, Ho.
  - by apply Hopen'.
Qed.

(** One round of the [while] loop. *)
Lemma round_outer P st p rest :
  bfs_outer w0 P st → toVisit st = p :: rest →
  ∃ P',
    bfs_outer w0 P'
      (foldl (visit p)
         {| bfs_world := bfs_world st; toVisit := rest; seen := seen st |}
         (node_adjacent (bfs_world st) p)).
Proof.
  intros Hout Hq. pose proof (outer_inv _ _ _ Hout) as Hinv.
  rewrite (same_graph_node_adjacent w0) by apply (inv_graph _ _ _ Hinv).
  set (st1 := {| bfs_world := bfs_world st; toVisit := rest;
                 seen := seen st |}).
  assert (Hkp : known st p).
  { apply (inv_queue _ _ _ Hinv). rewrite Hq. by left. }
  assert (Hsorted : StronglySorted le (hops (bfs_world st) p :: levels st1)).
  { pose proof (inv_sorted _ _ _ Hinv) as Hs. unfold levels in Hs.
    by rewrite Hq in Hs. }
  apply StronglySorted_inv in Hsorted as [Hsorted Hlow].
  assert (Hin : bfs_inner w0 P p st1).
  { split.
    - split; try apply Hinv; cbn [st1 bfs_world toVisit seen].
      + intros q Hq'. apply (inv_queue _ _ _ Hinv). rewrite Hq. by right.
      + done.
    - done.
    - intros r Hr. apply (outer_bound _ _ _ Hout); [done|].
      rewrite Hq. by left.
    - intros q Hq'. rewrite Forall_forall in Hlow. apply Hlow.
      unfold levels. by apply list_elem_of_fmap_2.
    - intros q Hk. destruct (outer_cover _ _ _ Hout q Hk) as [?|Hq']; [auto|].
      rewrite Hq in Hq'. apply elem_of_cons in Hq' as [->|?]; auto. }
  destruct (visit_fold_inner P p (node_adjacent w0 p) st1 Hin)
    as (Hin' & Hopen & Hsub); [done|].
  set (st2 := foldl (visit p) st1 (node_adjacent w0 p)) in *.
  pose proof (inner_inv _ _ _ _ Hin') as Hinv'.
  exists (λ q, P q ∨ q = p). split.
  - split; try apply Hinv'.
    intros q [Hq'| ->]; [by apply (inv_closed _ _ _ Hinv')|].
    split; [apply (inner_known _ _ _ _ Hin')|].
    intros r Hr Ho. split; [by apply Hopen|].
    apply (inner_bound _ _ _ _ Hin'). by apply Hopen.
  - intros r q Hr Hq'.
    pose proof (inner_bound _ _ _ _ Hin' r Hr).
    pose proof (inner_low _ _ _ _ Hin' q Hq'). lia.
  - intros q Hk.
    destruct (inner_cover _ _ _ _ Hin' q Hk) as [?|[?|?]]; auto.
Qed.

Lemma bfs_loop_outer fuel P st :
  bfs_outer w0 P st → ∃ P', bfs_outer w0 P' (bfs_loop fuel st).
Proof.
  revert P st. induction fuel as [|fuel IH]; intros P st Hout; simpl.
  { by exists P. }
  destruct (toVisit st) as [|p rest] eqn:Hq; [by exists P|].
  destruct (round_outer P st p rest Hout Hq) as [P' Hout'].
  by apply (IH P').
Qed.

Lemma bfs_outer_start :
  bfs_outer w0 (λ _, False)
    {| bfs_world := w0; toVisit := [boundary]; seen := ∅ |}.
Proof.
  split; [split|..]; cbn [bfs_world toVisit seen]; try done.
  - intros p Hp. apply list_elem_of_singleton in Hp as ->. done.
  - repeat constructor.
  - intros [|r] Hk; [right; by left | done].
Qed.

(** When the queue has run empty, every spot with a walk has been seen
    and its level is at most the length of the walk. *)
Lemma bfs_outer_complete P st n r :
  bfs_outer w0 P st → toVisit st = [] → walk w0 n r →
  r ∈ seen st ∧ hops (bfs_world st) (spot r) ≤ n.
Proof.
  intros Hout Hq. pose proof (outer_inv _ _ _ Hout) as Hinv.
  assert (HP : ∀ q, known st q → P q).
  { intros q Hk. destruct (outer_cover _ _ _ Hout q Hk) as [?|Hq']; [done|].
    rewrite Hq in Hq'. by apply elem_of_nil in Hq'. }
  induction 1 as [r Hr Ho | n p r _ [IHs IHn] Hr Ho].
  - destruct (inv_closed _ _ _ Hinv boundary (HP boundary I)) as [_ Hcl].
    destruct (Hcl r Hr Ho) as [? Hle]. split; [done|].
    unfold hops in Hle at 2; simpl in Hle. lia.
  - destruct (inv_closed _ _ _ Hinv (spot p) (HP (spot p) IHs)) as [_ Hcl].
    destruct (Hcl r Hr Ho) as [? Hle]. split; [done | lia].
Qed.
End search.

(** ** The loop runs until the queue is empty *)

Lemma visit_count p st n :
  seen st ⊆ set_seq 0 (length (spots (bfs_world st))) →
  let st' := visit p st n in
  length (spots (bfs_world st')) = length (spots (bfs_world st)) ∧
  seen st' ⊆ set_seq 0 (length (spots (bfs_world st'))) ∧
  length (toVisit st') + size (seen st) = length (toVisit st) + size (seen st').
Proof.
  intros Hsub. unfold visit.
  destruct (spots (bfs_world st) !! n) as [s|] eqn:Hs; [|done].
  destruct (bool_decide (n ∈ seen st)) eqn:Hn; [done|].
  destruct (blocked s); [done|]. cbn.
  apply bool_decide_eq_false in Hn.
  rewrite length_alter. split_and!; [done | |].
  - apply union_subseteq; split; [|done].
    apply singleton_subseteq_l, elem_of_set_seq.
    apply lookup_lt_Some in Hs. lia.
  - rewrite length_app, size_union, size_singleton by by apply disjoint_singleton_l.
    simpl. lia.
Qed.

Lemma visit_fold_count p l st :
  seen st ⊆ set_seq 0 (length (spots (bfs_world st))) →
  let st' := foldl (visit p) st l in
  length (spots (bfs_world st')) = length (spots (bfs_world st)) ∧
  seen st' ⊆ set_seq 0 (length (spots (bfs_world st'))) ∧
  length (toVisit st') + size (seen st) = length (toVisit st) + size (seen st').
Proof.
  revert st. induction l as [|n l IH]; intros st Hsub; simpl; [done|].
  destruct (visit_count p st n Hsub) as (Hlen & Hsub' & Hcount).
  destruct (IH (visit p st n) Hsub') as (Hlen' & Hsub'' & Hcount').
  split_and!; [congruence | done | lia].
Qed.

Lemma bfs_loop_empties fuel st :
  seen st ⊆ set_seq 0 (length (spots (bfs_world st))) →
  length (toVisit st) + length (spots (bfs_world st)) ≤ fuel + size (seen st) →
  toVisit (bfs_loop fuel st) = [].
Proof.
  revert st. induction fuel as [|fuel IH]; intros st Hsub Hfuel; simpl.
  - apply subseteq_size in Hsub. rewrite size_set_seq in Hsub.
    apply length_zero_iff_nil. lia.
  - destruct (toVisit st) as [|p rest] eqn:Hq; [done|].
    set (st1 := {| bfs_world := bfs_world st; toVisit := rest;
                   seen := seen st |}).
    destruct (visit_fold_count p (node_adjacent (bfs_world st) p) st1 Hsub)
      as (Hlen & Hsub' & Hcount).
    apply IH; [done|]. simpl in *. lia.
Qed.

(** ** [updateDistances] *)

Lemma reset_distances_fold l w :
  same_graph w (foldl (λ st r, update_spot r (set_distance Infinity) st) w l) ∧
  ∀ r, r ∈ l ∨ spot_distance w r = Infinity →
    spot_distance
      (foldl (λ st r, update_spot r (set_distance Infinity) st) w l) r
    = Infinity.
Proof.
  revert w. induction l as [|a l IH]; intros w; simpl.
  { split; [done|]. by intros r [?%elem_of_nil|?]. }
  destruct (IH (update_spot a (set_distance Infinity) w)) as [Hg Hd].
  split.
  - eapply same_graph_trans; [apply same_graph_set_distance | exact Hg].
  - intros r Hr. apply Hd.
    destruct (decide (a = r)) as [->|Hne].
    + right. unfold spot_distance. rewrite spots_update_spot.
      rewrite decide_True by done. by destruct (spots w !! r).
    + rewrite spot_distance_update_ne by done.
      destruct Hr as [Hr|Hr]; [|by right].
      apply elem_of_cons in Hr as [?|?]; [congruence | by left].
Qed.

Lemma reset_distances_same_graph g w : same_graph w (reset_distances g w).
Proof. apply reset_distances_fold. Qed.

Lemma reset_distances_grid g w r :
  r ∈ grid_values g → spot_distance (reset_distances g w) r = Infinity.
Proof. intros Hr. apply reset_distances_fold. by left. Qed.

(** The [while] loop leaves by its own condition: the fuel of
    [updateDistances_run] is never exhausted with objects still queued. *)
Lemma updateDistances_runs_to_completion g w :
  toVisit (updateDistances_run g w) = [].
Proof.
  apply bfs_loop_empties; cbn [bfs_start bfs_world toVisit seen];
    [apply empty_subseteq|].
  rewrite (same_graph_length w) by apply reset_distances_same_graph.
  rewrite size_empty. simpl. lia.
Qed.

Lemma updateDistances_invariant g w :
  ∃ P, bfs_outer (reset_distances g w) P (updateDistances_run g w).
Proof. eapply bfs_loop_outer, bfs_outer_start. Qed.

Lemma updateDistances_same_graph g w : same_graph w (updateDistances g w).
Proof.
  destruct (updateDistances_invariant g w) as [P Hout].
  eapply same_graph_trans; [apply (reset_distances_same_graph g)|].
  apply (inv_graph _ _ _ (outer_inv _ _ _ Hout)).
Qed.

(** A finite label is the length of some walk. *)
Lemma updateDistances_seen_walk g w r :
  r ∈ seen (updateDistances_run g w) →
  ∃ n, spot_distance (updateDistances g w) r = Fin n ∧ walk w n r.
Proof.
  intros Hr. destruct (updateDistances_invariant g w) as [P Hout].
  destruct (inv_seen _ _ _ (outer_inv _ _ _ Hout) r Hr) as (_ & n & Hn & Hw).
  exists n. split; [done|].
  eapply same_graph_walk; [|exact Hw].
  apply reset_distances_same_graph.
Qed.

(** Every walk ends at a seen spot whose label is at most its length. *)
Lemma updateDistances_walk_seen g w n r :
  walk w n r →
  r ∈ seen (updateDistances_run g w) ∧
  ∃ m, spot_distance (updateDistances g w) r = Fin m ∧ m ≤ n.
Proof.
  intros Hw. destruct (updateDistances_invariant g w) as [P Hout].
  assert (walk (reset_distances g w) n r) as Hw0.
  { eapply same_graph_walk; [|exact Hw].
    apply same_graph_sym, reset_distances_same_graph. }
  destruct (bfs_outer_complete _ P _ n r Hout
              (updateDistances_runs_to_completion g w) Hw0) as [Hs Hle].
  split; [done|].
  destruct (updateDistances_seen_walk g w r Hs) as (m & Hm & _).
  exists m. split; [done|].
  unfold hops in Hle; simpl in Hle. unfold updateDistances in Hm.
  by rewrite Hm in Hle.
Qed.

Lemma updateDistances_min_hops g w r n :
  min_hops w r n → spot_distance (updateDistances g w) r = Fin n.
Proof.
  intros [Hw Hmin].
  destruct (updateDistances_walk_seen g w n r Hw) as (Hs & m & Hm & Hle).
  destruct (updateDistances_seen_walk g w r Hs) as (m' & Hm' & Hw').
  rewrite Hm. f_equal. apply Nat.le_antisymm; [done|].
  apply Hmin. congruence.
Qed.

Lemma updateDistances_unreachable g w r :
  r ∈ grid_values g → (∀ n, ¬ walk w n r) →
  spot_distance (updateDistances g w) r = Infinity.
Proof.
  intros Hr Hno. destruct (updateDistances_invariant g w) as [P Hout].
  unfold updateDistances.
  rewrite (inv_unseen _ _ _ (outer_inv _ _ _ Hout)).
  - by apply reset_distances_grid.
  - intros Hs. destruct (updateDistances_seen_walk g w r Hs) as (n & _ & Hw).
    by apply (Hno n).
Qed.

Lemma blocked_no_walk w r n : spot_blocked w r = true → ¬ walk w n r.
Proof.
  intros Hb Hw. apply walk_open in Hw as (s & Hs & Hb').
  unfold spot_blocked in Hb. rewrite Hs in Hb. congruence.
Qed.

(** After a pass, a grid spot with a finite label is unblocked. *)
Lemma updateDistances_finite_open g w r :
  r ∈ grid_values g → spot_distance (updateDistances g w) r ≠ Infinity →
  open w r.
Proof.
  intros Hr Hd. destruct (updateDistances_invariant g w) as [P Hout].
  destruct (decide (r ∈ seen (updateDistances_run g w))) as [Hs|Hs].
  - destruct (updateDistances_seen_walk g w r Hs) as (n & _ & Hw).
    by eapply walk_open.
  - exfalso. apply Hd. unfold updateDistances.
    rewrite (inv_unseen _ _ _ (outer_inv _ _ _ Hout)) by done.
    by apply reset_distances_grid.
Qed.

(** C1.  After one run of [updateDistances] on a board with grid [g], in
    any store (so for any assignment of blocked flags): a grid spot whose
    minimum number of hops from the escape node over unblocked spots is [n]
    has distance [n], and a grid spot that is blocked or has no such walk
    has distance [Infinity]. *)
Theorem updateDistances_shortest_hops g w r :
  r ∈ grid_values g →
  (∀ n, min_hops w r n → spot_distance (updateDistances g w) r = Fin n) ∧
  (spot_blocked w r = true ∨ (∀ n, ¬ walk w n r) →
   spot_distance (updateDistances g w) r = Infinity).
Proof.
  intros Hr. split.
  - intros n. apply updateDistances_min_hops.
  - intros [Hb|Hno]; apply updateDistances_unreachable; try done.
    intros n. by apply blocked_no_walk.
Qed.

(** * The grid object *)

Lemma grid_get_elem g k r : grid_get g k = Some r → (k, r) ∈ g.
Proof.
  induction g as [|[k' r'] g IH]; simpl; [done|].
  case_decide as Hk.
  - intros [= ->]. subst. by left.
  - intros Hg. right. by apply IH.
Qed.

Lemma grid_get_value g k r : grid_get g k = Some r → r ∈ grid_values g.
Proof.
  intros Hg. apply grid_get_elem in Hg.
  unfold grid_values. apply list_elem_of_fmap. by exists (k, r).
Qed.

Lemma grid_get_unique g k r :
  NoDup g.*1 → (k, r) ∈ g → grid_get g k = Some r.
Proof.
  induction g as [|[k' r'] g IH]; simpl; intros Hnd Hin.
  { by apply elem_of_nil in Hin. }
  apply NoDup_cons in Hnd as [Hk' Hnd].
  apply elem_of_cons in Hin as [[= -> ->]|Hin].
  - by rewrite decide_True.
  - rewrite decide_False; [by apply IH|].
    intros ->. apply Hk'. apply list_elem_of_fmap. by exists (k', r).
Qed.

Lemma grid_set_fresh g k r : k ∉ g.*1 → grid_set g k r = g ++ [(k, r)].
Proof.
  induction g as [|[k' r'] g IH]; simpl; intros Hk; [done|].
  apply not_elem_of_cons in Hk as [Hne Hk].
  rewrite decide_False by done. by rewrite IH.
Qed.

Global Instance key_of_inj : Inj (=) (=) key_of.
Proof.
  intros [cx cy] [cx' cy'] Heq. unfold key_of in Heq; simpl in Heq.
  by destruct (key_inj _ _ _ _ Heq) as [-> ->].
Qed.

Lemma grid_of_snoc base cs c :
  grid_of base (cs ++ [c]) = grid_of base cs ++ [(key_of c, base + length cs)].
Proof.
  unfold grid_of. rewrite fmap_app, length_app. simpl.
  rewrite Nat.add_1_r, seq_S.
  rewrite zip_with_app by by rewrite length_fmap, length_seq. done.
Qed.

Lemma grid_of_keys base cs : (grid_of base cs).*1 = key_of <$> cs.
Proof.
  unfold grid_of. apply fst_zip. by rewrite length_fmap, length_seq.
Qed.

Lemma grid_of_values base cs :
  grid_values (grid_of base cs) = seq base (length cs).
Proof.
  unfold grid_of, grid_values. apply snd_zip.
  by rewrite length_fmap, length_seq.
Qed.

Lemma grid_of_elem base cs k r :
  (k, r) ∈ grid_of base cs ↔
  ∃ i c, cs !! i = Some c ∧ k = key_of c ∧ r = base + i.
Proof.
  unfold grid_of. rewrite elem_of_lookup_zip_with. split.
  - intros (i & k' & r' & [= -> ->] & Hk & Hr).
    apply list_lookup_fmap_Some in Hk as (c & -> & Hc).
    apply lookup_seq in Hr as [-> _]. by exists i, c.
  - intros (i & c & Hc & -> & ->). exists i, (key_of c), (base + i).
    split_and!; [done | by apply list_lookup_fmap_Some_2 |].
    apply lookup_seq. split; [done|]. by eapply lookup_lt_Some.
Qed.

Lemma grid_of_get base cs c r :
  NoDup cs →
  grid_get (grid_of base cs) (key_of c) = Some r ↔
  ∃ i, cs !! i = Some c ∧ r = base + i.
Proof.
  intros Hnd. split.
  - intros Hg. apply grid_get_elem, grid_of_elem in Hg
      as (i & c' & Hc & Hk & ->).
    apply (inj key_of) in Hk as ->. by exists i.
  - intros (i & Hc & ->). apply grid_get_unique.
    + rewrite grid_of_keys. by apply (NoDup_fmap_2 key_of).
    + apply grid_of_elem. by exists i, c.
Qed.

(** * Construction of the grid *)

Lemma make_grid_coords b h w sp :
  make_grid b h w sp =
  foldl (λ st c, make_cell b h c.2 st c.1) (sp, []) (coords h w).
Proof.
  unfold make_grid, coords. generalize (sp, @nil (string * nat)).
  induction (zrange h) as [|cy l IH]; intros st; simpl; [done|].
  rewrite foldl_app, <-IH. f_equal.
  unfold make_row. by rewrite foldl_fmap.
Qed.

Lemma spots_of_snoc b cs c :
  spots_of b (cs ++ [c]) = spots_of b cs ++ [new_Spot b c.1 c.2].
Proof. unfold spots_of. by rewrite fmap_app. Qed.

Lemma length_spots_of b cs : length (spots_of b cs) = length cs.
Proof. apply length_fmap. Qed.

Lemma make_cells_spec b h sp cs :
  NoDup cs →
  foldl (λ st c, make_cell b h c.2 st c.1) (sp, []) cs =
  (sp ++ spots_of b (filter (λ c, superfluous h c.1 c.2 = false) cs),
   grid_of (length sp) (filter (λ c, superfluous h c.1 c.2 = false) cs)).
Proof.
  induction cs as [|c cs IH] using rev_ind; intros Hnd.
  { simpl. by rewrite app_nil_r. }
  apply NoDup_app in Hnd as (Hnd & Hc & _).
  rewrite foldl_app, IH by done. simpl.
  rewrite filter_app. unfold make_cell; simpl.
  destruct (superfluous h c.1 c.2) eqn:Hsup; simpl.
  - rewrite filter_cons_False, filter_nil, app_nil_r by congruence. done.
  - rewrite filter_cons_True, filter_nil by done.
    rewrite spots_of_snoc, app_assoc. f_equal.
    rewrite grid_of_snoc, grid_set_fresh.
    + unfold key_of. by rewrite length_app, length_spots_of.
    + rewrite grid_of_keys. intros Hin.
      apply (list_elem_of_fmap_inj_2 key_of _ c) in Hin.
      apply list_elem_of_filter in Hin as [_ Hin].
      apply (Hc c Hin). by left.
Qed.

Lemma elem_of_coords h w cx cy :
  (cx, cy) ∈ coords h w ↔ (0 ≤ cx < w)%Z ∧ (0 ≤ cy < h)%Z.
Proof.
  unfold coords, zrange. rewrite list_elem_of_bind. split.
  - intros (cy' & Hc & Hcy). apply list_elem_of_fmap in Hc as (cx' & [= -> ->] & Hcx).
    apply elem_of_seqZ in Hcx, Hcy. lia.
  - intros [Hcx Hcy]. exists cy. split.
    + apply list_elem_of_fmap. exists cx. split; [done|].
      apply elem_of_seqZ. lia.
    + apply elem_of_seqZ. lia.
Qed.

Lemma NoDup_coords h w : NoDup (coords h w).
Proof.
  unfold coords. apply NoDup_bind.
  - intros cy1 cy2 c _ _ H1 H2.
    apply list_elem_of_fmap in H1 as (? & -> & _).
    apply list_elem_of_fmap in H2 as (? & [= _ ->] & _). done.
  - intros cy _. apply NoDup_fmap_2; [|apply NoDup_seqZ].
    by intros ?? [= ->].
  - apply NoDup_seqZ.
Qed.

Lemma NoDup_cells h w : NoDup (cells h w).
Proof. apply NoDup_filter, NoDup_coords. Qed.

Lemma elem_of_cells h w cx cy : (cx, cy) ∈ cells h w ↔ in_grid h w cx cy.
Proof.
  unfold cells, in_grid. rewrite list_elem_of_filter, elem_of_coords.
  simpl. tauto.
Qed.

(** The constructor's loops allocate one fresh spot per cell, in order, and
    enter it in the grid under its key. *)
Lemma make_grid_spec b h w sp :
  make_grid b h w sp =
  (sp ++ spots_of b (cells h w), grid_of (length sp) (cells h w)).
Proof.
  rewrite make_grid_coords. apply make_cells_spec, NoDup_coords.
Qed.

(** * [createGraph] *)

Lemma createGraph_step_spots g h w st r r' :
  spots (createGraph_step g h w st r) !! r' =
  if decide (r = r') then graph_spot g <$> spots st !! r' else spots st !! r'.
Proof.
  unfold createGraph_step.
  destruct (spots st !! r) as [s|] eqn:Hs.
  - assert (spots (update_spot r
              (set_adjacent (omap id (cands g (x s) (y s)))) st) !! r' =
            if decide (r = r') then graph_spot g <$> spots st !! r'
            else spots st !! r') as Hup.
    { rewrite spots_update_spot. case_decide; [|done]. subst.
      by rewrite Hs. }
    by destruct (on_boundary h w (x s) (y s)).
  - case_decide; [|done]. subst. by rewrite Hs.
Qed.

Lemma createGraph_step_boundary g h w st r :
  boundary_adjacent (createGraph_step g h w st r) =
  boundary_adjacent st ++ (if border h w st r then [r] else []).
Proof.
  unfold createGraph_step, border.
  destruct (spots st !! r) as [s|]; [|by rewrite app_nil_r].
  destruct (on_boundary h w (x s) (y s)); [done | by rewrite app_nil_r].
Qed.

Lemma createGraph_step_rest g h w st r :
  boards (createGraph_step g h w st r) = boards st ∧
  console (createGraph_step g h w st r) = console st ∧
  announced (createGraph_step g h w st r) = announced st.
Proof.
  unfold createGraph_step. destruct (spots st !! r) as [s|]; [|done].
  by destruct (on_boundary h w (x s) (y s)).
Qed.

Lemma graph_spot_idemp g s : graph_spot g (graph_spot g s) = graph_spot g s.
Proof. done. Qed.

Lemma createGraph_fold g h w l st :
  let st' := foldl (createGraph_step g h w) st l in
  (∀ r, spots st' !! r =
        if decide (r ∈ l) then graph_spot g <$> spots st !! r
        else spots st !! r) ∧
  boundary_adjacent st' =
    boundary_adjacent st ++ filter (λ r, border h w st r = true) l ∧
  boards st' = boards st ∧ console st' = console st ∧
  announced st' = announced st.
Proof.
  revert st. induction l as [|a l IH]; intros st; simpl.
  { split_and!; try done. by rewrite app_nil_r. }
  destruct (IH (createGraph_step g h w st a)) as (Hsp & Hb & Hbo & Hc & Ha).
  destruct (createGraph_step_rest g h w st a) as (Hbo' & Hc' & Ha').
  assert (Hborder : ∀ r, border h w (createGraph_step g h w st a) r =
                         border h w st r).
  { intros r. unfold border. rewrite createGraph_step_spots.
    case_decide; [|done]. by destruct (spots st !! r). }
  split_and!; try congruence.
  - intros r. rewrite Hsp, createGraph_step_spots.
    destruct (decide (a = r)) as [->|Hne].
    + rewrite (decide_True (P := r ∈ r :: l)) by by left.
      case_decide; [|done]. by destruct (spots st !! r).
    + destruct (decide (r ∈ l)) as [Hr|Hr].
      * rewrite (decide_True (P := r ∈ a :: l)) by by right. done.
      * rewrite (decide_False (P := r ∈ a :: l)); [done|].
        intros [?|?]%elem_of_cons; [congruence | done].
  - rewrite Hb, createGraph_step_boundary, <-app_assoc. f_equal.
    rewrite (list_filter_iff _ (λ r, border h w st r = true) l)
      by (intros r; by rewrite Hborder).
    rewrite filter_cons. destruct (border h w st a) eqn:Hba.
    + by rewrite decide_True.
    + by rewrite decide_False.
Qed.

(** * [setInitialBlocks] *)

Lemma same_layout_refl w : same_layout w w.
Proof. done. Qed.

Lemma same_layout_trans w0 w1 w2 :
  same_layout w0 w1 → same_layout w1 w2 → same_layout w0 w2.
Proof.
  intros (?&?&?&?&Hs1) (?&?&?&?&Hs2).
  split_and!; try congruence; intros r; by rewrite Hs2.
Qed.

Lemma same_layout_set_blocked r v w :
  same_layout w (update_spot r (set_blocked v) w).
Proof.
  split_and!; try done. intros r'. rewrite spots_update_spot.
  case_decide; [|done]. by destruct (spots w !! r').
Qed.

Lemma same_layout_lookup w0 w r s :
  same_layout w0 w → spots w !! r = Some s →
  ∃ s0, spots w0 !! r = Some s0 ∧ adjacent s0 = adjacent s ∧
        x s0 = x s ∧ y s0 = y s ∧ board s0 = board s.
Proof.
  intros (_&_&_&_&Hs) Hr. specialize (Hs r). rewrite Hr in Hs.
  destruct (spots w0 !! r) as [s0|] eqn:H0; [|done].
  exists s0. injection Hs as Hs. unfold strip, set_blocked, set_distance in Hs.
  destruct s, s0; simpl in *. by simplify_eq.
Qed.

Lemma same_layout_sym w0 w1 : same_layout w0 w1 → same_layout w1 w0.
Proof.
  intros (?&?&?&?&Hs). split_and!; try done; intros r; by rewrite Hs.
Qed.

Lemma spot_blocked_update_ne r f w r' :
  r ≠ r' → spot_blocked (update_spot r f w) r' = spot_blocked w r'.
Proof.
  intros Hne. unfold spot_blocked. rewrite spots_update_spot.
  by rewrite decide_False.
Qed.

Lemma block_target_grid g h w d r :
  block_target g h w d = Some r → r ∈ grid_values g.
Proof. apply grid_get_value. Qed.

Lemma setInitialBlocks_spec draws numBlocks i g h w c st st' :
  setInitialBlocks draws numBlocks i g h w c st = Some st' →
  same_layout st st' ∧
  (∀ r, r ∉ grid_values g → spots st' !! r = spots st !! r) ∧
  (∀ r, c = Some r → spot_blocked st' r = spot_blocked st r) ∧
  (∀ r, spot_distance st' r = spot_distance st r).
Proof.
  revert i st. induction draws as [|d draws IH]; intros i st; simpl.
  { destruct (i <? numBlocks)%Z; [done|]. by intros [= <-]. }
  destruct (i <? numBlocks)%Z; [|by intros [= <-]].
  destruct (block_target g h w d) as [r|] eqn:Ht; [|by apply IH].
  destruct (negb (spot_blocked st r) && negb (bool_decide (c = Some r)))
    eqn:Hcond; [|by apply IH].
  intros Hrec. apply IH in Hrec as (Hl & Hout & Hcat & Hdist).
  apply andb_prop in Hcond as [_ Hc%negb_true_iff%bool_decide_eq_false].
  split_and!.
  - eapply same_layout_trans; [apply same_layout_set_blocked | exact Hl].
  - intros r' Hr'. rewrite Hout, spots_update_spot by done.
    rewrite decide_False; [done|]. intros ->.
    by apply Hr', (block_target_grid g h w d).
  - intros r' ->. rewrite Hcat by done.
    apply spot_blocked_update_ne. congruence.
  - intros r'. rewrite Hdist. unfold spot_distance.
    rewrite spots_update_spot. case_decide; [|done].
    by destruct (spots st !! r').
Qed.

(** * [new Board] *)

Lemma same_layout_lookup_fwd w0 w r s0 :
  same_layout w0 w → spots w0 !! r = Some s0 →
  ∃ s, spots w !! r = Some s ∧ adjacent s = adjacent s0 ∧
       x s = x s0 ∧ y s = y s0 ∧ board s = board s0.
Proof.
  intros Hl Hr.
  destruct (same_layout_lookup w w0 r s0 (same_layout_sym _ _ Hl) Hr)
    as (s & ? & ? & ? & ? & ?).
  by exists s.
Qed.

Lemma same_layout_border h w w0 w1 r :
  same_layout w0 w1 → border h w w1 r = border h w w0 r.
Proof.
  intros Hl. unfold border. destruct (spots w1 !! r) as [s|] eqn:Hs.
  - destruct (same_layout_lookup _ _ _ _ Hl Hs) as (s0 & -> & _ & -> & -> & _).
    done.
  - destruct Hl as (_&_&_&_&Hl). specialize (Hl r). rewrite Hs in Hl.
    by destruct (spots w0 !! r).
Qed.

Lemma same_layout_adjacent w0 w1 r :
  same_layout w0 w1 → spot_adjacent w1 r = spot_adjacent w0 r.
Proof.
  intros Hl. unfold spot_adjacent. destruct (spots w1 !! r) as [s|] eqn:Hs.
  - by destruct (same_layout_lookup _ _ _ _ Hl Hs) as (s0 & -> & -> & _).
  - destruct Hl as (_&_&_&_&Hl). specialize (Hl r). rewrite Hs in Hl.
    by destruct (spots w0 !! r).
Qed.

Lemma same_layout_length w0 w :
  same_layout w0 w → length (spots w) = length (spots w0).
Proof.
  intros (_&_&_&_&Hs).
  destruct (decide (length (spots w) = length (spots w0))) as [|Hne];
    [done | exfalso].
  destruct (decide (length (spots w) < length (spots w0))).
  - specialize (Hs (length (spots w))).
    rewrite (lookup_ge_None_2 (spots w)) in Hs by lia.
    destruct (lookup_lt_is_Some_2 (spots w0) (length (spots w))) as [s0 H0];
      [lia|]. by rewrite H0 in Hs.
  - specialize (Hs (length (spots w0))).
    rewrite (lookup_ge_None_2 (spots w0)) in Hs by lia.
    destruct (lookup_lt_is_Some_2 (spots w) (length (spots w0))) as [s0 H0];
      [lia|]. by rewrite H0 in Hs.
Qed.

Lemma new_Board_spec h w numBlocks ux uy draws st st' :
  new_Board h w numBlocks ux uy draws st = Some st' →
  let base := length (spots st) in
  let bi := length (boards st) in
  let g := grid_of base (cells h w) in
  boards st' =
    boards st ++ [{| height := h; width := w; grid := g;
                     cat := setInitialCat g h w ux uy |}] ∧
  boundary_adjacent st' =
    boundary_adjacent st ++
    filter (λ r, border h w st' r = true) (grid_values g) ∧
  announced st' = announced st ∧
  console st' = console (assert_odd h w st) ∧
  (∀ r, r < base → spots st' !! r = spots st !! r) ∧
  (∀ i c, cells h w !! i = Some c →
     ∃ s, spots st' !! (base + i) = Some s ∧ x s = c.1 ∧ y s = c.2 ∧
          board s = bi ∧ adjacent s = omap id (cands g c.1 c.2) ∧
          distance s = Infinity) ∧
  length (spots st') = base + length (cells h w) ∧
  (∀ c, setInitialCat g h w ux uy = Some c → spot_blocked st' c = false).
Proof.
  unfold new_Board. rewrite make_grid_spec. cbn [fst snd].
  assert (Hsp0 : spots (assert_odd h w st) = spots st).
  { unfold assert_odd. by case_match. }
  assert (Hrest0 : boards (assert_odd h w st) = boards st ∧
                   boundary_adjacent (assert_odd h w st) = boundary_adjacent st ∧
                   announced (assert_odd h w st) = announced st).
  { unfold assert_odd. by case_match. }
  destruct Hrest0 as (Hbo0 & Hbd0 & Han0).
  rewrite Hsp0.
  set (base := length (spots st)). set (bi := length (boards st)).
  set (g := grid_of base (cells h w)).
  set (sti := with_spots (λ _, spots st ++ spots_of bi (cells h w))
                (assert_odd h w st)).
  destruct (createGraph_fold g h w (grid_values g) sti)
    as (Hsp1 & Hbd1 & Hbo1 & Hco1 & Han1).
  fold (createGraph g h w sti) in Hsp1, Hbd1, Hbo1, Hco1, Han1.
  set (st1 := createGraph g h w sti) in *.
  destruct (setInitialBlocks draws numBlocks 0 g h w
              (setInitialCat g h w ux uy) st1) as [st2|] eqn:Hblocks;
    [|done].
  intros [= <-]; simpl.
  destruct (setInitialBlocks_spec _ _ _ _ _ _ _ _ _ Hblocks)
    as (Hl & Hout & Hcat & Hdist).
  pose proof Hl as (Hbd2 & Hbo2 & Hco2 & Han2 & _).
  assert (Hvals : grid_values g = seq base (length (cells h w))).
  { apply grid_of_values. }
  assert (Hnew : ∀ i c, cells h w !! i = Some c →
            spots st1 !! (base + i) =
            Some (graph_spot g (new_Spot bi c.1 c.2))).
  { intros i c Hc. rewrite Hsp1, decide_True.
    - unfold sti, with_spots; simpl.
      rewrite lookup_app_r by (unfold base; lia).
      replace (base + i - length (spots st)) with i by (unfold base; lia).
      unfold spots_of. by rewrite list_lookup_fmap, Hc.
    - rewrite Hvals. apply elem_of_seq. apply lookup_lt_Some in Hc. lia. }
  assert (Hborder : ∀ r, border h w (push_board
            {| height := h; width := w; grid := g;
               cat := setInitialCat g h w ux uy |} st2) r =
          border h w sti r).
  { intros r. transitivity (border h w st2 r); [done|].
    rewrite (same_layout_border h w st1 st2) by done.
    unfold border. rewrite Hsp1. case_decide; [|done].
    by destruct (spots sti !! r). }
  split_and!.
  - rewrite Hbo2, Hbo1. unfold sti; simpl. by rewrite Hbo0.
  - rewrite Hbd2, Hbd1. unfold sti at 1; simpl. rewrite Hbd0. f_equal.
    apply list_filter_iff. intros r. by rewrite Hborder.
  - rewrite Han2, Han1. unfold sti; simpl. by rewrite Han0.
  - by rewrite Hco2, Hco1.
  - intros r Hr. rewrite Hout.
    + rewrite Hsp1, decide_False.
      * unfold sti, with_spots; simpl. by apply lookup_app_l.
      * rewrite Hvals, elem_of_seq. lia.
    + rewrite Hvals, elem_of_seq. lia.
  - intros i c Hc.
    destruct (same_layout_lookup_fwd st1 st2 _ _ Hl (Hnew i c Hc))
      as (s & Hs & Hadj & Hx & Hy & Hb).
    exists s. split_and!; try done.
    specialize (Hdist (base + i)). unfold spot_distance in Hdist.
    by rewrite Hs, (Hnew i c Hc) in Hdist.
  - rewrite (same_layout_length st1 st2) by done.
    assert (length (spots st1) = length (spots sti)) as ->.
    { apply Nat.le_antisymm.
      - apply Nat.nlt_ge. intros Hlt.
        destruct (lookup_lt_is_Some_2 (spots st1) (length (spots sti)))
          as [s Hs]; [done|].
        rewrite Hsp1 in Hs.
        rewrite (lookup_ge_None_2 (spots sti)) in Hs by done.
        by case_decide.
      - apply Nat.nlt_ge. intros Hlt.
        destruct (lookup_lt_is_Some_2 (spots sti) (length (spots st1)))
          as [s Hs]; [done|].
        pose proof (Hsp1 (length (spots st1))) as Hs1.
        rewrite (lookup_ge_None_2 (spots st1)) in Hs1 by done.
        rewrite Hs in Hs1. by case_decide. }
    unfold sti, with_spots; simpl.
    by rewrite length_app, length_spots_of.
  - intros c Hc. change (spot_blocked st2 c = false). rewrite Hcat by done.
    pose proof (grid_get_value _ _ _ Hc) as Hin.
    fold g in Hin. rewrite Hvals in Hin. apply elem_of_seq in Hin.
    destruct (lookup_lt_is_Some_2 (cells h w) (c - base)) as [cc Hcc]; [lia|].
    pose proof (Hnew _ _ Hcc) as Hs.
    replace (base + (c - base)) with c in Hs by lia.
    unfold spot_blocked. by rewrite Hs.
Qed.

(** * The hexagonal neighborhood is symmetric *)

Lemma rem2_even z : (Z.rem z 2 =? 0)%Z = Z.even z.
Proof. symmetry. apply Zquot.Zeven_rem. Qed.

Ltac find_elem :=
  repeat (apply elem_of_cons; first [left; f_equal; lia | right]).

Lemma cand_coords_sym (a b : Z * Z) :
  b ∈ cand_coords a.1 a.2 → a ∈ cand_coords b.1 b.2.
Proof.
  destruct a as [ax ay], b as [bx by_]; simpl.
  unfold cand_coords. rewrite !rem2_even.
  destruct (Z.even ay) eqn:Hay; intros Hb;
    repeat (apply elem_of_cons in Hb as [[= -> ->]|Hb]);
    try (by apply elem_of_nil in Hb);
    rewrite ?Z.even_sub, ?Z.even_add, ?Hay; simpl; find_elem.
Qed.

Lemma elem_of_cands_grid base cs cx cy j cb :
  NoDup cs → cs !! j = Some cb →
  (base + j) ∈ omap id (cands (grid_of base cs) cx cy) ↔
  cb ∈ cand_coords cx cy.
Proof.
  intros Hnd Hj. unfold cands. rewrite list_elem_of_omap. split.
  - intros (o & Ho & Hid). simpl in Hid. subst o.
    apply list_elem_of_fmap in Ho as (cc & Hget & Hcc).
    symmetry in Hget. apply (grid_of_get base cs cc) in Hget
      as (j' & Hj' & Heq); [|done].
    assert (j' = j) as -> by lia. congruence.
  - intros Hcb. exists (Some (base + j)). split; [|done].
    apply list_elem_of_fmap. exists cb. split; [|done].
    symmetry. apply (grid_of_get base cs cb); [done|]. by exists j.
Qed.

(** C6.  After the construction of a board, for all spots [a] and [c] of
    its grid: [c] is in [a.adjacent] if and only if [a] is in
    [c.adjacent]. *)
Theorem createGraph_adjacency_symmetric
    h w numBlocks ux uy draws st st' b a c :
  new_Board h w numBlocks ux uy draws st = Some st' →
  boards st' !! length (boards st) = Some b →
  a ∈ grid_values (grid b) → c ∈ grid_values (grid b) →
  c ∈ spot_adjacent st' a ↔ a ∈ spot_adjacent st' c.
Proof.
  intros Hnew Hb.
  destruct (new_Board_spec _ _ _ _ _ _ _ _ Hnew)
    as (Hbo & _ & _ & _ & _ & Hcells & _ & _).
  rewrite Hbo, lookup_app_r, Nat.sub_diag in Hb by done.
  injection Hb as <-. cbn [grid]. rewrite grid_of_values.
  intros Ha Hc. apply elem_of_seq in Ha, Hc.
  set (base := length (spots st)) in *.
  assert (∃ i, a = base + i ∧ i < length (cells h w)) as (i & -> & Hi).
  { exists (a - base). lia. }
  assert (∃ j, c = base + j ∧ j < length (cells h w)) as (j & -> & Hj).
  { exists (c - base). lia. }
  destruct (lookup_lt_is_Some_2 (cells h w) i Hi) as [ca Hca].
  destruct (lookup_lt_is_Some_2 (cells h w) j Hj) as [cc Hcc].
  destruct (Hcells _ _ Hca) as (sa & Hsa & _ & _ & _ & Hadja & _).
  destruct (Hcells _ _ Hcc) as (sc & Hsc & _ & _ & _ & Hadjc & _).
  unfold spot_adjacent. rewrite Hsa, Hsc, Hadja, Hadjc.
  rewrite (elem_of_cands_grid base (cells h w) _ _ j cc)
    by (done || apply NoDup_cells).
  rewrite (elem_of_cands_grid base (cells h w) _ _ i ca)
    by (done || apply NoDup_cells).
  split; intros H; by apply cand_coords_sym in H.
Qed.

(** * What a pass of the distance engine leaves alone *)

Lemma visit_rest p st n :
  rest (bfs_world (visit p st n)) = rest (bfs_world st).
Proof.
  unfold visit. destruct (spots (bfs_world st) !! n) as [s|]; [|done].
  by destruct (bool_decide (n ∈ seen st) || blocked s).
Qed.

Lemma visit_fold_rest p l st :
  rest (bfs_world (foldl (visit p) st l)) = rest (bfs_world st).
Proof.
  revert st. induction l as [|n l IH]; intros st; simpl; [done|].
  by rewrite IH, visit_rest.
Qed.

Lemma bfs_loop_rest fuel st :
  rest (bfs_world (bfs_loop fuel st)) = rest (bfs_world st).
Proof.
  revert st. induction fuel as [|fuel IH]; intros st; simpl; [done|].
  destruct (toVisit st) as [|p q]; [done|].
  by rewrite IH, visit_fold_rest.
Qed.

Lemma reset_distances_rest g w : rest (reset_distances g w) = rest w.
Proof.
  unfold reset_distances. revert w.
  induction (grid_values g) as [|r l IH]; intros w; simpl; [done|].
  by rewrite IH.
Qed.

Lemma updateDistances_rest g w : rest (updateDistances g w) = rest w.
Proof.
  unfold updateDistances, updateDistances_run.
  by rewrite bfs_loop_rest, <-(reset_distances_rest g w).
Qed.

Lemma rest_fields w w' :
  rest w' = rest w →
  boards w' = boards w ∧ boundary_adjacent w' = boundary_adjacent w ∧
  console w' = console w ∧ announced w' = announced w.
Proof. unfold rest. by intros [= -> -> -> ->]. Qed.

Lemma same_graph_layout w w' :
  same_graph w w' → rest w' = rest w → same_layout w w'.
Proof.
  intros [_ Hs] (Hbo & Hbd & Hco & Han)%rest_fields.
  split_and!; try done. intros r. specialize (Hs r).
  destruct (spots w' !! r) as [s'|], (spots w !! r) as [s|];
    simpl in *; try done.
  injection Hs as Hs. f_equal. unfold strip, erase in *.
  destruct s, s'; simpl in *. by simplify_eq.
Qed.

Lemma updateDistances_layout g w : same_layout w (updateDistances g w).
Proof.
  apply same_graph_layout;
    [apply updateDistances_same_graph | apply updateDistances_rest].
Qed.

Lemma same_graph_open_fwd w w' r : same_graph w w' → open w r → open w' r.
Proof. intros Hg. apply same_graph_open. by apply same_graph_sym. Qed.

(** * Well-formed stores are preserved *)

Lemma wf_board_layout w w' bi b :
  same_layout w w' → wf_board w bi b → wf_board w' bi b.
Proof.
  intros Hl [Hgrid Hcat]. split; [|done].
  intros r Hr. destruct (Hgrid r Hr) as (s & Hs & Hb & Hadj).
  destruct (same_layout_lookup_fwd _ _ _ _ Hl Hs) as (s' & Hs' & Ha' & _ & _ & Hb').
  exists s'. split_and!; [done | congruence |]. by rewrite Ha'.
Qed.

Lemma wf_store_layout w w' :
  same_layout w w' → wf_store w → wf_store w'.
Proof.
  intros Hl Hwf bi b Hb. pose proof Hl as (_ & Hbo & _).
  rewrite Hbo in Hb. by eapply wf_board_layout, Hwf.
Qed.

Lemma paths_of_subset w l r : r ∈ paths_of w l → r ∈ l.
Proof. unfold paths_of. by intros [_ ?]%list_elem_of_filter. Qed.

Lemma paths_of_min w l r :
  r ∈ paths_of w l → spot_distance w r = Math_min (spot_distance w <$> l).
Proof. unfold paths_of. by intros [? _]%list_elem_of_filter. Qed.

Lemma gameEnd_spots o w : spots (gameEnd o w) = spots w.
Proof. done. Qed.

Lemma open_spots w w' r : spots w' = spots w → open w r → open w' r.
Proof. intros Hs. unfold open. by rewrite Hs. Qed.

Lemma wf_board_spots w w' bi b :
  spots w' = spots w → wf_board w bi b → wf_board w' bi b.
Proof. intros Hs. unfold wf_board. by rewrite Hs. Qed.

(** The move the policy returns is a neighbor of the cat; on a
    well-formed board it is a spot of the same grid. *)
Lemma nextStepForCat_move b u w w1 move :
  nextStepForCat b u w = (w1, Return (Some move)) →
  w1 = updateDistances (grid b) w ∧
  ∃ c, cat b = Some c ∧ move ∈ paths_of w1 (spot_adjacent w1 c).
Proof.
  unfold nextStepForCat. destruct (cat b) as [c|]; [|done].
  intros [= <- Hm]. split; [done|]. exists c. split; [done|].
  by eapply list_elem_of_lookup_2.
Qed.

Lemma nextStepForCat_world b u w :
  (nextStepForCat b u w).1 = updateDistances (grid b) w.
Proof. unfold nextStepForCat. by destruct (cat b). Qed.

Lemma moveCat_preserves bi u w :
  wf_store w → cat_free w →
  wf_store (moveCat bi u w).1 ∧ cat_free (moveCat bi u w).1.
Proof.
  intros Hwf Hfree. unfold moveCat.
  destruct (boards w !! bi) as [b|] eqn:Hb; [|done].
  pose proof (updateDistances_layout (grid b) w) as Hl.
  pose proof (updateDistances_same_graph (grid b) w) as Hg.
  assert (Hwf1 : wf_store (updateDistances (grid b) w)).
  { by eapply wf_store_layout. }
  assert (Hfree1 : cat_free (updateDistances (grid b) w)).
  { intros bj bb c Hbb Hc. pose proof Hl as (_ & Hbo & _).
    rewrite Hbo in Hbb. eapply same_graph_open_fwd; [exact Hg|].
    by eapply Hfree. }
  pose proof (nextStepForCat_world b u w) as Hw1.
  destruct (nextStepForCat b u w) as [w1 [[move|]|]] eqn:Hnext;
    simpl in Hw1; subst w1; [|done..].
  destruct (nextStepForCat_move _ _ _ _ _ Hnext) as (_ & c & Hc & Hmove).
  set (w1 := updateDistances (grid b) w) in *.
  case_decide as Hinf; simpl.
  { split.
    - intros bj bb Hbb. eapply wf_board_spots; [|by apply Hwf1]. done.
    - intros bj bb cc Hbb Hcc. eapply open_spots; [|by eapply Hfree1]. done. }
  assert (Hmg : move ∈ grid_values (grid b)).
  { destruct (Hwf bi b Hb) as [Hgrid Hcat].
    destruct (Hgrid c (Hcat c Hc)) as (s & Hs & _ & Hadj).
    apply Hadj. apply paths_of_subset in Hmove.
    rewrite (same_graph_adjacent w w1) in Hmove by done.
    unfold spot_adjacent in Hmove. by rewrite Hs in Hmove. }
  assert (Hopen : open w1 move).
  { eapply same_graph_open_fwd; [exact Hg|].
    by eapply updateDistances_finite_open. }
  set (w2 := with_boards (alter (set_cat (Some move)) bi) w1).
  assert (Hb1 : boards w1 !! bi = Some b).
  { pose proof Hl as (_ & -> & _). done. }
  assert (Hwf2 : wf_store w2).
  { intros bj bb Hbb. unfold w2, with_boards in Hbb; simpl in Hbb.
    destruct (decide (bi = bj)) as [<-|Hne].
    - rewrite list_lookup_alter_eq, Hb1 in Hbb. injection Hbb as <-.
      destruct (Hwf1 bi b Hb1) as [Hgrid Hcat].
      split; [exact Hgrid|]. simpl. by intros ? [= <-].
    - rewrite list_lookup_alter_ne in Hbb by done.
      eapply wf_board_spots; [|by apply Hwf1]. done. }
  assert (Hfree2 : cat_free w2).
  { intros bj bb cc Hbb Hcc. unfold w2, with_boards in Hbb; simpl in Hbb.
    eapply (open_spots w1); [done|].
    destruct (decide (bi = bj)) as [<-|Hne].
    - rewrite list_lookup_alter_eq, Hb1 in Hbb. injection Hbb as <-.
      simpl in Hcc. by injection Hcc as <-.
    - rewrite list_lookup_alter_ne in Hbb by done. by eapply Hfree1. }
  case_decide; simpl; [|done].
  split.
  - intros bj bb Hbb. eapply wf_board_spots; [|by apply Hwf2]. done.
  - intros bj bb cc Hbb Hcc. eapply open_spots; [|by eapply Hfree2]. done.
Qed.

Lemma handleClick_preserves s u w :
  wf_store w → cat_free w →
  wf_store (handleClick s u w).1 ∧ cat_free (handleClick s u w).1.
Proof.
  intros Hwf Hfree. unfold handleClick.
  destruct (spots w !! s) as [sp|] eqn:Hs; [|done].
  destruct (boards w !! board sp) as [b|] eqn:Hb; [|done].
  destruct (bool_decide (cat b = Some s)) eqn:Hcat; [done|].
  destruct (blocked sp) eqn:Hblk; [done|]. simpl.
  apply bool_decide_eq_false in Hcat.
  apply moveCat_preserves.
  - eapply wf_store_layout; [apply same_layout_set_blocked | done].
  - intros bj bb c Hbb Hc. change (boards w !! bj = Some bb) in Hbb.
    destruct (Hfree bj bb c Hbb Hc) as (sc & Hsc & Hopen).
    assert (s ≠ c) as Hne.
    { intros ->. destruct (Hwf bj bb Hbb) as [Hgrid Hcg].
      destruct (Hgrid c (Hcg c Hc)) as (sc' & Hsc' & Hbd & _).
      assert (bj = board sp) as -> by congruence.
      congruence. }
    exists sc. split; [|done].
    by rewrite spots_update_spot, decide_False.
Qed.

Lemma new_Board_preserves h w numBlocks ux uy draws st st' :
  new_Board h w numBlocks ux uy draws st = Some st' →
  wf_store st → cat_free st →
  wf_store st' ∧ cat_free st'.
Proof.
  intros Hnew Hwf Hfree.
  destruct (new_Board_spec _ _ _ _ _ _ _ _ Hnew)
    as (Hbo & _ & _ & _ & Hold & Hcells & Hlen & Hcat).
  set (base := length (spots st)) in *.
  set (g := grid_of base (cells h w)) in *.
  assert (Hnewgrid : ∀ r, r ∈ grid_values g →
            ∃ s, spots st' !! r = Some s ∧ board s = length (boards st) ∧
                 ∀ r', r' ∈ adjacent s → r' ∈ grid_values g).
  { intros r Hr. unfold g in Hr. rewrite grid_of_values in Hr.
    apply elem_of_seq in Hr.
    assert (∃ i, r = base + i ∧ i < length (cells h w)) as (i & -> & Hi).
    { exists (r - base). lia. }
    destruct (lookup_lt_is_Some_2 (cells h w) i Hi) as [c Hc].
    destruct (Hcells _ _ Hc) as (s & Hs & _ & _ & Hb & Hadj & _).
    exists s. split_and!; [done..|].
    intros r'. rewrite Hadj. intros (o & Ho & Hid)%list_elem_of_omap.
    simpl in Hid. subst o. unfold cands in Ho.
    apply list_elem_of_fmap in Ho as (cc & Hget & _).
    by eapply grid_get_value. }
  split.
  - intros bj bb Hbb. rewrite Hbo in Hbb.
    apply lookup_app_Some in Hbb as [Hbb|[Hge Hbb]].
    + destruct (Hwf bj bb Hbb) as [Hgrid Hcg]. split; [|done].
      intros r Hr. destruct (Hgrid r Hr) as (s & Hs & Hrest).
      exists s. split; [|done]. rewrite Hold; [done|].
      by eapply lookup_lt_Some.
    + apply list_lookup_singleton_Some in Hbb as [Hbj <-].
      assert (bj = length (boards st)) as -> by lia.
      split; [exact Hnewgrid|]. simpl. intros c Hc.
      by eapply grid_get_value.
  - intros bj bb c Hbb Hc. rewrite Hbo in Hbb.
    apply lookup_app_Some in Hbb as [Hbb|[Hge Hbb]].
    + destruct (Hfree bj bb c Hbb Hc) as (s & Hs & Hopen).
      exists s. split; [|done]. rewrite Hold; [done|].
      by eapply lookup_lt_Some.
    + apply list_lookup_singleton_Some in Hbb as [Hbj <-]. simpl in Hc.
      destruct (Hnewgrid c (grid_get_value _ _ _ Hc)) as (s & Hs & _).
      exists s. split; [done|].
      specialize (Hcat c Hc). unfold spot_blocked in Hcat.
      by rewrite Hs in Hcat.
Qed.

Lemma reachable_well_formed w : reachable w → wf_store w ∧ cat_free w.
Proof.
  induction 1 as [|w h wd nb ux uy draws w' _ [IHwf IHfree] Hnew
                  |w s u _ [IHwf IHfree]].
  - split.
    + intros bi b Hb. simpl in Hb. by rewrite lookup_nil in Hb.
    + intros bi b c Hb. simpl in Hb. by rewrite lookup_nil in Hb.
  - by eapply new_Board_preserves.
  - by apply handleClick_preserves.
Qed.

(** C7.  In every store reached from the empty page by building boards and
    clicking spots, the spot a board's [cat] refers to is allocated and
    unblocked. *)
Theorem cat_never_on_blocked_spot w bi b c :
  reachable w → boards w !! bi = Some b → cat b = Some c →
  ∃ s, spots w !! c = Some s ∧ blocked s = false.
Proof.
  intros Hreach Hb Hc.
  destruct (reachable_well_formed w Hreach) as [_ Hfree].
  by eapply Hfree.
Qed.

(** * The cat's turn *)

Lemma moveCat_same_graph bi u w : same_graph w (moveCat bi u w).1.
Proof.
  unfold moveCat. destruct (boards w !! bi) as [b|]; [|done].
  pose proof (nextStepForCat_world b u w) as Hw1.
  pose proof (updateDistances_same_graph (grid b) w) as Hg.
  destruct (nextStepForCat b u w) as [w1 [[move|]|]];
    simpl in Hw1; subst w1; [|done..].
  repeat case_decide; done.
Qed.

(** C3.  When the move policy has selected [move], [moveCat] returns
    normally and writes no spot and no other board.  If the distance of
    [move] is [Infinity], a win is announced and the board, with its cat,
    is as before.  Otherwise the cat of the board is [move]; a loss is
    announced exactly when the distance of [move] is 1, and in the
    remaining case nothing is announced. *)
Theorem moveCat_outcomes bi b u w w1 move :
  boards w !! bi = Some b →
  nextStepForCat b u w = (w1, Return (Some move)) →
  let w' := (moveCat bi u w).1 in
  let moved := {| height := height b; width := width b; grid := grid b;
                  cat := Some move |} in
  (moveCat bi u w).2 = Return () ∧
  spots w' = spots w1 ∧
  (∀ bj, bj ≠ bi → boards w' !! bj = boards w !! bj) ∧
  (spot_distance w1 move = Infinity →
   announced w' = announced w ++ [win] ∧ boards w' !! bi = Some b) ∧
  (spot_distance w1 move = Fin 1 →
   announced w' = announced w ++ [lose] ∧ boards w' !! bi = Some moved) ∧
  (spot_distance w1 move ≠ Infinity → spot_distance w1 move ≠ Fin 1 →
   announced w' = announced w ∧ boards w' !! bi = Some moved).
Proof.
  intros Hb Hnext w' moved.
  pose proof (nextStepForCat_world b u w) as Hw1.
  rewrite Hnext in Hw1; simpl in Hw1.
  destruct (rest_fields _ _ (updateDistances_rest (grid b) w))
    as (Hbo & _ & _ & Han).
  rewrite <-Hw1 in Hbo, Han.
  set (w2 := with_boards (alter (set_cat (Some move)) bi) w1).
  assert (Hmoved : boards w2 !! bi = Some moved).
  { unfold w2, with_boards; simpl.
    by rewrite list_lookup_alter_eq, Hbo, Hb. }
  assert (Hother : ∀ bj, bj ≠ bi → boards w2 !! bj = boards w !! bj).
  { intros bj Hne. unfold w2, with_boards; simpl.
    by rewrite list_lookup_alter_ne, Hbo by done. }
  assert (Hrun : moveCat bi u w =
            if decide (spot_distance w1 move = Infinity)
            then (gameEnd win w1, Return ())
            else if decide (spot_distance w1 move = Fin 1)
                 then (gameEnd lose w2, Return ())
                 else (w2, Return ())).
  { unfold moveCat. by rewrite Hb, Hnext. }
  unfold w'. rewrite Hrun.
  destruct (decide (spot_distance w1 move = Infinity)) as [Hinf|Hfin];
    [|destruct (decide (spot_distance w1 move = Fin 1)) as [Hone|Hmore]];
    cbn [fst snd gameEnd spots boards announced];
    change (announced w2) with (announced w1);
    change (spots w2) with (spots w1).
  - split_and!; try done.
    + intros bj _. by rewrite Hbo.
    + intros _. by rewrite Han, Hbo.
    + intros Hd. congruence.
  - split_and!; try done.
    intros _. by rewrite Han.
  - split_and!; try done.
Qed.

(** * The click handler *)

(** C9.  A click on the cat's own spot or on a blocked spot returns
    normally and leaves the whole store as it is; a click on any other
    spot sets the [blocked] flag of that spot, and of no other, and runs
    [moveCat] once on the store so obtained. *)
Theorem handleClick_cases s u w sp b :
  spots w !! s = Some sp → boards w !! board sp = Some b →
  (cat b = Some s ∨ blocked sp = true →
   handleClick s u w = (w, Return ())) ∧
  (cat b ≠ Some s → blocked sp = false →
   handleClick s u w =
     moveCat (board sp) u (update_spot s (set_blocked true) w) ∧
   ∀ r, spot_blocked (handleClick s u w).1 r =
        if decide (r = s) then true else spot_blocked w r).
Proof.
  intros Hs Hb. unfold handleClick. rewrite Hs, Hb. split.
  - intros [Hc| ->].
    + by rewrite bool_decide_eq_true_2.
    + by rewrite orb_true_r.
  - intros Hc Hblk. rewrite bool_decide_eq_false_2, Hblk by done. simpl.
    split; [done|]. intros r.
    rewrite (same_graph_blocked (update_spot s (set_blocked true) w))
      by apply moveCat_same_graph.
    unfold spot_blocked. rewrite spots_update_spot.
    destruct (decide (r = s)) as [->|Hne].
    + by rewrite decide_True, Hs.
    + by rewrite decide_False.
Qed.

(** * The move policy *)

Lemma rand_index_lt u n : 0 < n → rand_index u n < n.
Proof.
  intros Hn. unfold rand_index.
  pose proof (rand_range u) as Hr.
  apply andb_prop in Hr as [H0%Z.leb_le Hlt%Z.ltb_lt].
  assert (0 ≤ num u * Z.of_nat n / den u < Z.of_nat n)%Z as [Hlo Hhi].
  { split.
    - apply Z.div_pos; lia.
    - apply Z.div_lt_upper_bound; nia. }
  lia.
Qed.

Lemma dist_min_cases a b : dist_min a b = a ∨ dist_min a b = b.
Proof.
  destruct a as [n|], b as [m|]; simpl; auto.
  destruct (Nat.min_dec n m) as [-> | ->]; auto.
Qed.

Lemma Math_min_attained ds : ds ≠ [] → Math_min ds ∈ ds.
Proof.
  induction ds as [|d ds IH]; [done|]. intros _. simpl.
  destruct ds as [|d' ds].
  - simpl. destruct d; by left.
  - destruct (dist_min_cases d (Math_min (d' :: ds))) as [-> | ->].
    + by left.
    + right. by apply IH.
Qed.

Lemma dist_min_Infinity a b : dist_min a b = Infinity → a = Infinity ∧ b = Infinity.
Proof. by destruct a, b. Qed.

Lemma Math_min_Infinity ds d :
  Math_min ds = Infinity → d ∈ ds → d = Infinity.
Proof.
  induction ds as [|d' ds IH]; simpl; intros Hmin Hd.
  { by apply elem_of_nil in Hd. }
  apply dist_min_Infinity in Hmin as [-> Hmin].
  apply elem_of_cons in Hd as [->|Hd]; [done | by apply IH].
Qed.

Lemma paths_of_nonempty w l : l ≠ [] → paths_of w l ≠ [].
Proof.
  intros Hl Hp.
  assert (spot_distance w <$> l ≠ []) as Hne by by destruct l.
  apply Math_min_attained, list_elem_of_fmap in Hne as (r & Hr & Hin).
  apply (filter_nil_not_elem_of _ _ r Hp); [simpl; by rewrite <-Hr | done].
Qed.

(** The policy selects a neighbor of the cat at the least distance. *)
Lemma nextStepForCat_selects bi b u w c :
  wf_board w bi b → cat b = Some c → spot_adjacent w c ≠ [] →
  let w1 := updateDistances (grid b) w in
  ∃ move,
    nextStepForCat b u w = (w1, Return (Some move)) ∧
    move ∈ spot_adjacent w c ∧
    spot_distance w1 move = Math_min (spot_distance w1 <$> spot_adjacent w c) ∧
    (spot_distance w1 move ≠ Infinity → spot_blocked w move = false) ∧
    (spot_blocked w move = true →
     ∀ r, r ∈ spot_adjacent w c → spot_distance w1 r = Infinity).
Proof.
  intros [Hgrid Hcat] Hc Hadj w1.
  pose proof (updateDistances_same_graph (grid b) w) as Hg. fold w1 in Hg.
  unfold nextStepForCat. rewrite Hc. fold w1.
  rewrite (same_graph_adjacent w w1) by done.
  set (paths := paths_of w1 (spot_adjacent w c)).
  assert (0 < length paths) as Hlen.
  { pose proof (paths_of_nonempty w1 _ Hadj) as Hne. fold paths in Hne.
    destruct paths; [done | simpl; lia]. }
  destruct (lookup_lt_is_Some_2 paths (rand_index u (length paths)))
    as [move Hmove]; [by apply rand_index_lt|].
  exists move. rewrite Hmove.
  apply list_elem_of_lookup_2 in Hmove.
  pose proof (paths_of_subset _ _ _ Hmove) as Hin.
  pose proof (paths_of_min _ _ _ Hmove) as Hmin.
  assert (Hfin : spot_distance w1 move ≠ Infinity → spot_blocked w move = false).
  { intros Hd. destruct (Hgrid c (Hcat c Hc)) as (sc & Hsc & _ & Hclosed).
    assert (move ∈ grid_values (grid b)) as Hmg.
    { apply Hclosed. unfold spot_adjacent in Hin. by rewrite Hsc in Hin. }
    destruct (updateDistances_finite_open _ _ _ Hmg Hd) as (sm & Hsm & Hblk).
    unfold spot_blocked. by rewrite Hsm. }
  split_and!; [done..|].
  intros Hblk r Hr. eapply Math_min_Infinity.
  - rewrite <-Hmin. destruct (spot_distance w1 move) eqn:Hd; [|done].
    rewrite Hfin in Hblk; done.
  - by apply list_elem_of_fmap_2.
Qed.

(** C2, as the code has it.  On a well-formed board whose cat has a
    neighbor, [nextStepForCat] returns a spot of [cat.adjacent] with the
    least distance among the neighbors; the spot is unblocked whenever its
    distance is finite, and it can be blocked only when every neighbor of
    the cat has distance [Infinity]; [moveCat] then announces a win and
    leaves every board, with its cat, as it is. *)
Theorem nextStepForCat_neighbor bi b u w c :
  boards w !! bi = Some b →
  wf_board w bi b → cat b = Some c → spot_adjacent w c ≠ [] →
  let w1 := updateDistances (grid b) w in
  ∃ move,
    nextStepForCat b u w = (w1, Return (Some move)) ∧
    move ∈ spot_adjacent w c ∧
    spot_distance w1 move = Math_min (spot_distance w1 <$> spot_adjacent w c) ∧
    (spot_distance w1 move ≠ Infinity → spot_blocked w move = false) ∧
    (spot_blocked w move = true →
     (∀ r, r ∈ spot_adjacent w c → spot_distance w1 r = Infinity) ∧
     (moveCat bi u w).2 = Return () ∧
     announced (moveCat bi u w).1 = announced w ++ [win] ∧
     boards (moveCat bi u w).1 = boards w).
Proof.
  intros Hb Hwf Hc Hadj w1.
  destruct (nextStepForCat_selects bi b u w c Hwf Hc Hadj)
    as (move & Hnext & Hin & Hmin & Hopen & Hall).
  fold w1 in Hnext, Hmin, Hopen, Hall.
  exists move. split_and!; [done..|].
  intros Hblocked. specialize (Hall Hblocked).
  split; [done|].
  destruct (rest_fields _ _ (updateDistances_rest (grid b) w))
    as (Hbo & _ & _ & Han).
  fold w1 in Hbo, Han.
  unfold moveCat. rewrite Hb, Hnext.
  rewrite decide_True by by apply Hall.
  cbn [fst snd gameEnd announced boards]. by rewrite Han, Hbo.
Qed.

(** * The click handler does not look at the outcome *)









(** * The escape node across boards *)

Lemma new_Board_last h w numBlocks ux uy draws st st' b :
  new_Board h w numBlocks ux uy draws st = Some st' →
  boards st' !! length (boards st) = Some b →
  b = {| height := h; width := w;
         grid := grid_of (length (spots st)) (cells h w);
         cat := setInitialCat (grid_of (length (spots st)) (cells h w))
                  h w ux uy |}.
Proof.
  intros Hnew Hb.
  destruct (new_Board_spec _ _ _ _ _ _ _ _ Hnew) as (Hbo & _).
  rewrite Hbo, lookup_app_r, Nat.sub_diag in Hb by done.
  by injection Hb as <-.
Qed.

(** On a page where the escape node has no neighbors yet, that is for the
    first board, its list holds the spots of the outer ring, each once, and
    nothing else. *)
Lemma first_Board_boundary h w numBlocks ux uy draws st st' b :
  boundary_adjacent st = [] →
  new_Board h w numBlocks ux uy draws st = Some st' →
  boards st' !! length (boards st) = Some b →
  NoDup (boundary_adjacent st') ∧
  ∀ r, r ∈ boundary_adjacent st' ↔
       r ∈ grid_values (grid b) ∧ border h w st' r = true.
Proof.
  intros Hempty Hnew Hb.
  rewrite (new_Board_last _ _ _ _ _ _ _ _ _ Hnew Hb). cbn [grid].
  destruct (new_Board_spec _ _ _ _ _ _ _ _ Hnew) as (_ & -> & _).
  rewrite Hempty, app_nil_l. split.
  - apply NoDup_filter. rewrite grid_of_values. apply NoDup_seq.
  - intros r. rewrite list_elem_of_filter. tauto.
Qed.

(** ** Boards are never unregistered *)

Lemma moveCat_boards bi u w bj b' :
  boards (moveCat bi u w).1 !! bj = Some b' →
  ∃ b, boards w !! bj = Some b ∧ grid b' = grid b ∧
       height b' = height b ∧ width b' = width b ∧
       (is_Some (cat b) → is_Some (cat b')).
Proof.
  unfold moveCat. destruct (boards w !! bi) as [b|] eqn:Hb; [|by eauto 10].
  pose proof (nextStepForCat_world b u w) as Hw1.
  destruct (rest_fields _ _ (updateDistances_rest (grid b) w)) as (Hbo & _).
  rewrite <-Hw1 in Hbo.
  destruct (nextStepForCat b u w) as [w1 [[move|]|]]; cbn [fst] in *;
    try (rewrite Hbo; by eauto 10).
  assert (∀ w2, boards w2 = alter (set_cat (Some move)) bi (boards w1) →
            boards w2 !! bj = Some b' →
            ∃ b0, boards w !! bj = Some b0 ∧ grid b' = grid b0 ∧
                  height b' = height b0 ∧ width b' = width b0 ∧
                  (is_Some (cat b0) → is_Some (cat b'))) as Hmoved.
  { intros w2 -> Hb'. rewrite Hbo in Hb'.
    destruct (decide (bi = bj)) as [<-|Hne].
    - rewrite list_lookup_alter_eq, Hb in Hb'. injection Hb' as <-.
      by exists b.
    - rewrite list_lookup_alter_ne in Hb' by done. by eauto 10. }
  repeat case_decide; cbn [fst]; intros Hb'.
  - change (boards w1 !! bj = Some b') in Hb'. rewrite Hbo in Hb'.
    by eauto 10.
  - by apply (Hmoved (gameEnd lose
                (with_boards (alter (set_cat (Some move)) bi) w1)) eq_refl).
  - by apply (Hmoved (with_boards (alter (set_cat (Some move)) bi) w1)
                eq_refl).
Qed.

Lemma handleClick_structure s u w :
  boundary_adjacent (handleClick s u w).1 = boundary_adjacent w ∧
  (∀ r, strip <$> spots (handleClick s u w).1 !! r = strip <$> spots w !! r) ∧
  (∀ bj b', boards (handleClick s u w).1 !! bj = Some b' →
     ∃ b, boards w !! bj = Some b ∧ grid b' = grid b ∧
          height b' = height b ∧ width b' = width b ∧
          (is_Some (cat b) → is_Some (cat b'))).
Proof.
  unfold handleClick.
  destruct (spots w !! s) as [sp|]; [|by eauto 10].
  destruct (boards w !! board sp) as [b|]; [|by eauto 10].
  destruct (bool_decide (cat b = Some s) || blocked sp); [by eauto 10|].
  set (wb := update_spot s (set_blocked true) w).
  destruct (moveCat_same_graph (board sp) u wb) as [Hbd Hsp].
  split_and!.
  - by rewrite Hbd.
  - intros r. specialize (Hsp r).
    pose proof (same_layout_set_blocked s true w) as (_ & _ & _ & _ & Hl).
    rewrite <-(Hl r). fold wb.
    destruct (spots (moveCat (board sp) u wb).1 !! r) as [s1|],
             (spots wb !! r) as [s2|]; simpl in *; try done.
    injection Hsp as Hsp. f_equal. unfold strip, erase in *.
    destruct s1, s2; simpl in *. by simplify_eq.
  - intros bj b' Hb'. by apply moveCat_boards in Hb'.
Qed.

Lemma border_strip h w st st' r :
  strip <$> spots st' !! r = strip <$> spots st !! r →
  border h w st' r = border h w st r.
Proof.
  intros Hs. unfold border.
  destruct (spots st' !! r) as [s1|], (spots st !! r) as [s2|];
    simpl in *; try done.
  injection Hs as Hs. unfold strip in Hs.
  destruct s1, s2; simpl in *. by simplify_eq.
Qed.

Lemma new_Board_old_border h w numBlocks ux uy draws st st' bj b r :
  new_Board h w numBlocks ux uy draws st = Some st' →
  wf_store st → boards st !! bj = Some b → r ∈ grid_values (grid b) →
  border (height b) (width b) st' r = border (height b) (width b) st r.
Proof.
  intros Hnew Hwf Hb Hr.
  destruct (new_Board_spec _ _ _ _ _ _ _ _ Hnew) as (_ & _ & _ & _ & Hold & _).
  destruct (Hwf bj b Hb) as [Hgrid _].
  destruct (Hgrid r Hr) as (s & Hs & _).
  unfold border. rewrite Hold; [done|]. by eapply lookup_lt_Some.
Qed.

Lemma reachable_ring_registered w : reachable w → ring_registered w.
Proof.
  induction 1 as [|w h wd nb ux uy draws w' Hreach IH Hnew
                  |w s u Hreach IH].
  - intros bj b r Hb. simpl in Hb. by rewrite lookup_nil in Hb.
  - destruct (reachable_well_formed w Hreach) as [Hwf _].
    destruct (new_Board_spec _ _ _ _ _ _ _ _ Hnew) as (Hbo & Hbd & _).
    intros bj b r Hb Hr Hring. rewrite Hbd. apply elem_of_app.
    rewrite Hbo in Hb. apply lookup_app_Some in Hb as [Hb|[_ Hb]].
    + left. apply (IH bj b r Hb Hr).
      by rewrite <-(new_Board_old_border _ _ _ _ _ _ _ _ _ _ _ Hnew Hwf Hb Hr).
    + right. apply list_lookup_singleton_Some in Hb as [_ <-].
      apply list_elem_of_filter. by split.
  - destruct (handleClick_structure s u w) as (Hbd & Hsp & Hbo).
    intros bj b' r Hb' Hr Hring. rewrite Hbd.
    destruct (Hbo bj b' Hb') as (b & Hb & Hg & Hh & Hw & _).
    apply (IH bj b r Hb).
    + by rewrite <-Hg.
    + by rewrite <-Hh, <-Hw, <-(border_strip _ _ _ _ _ (Hsp r)).
Qed.

(** C10.  Building a board on the page appends the spots of its outer ring
    to the list of the one escape node and clears nothing: the outer-ring
    spots of every board built before are still in the list.  The search of
    a later [updateDistances] starts from the whole list, so that an
    unblocked spot put there by an earlier board is labelled with
    distance 1. *)
Theorem new_Board_accumulates_boundary h w numBlocks ux uy draws st st' b :
  reachable st →
  new_Board h w numBlocks ux uy draws st = Some st' →
  boards st' !! length (boards st) = Some b →
  boundary_adjacent st' =
    boundary_adjacent st ++
    filter (λ r, border h w st' r = true) (grid_values (grid b)) ∧
  (∀ bj b0 r, boards st !! bj = Some b0 → r ∈ grid_values (grid b0) →
     border (height b0) (width b0) st r = true →
     r ∈ boundary_adjacent st') ∧
  node_adjacent (bfs_world (bfs_start (grid b) st')) boundary =
    boundary_adjacent st' ∧
  (∀ r, r ∈ boundary_adjacent st → open st' r →
        spot_distance (updateDistances (grid b) st') r = Fin 1).
Proof.
  intros Hreach Hnew Hb.
  rewrite (new_Board_last _ _ _ _ _ _ _ _ _ Hnew Hb). cbn [grid].
  destruct (new_Board_spec _ _ _ _ _ _ _ _ Hnew) as (_ & Hbd & _).
  split_and!; [done | | apply reset_distances_same_graph |].
  - intros bj b0 r Hb0 Hr Hring. rewrite Hbd. apply elem_of_app. left.
    by eapply (reachable_ring_registered st Hreach).
  - intros r Hr Ho. apply updateDistances_min_hops. split.
    + apply walk_escape; [|done]. rewrite Hbd. apply elem_of_app. by left.
    + intros m Hm. by eapply walk_pos.
Qed.

(** * Construction with an even dimension *)

Lemma assert_odd_even h w st :
  Z.even h = true ∨ Z.even w = true →
  console (assert_odd h w st) = console st ++ ["Height & width must be odd"].
Proof.
  intros Heven. unfold assert_odd. rewrite !rem2_even.
  by destruct Heven as [-> | ->]; [|rewrite andb_false_r].
Qed.

Lemma assert_odd_odd h w st :
  Z.even h = false → Z.even w = false → assert_odd h w st = st.
Proof. intros Hh Hw. unfold assert_odd. by rewrite !rem2_even, Hh, Hw. Qed.

(** The failed assertion is reported on the console and construction goes
    on: the board is built exactly as for odd dimensions. *)
Lemma new_Board_even_proceeds h w numBlocks ux uy draws st st' :
  Z.even h = true ∨ Z.even w = true →
  new_Board h w numBlocks ux uy draws st = Some st' →
  console st' = console st ++ ["Height & width must be odd"] ∧
  ∃ b, boards st' !! length (boards st) = Some b ∧
       grid b = grid_of (length (spots st)) (cells h w).
Proof.
  intros Heven Hnew.
  destruct (new_Board_spec _ _ _ _ _ _ _ _ Hnew) as (Hbo & _ & _ & Hco & _).
  split; [by rewrite Hco, assert_odd_even|].
  eexists. split.
  - rewrite Hbo, lookup_app_r, Nat.sub_diag by done. reflexivity.
  - done.
Qed.

(** * On the page's boards the policy always selects a move *)

(** ** Rounding *)

Lemma nearest_even_spec y :
  (inject_Z (nearest_even y) <= y + (1 # 2))%Q ∧
  (y - (1 # 2) <= inject_Z (nearest_even y))%Q ∧
  (Qfloor y ≤ nearest_even y)%Z.
Proof.
  unfold nearest_even.
  pose proof (Qfloor_le y) as Hlo. pose proof (Qlt_floor y) as Hhi.
  rewrite inject_Z_plus in Hhi. change (inject_Z 1) with 1%Q in Hhi.
  destruct (Qcompare_spec (y - inject_Z (Qfloor y)) (1 # 2)) as [He|Hl|Hg].
  - destruct (Z.even (Qfloor y)); rewrite ?inject_Z_plus;
      change (inject_Z 1) with 1%Q; (split_and!; [lra | lra | lia]).
  - split_and!; [lra | lra | lia].
  - rewrite inject_Z_plus. change (inject_Z 1) with 1%Q.
    split_and!; [lra | lra | lia].
Qed.

Lemma pow2_pos e : (0 < 2 ^ e)%Q.
Proof. by apply Qpower_0_lt. Qed.

Lemma pow2_plus a b : (2 ^ (a + b) == 2 ^ a * 2 ^ b)%Q.
Proof. by apply Qpower_plus. Qed.

Lemma pow2_Z a : (0 ≤ a)%Z → (inject_Z (2 ^ a) == 2 ^ a)%Q.
Proof. intros Ha. by rewrite Zpower_Qpower. Qed.

Lemma binade_spec x :
  ¬ (x == 0)%Q →
  (2 ^ binade x <= Qabs x)%Q ∧ (Qabs x < 2 ^ (binade x + 1))%Q.
Proof.
  intros Hx. unfold binade.
  set (p := Z.abs (Qnum x)). set (q := Z.pos (Qden x)).
  set (l := (Z.log2 p - Z.log2 q)%Z).
  assert (0 < p)%Z as Hp.
  { unfold p. destruct x as [[|n|n] d]; simpl; [|lia..].
    exfalso. apply Hx. reflexivity. }
  assert (0 < q)%Z as Hq by (unfold q; lia).
  destruct (Z.log2_spec p Hp) as [Ha0 Ha1].
  destruct (Z.log2_spec q Hq) as [Hb0 Hb1].
  pose proof (Z.log2_nonneg p) as Hap. pose proof (Z.log2_nonneg q) as Hbp.
  assert (Qabs x * inject_Z q == inject_Z p)%Q as Hx'.
  { destruct x as [n d]. unfold p, q, Qabs; simpl.
    rewrite Qmake_Qdiv. field. unfold Qeq; simpl. lia. }
  rewrite Zle_Qle in Ha0, Hb0. rewrite Zlt_Qlt in Ha1, Hb1, Hq.
  rewrite pow2_Z in Ha0, Hb0, Ha1, Hb1 by lia.
  assert (2 ^ Z.succ (Z.log2 p) == 2 ^ (l + 1) * 2 ^ Z.log2 q)%Q as Hup.
  { rewrite <-pow2_plus. f_equiv. unfold l. lia. }
  assert (2 ^ Z.log2 p == 2 ^ (l - 1) * 2 ^ Z.succ (Z.log2 q))%Q as Hdn.
  { rewrite <-pow2_plus. f_equiv. unfold l. lia. }
  pose proof (pow2_pos (l + 1)) as Hl1. pose proof (pow2_pos (l - 1)) as Hl0.
  pose proof (pow2_pos (Z.log2 q)). pose proof (pow2_pos (Z.succ (Z.log2 q))).
  assert (Qabs x < 2 ^ (l + 1))%Q as Hlt.
  { apply Qnot_le_lt. intros Hle.
    apply (Qmult_le_compat_r _ _ (inject_Z q)) in Hle; [|lra].
    apply (Qmult_le_compat_r _ _ (2 ^ (l + 1))%Q) in Hb0; [|lra].
    lra. }
  assert (2 ^ (l - 1) <= Qabs x)%Q as Hge.
  { apply Qnot_lt_le. intros Hlt'.
    apply (Qmult_lt_compat_r _ _ (inject_Z q)) in Hlt'; [|lra].
    apply (Qmult_lt_compat_r _ _ (2 ^ (l - 1))%Q) in Hb1; [|lra].
    lra. }
  destruct (Qle_bool (2 ^ l) (Qabs x)) eqn:Htest.
  - apply Qle_bool_iff in Htest. done.
  - assert (Qabs x < 2 ^ l)%Q.
    { apply Qnot_le_lt. intros Hle. apply Qle_bool_iff in Hle. congruence. }
    replace (l - 1 + 1)%Z with l by lia. done.
Qed.

(** What [fl] returns on a positive number. *)
Lemma fl_pos_spec x :
  (0 < x)%Q →
  ∃ m e, fl x = (inject_Z m * 2 ^ e)%Q ∧
         (inject_Z (2 ^ 52) * 2 ^ e <= x)%Q ∧
         (inject_Z m * 2 ^ e <= x + 2 ^ e * (1 # 2))%Q ∧
         (x - 2 ^ e * (1 # 2) <= inject_Z m * 2 ^ e)%Q ∧
         (Qfloor (x / 2 ^ e) ≤ m)%Z.
Proof.
  intros Hx. unfold fl.
  assert (¬ (x == 0)%Q) as Hne by lra.
  destruct (Qeq_bool x 0) eqn:Heq; [by apply Qeq_bool_iff in Heq|].
  set (e := (binade x - 52)%Z).
  exists (nearest_even (x / 2 ^ e)), e.
  destruct (binade_spec x Hne) as [Hlo _].
  rewrite Qabs_pos in Hlo by lra.
  pose proof (pow2_pos e) as He.
  assert (2 ^ binade x == inject_Z (2 ^ 52) * 2 ^ e)%Q as Hsplit.
  { rewrite pow2_Z by lia. rewrite <-pow2_plus. f_equiv. unfold e. lia. }
  destruct (nearest_even_spec (x / 2 ^ e)) as (Hup & Hdn & Hfl).
  assert (x / 2 ^ e * 2 ^ e == x)%Q as Hy.
  { field. lra. }
  split_and!; [done | by rewrite <-Hsplit | | | done].
  - apply (Qmult_le_compat_r _ _ (2 ^ e)%Q) in Hup; [|lra]. lra.
  - apply (Qmult_le_compat_r _ _ (2 ^ e)%Q) in Hdn; [|lra]. lra.
Qed.

Lemma fl_zero x : (x == 0)%Q → fl x = 0%Q.
Proof. intros Hx. unfold fl. by rewrite (proj2 (Qeq_bool_iff x 0) Hx). Qed.

(** The relative error of rounding is at most [2 ^ -53]. *)
Lemma fl_upper x :
  (0 <= x)%Q → (fl x <= x * (1 + (1 # 9007199254740992)))%Q.
Proof.
  intros Hx. destruct (Qeq_dec x 0) as [H0|H0].
  { rewrite fl_zero by done. lra. }
  destruct (fl_pos_spec x) as (m & e & -> & Hlo & Hup & _); [lra|].
  change (inject_Z (2 ^ 52)) with (4503599627370496 # 1)%Q in Hlo.
  lra.
Qed.

Lemma fl_lower x :
  (0 <= x)%Q → (x * (1 - (1 # 9007199254740992)) <= fl x)%Q.
Proof.
  intros Hx. destruct (Qeq_dec x 0) as [H0|H0].
  { rewrite fl_zero by done. lra. }
  destruct (fl_pos_spec x) as (m & e & -> & Hlo & _ & Hdn & _); [lra|].
  change (inject_Z (2 ^ 52)) with (4503599627370496 # 1)%Q in Hlo.
  lra.
Qed.

Lemma fl_nonneg x : (0 <= x)%Q → (0 <= fl x)%Q.
Proof.
  intros Hx. pose proof (fl_lower x Hx) as H.
  lra.
Qed.

(** Rounding never falls below an integer of less than 54 bits that the
    number has reached. *)
Lemma fl_ge_int k x :
  (0 < k < 2 ^ 53)%Z → (inject_Z k <= x)%Q → (inject_Z k <= fl x)%Q.
Proof.
  intros [Hk0 Hk1] Hx.
  assert (0 < inject_Z k)%Q as Hk0'.
  { change 0%Q with (inject_Z 0). by rewrite <-Zlt_Qlt. }
  destruct (fl_pos_spec x) as (m & e & -> & Hlo & _ & _ & Hfl); [lra|].
  pose proof (pow2_pos e) as He.
  destruct (Z.le_gt_cases e 0) as [Hneg|Hpos].
  - set (j := (2 ^ (- e))%Z).
    assert (inject_Z j * 2 ^ e == 1)%Q as Hj.
    { unfold j. rewrite pow2_Z by lia. rewrite <-pow2_plus.
      replace (- e + e)%Z with 0%Z by lia. reflexivity. }
    assert (inject_Z (k * j) <= x / 2 ^ e)%Q as Hkj.
    { rewrite inject_Z_mult.
      apply (Qmult_le_r _ _ (2 ^ e)%Q); [done|].
      assert (x / 2 ^ e * 2 ^ e == x)%Q as -> by (field; lra).
      rewrite <-Qmult_assoc, Hj. lra. }
    apply Qfloor_resp_le in Hkj. rewrite Qfloor_Z in Hkj.
    assert (k * j ≤ m)%Z as Hm by lia.
    rewrite Zle_Qle in Hm. rewrite inject_Z_mult in Hm.
    apply (Qmult_le_compat_r _ _ (2 ^ e)%Q) in Hm; [|lra].
    rewrite <-Qmult_assoc, Hj in Hm. lra.
  - assert (2 <= 2 ^ e)%Q as He2.
    { replace e with (1 + (e - 1))%Z by lia. rewrite pow2_plus.
      pose proof (Qpower_1_le 2 (e - 1) ltac:(lra) ltac:(lia)).
      change (2 ^ 1)%Q with 2%Q. lra. }
    assert (inject_Z (2 ^ 52) <= x / 2 ^ e)%Q as Hy.
    { apply (Qmult_le_r _ _ (2 ^ e)%Q); [done|].
      assert (x / 2 ^ e * 2 ^ e == x)%Q as -> by (field; lra). done. }
    apply Qfloor_resp_le in Hy. rewrite Qfloor_Z in Hy.
    assert (2 ^ 52 ≤ m)%Z as Hm by lia.
    rewrite Zle_Qle in Hm.
    apply (Qmult_le_compat_r _ _ (2 ^ e)%Q) in Hm; [|lra].
    rewrite Zlt_Qlt in Hk1.
    change (inject_Z (2 ^ 53)) with (9007199254740992 # 1)%Q in Hk1.
    change (inject_Z (2 ^ 52)) with (4503599627370496 # 1)%Q in Hm.
    lra.
Qed.

Lemma rand_Q_range u : (0 <= rand_Q u)%Q ∧ (rand_Q u < 1)%Q.
Proof.
  pose proof (rand_range u) as Hr.
  apply andb_prop in Hr as [H0%Z.leb_le Hlt%Z.ltb_lt].
  unfold rand_Q, Qle, Qlt; simpl. rewrite Z2Pos.id by lia. lia.
Qed.

Ltac divisions_as_products :=
  repeat match goal with
  | |- context [(?x / (5 # 2))%Q] =>
      change (x / (5 # 2))%Q with (x * (2 # 5))%Q in *
  | |- context [(?x / 5)%Q] =>
      change (x / 5)%Q with (x * (1 # 5))%Q in *
  end.

(** The three roundings of [middle] never lift the sum above
    [3 n / 5] by more than three relative errors. *)
Lemma middle_sum_upper n u :
  (1 ≤ n)%Z →
  (fl (fl (inject_Z n / (5 # 2)) + fl (rand_Q u * fl (inject_Z n / 5))) <=
   inject_Z n * (3 # 5) *
   ((1 + (1 # 9007199254740992)) * (1 + (1 # 9007199254740992)) *
    (1 + (1 # 9007199254740992))))%Q.
Proof.
  intros Hn. rewrite Zle_Qle in Hn. change (inject_Z 1) with 1%Q in Hn.
  destruct (rand_Q_range u) as [Hu0 Hu1].
  divisions_as_products.
  set (N := inject_Z n) in *. set (U := rand_Q u) in *.
  pose proof (fl_upper (N * (2 # 5))) as Ha.
  pose proof (fl_nonneg (N * (2 # 5))) as Ha0.
  pose proof (fl_upper (N * (1 # 5))) as Ht.
  pose proof (fl_nonneg (N * (1 # 5))) as Ht0.
  set (a := fl (N * (2 # 5))) in *. set (t := fl (N * (1 # 5))) in *.
  specialize (Ha ltac:(lra)). specialize (Ha0 ltac:(lra)).
  specialize (Ht ltac:(lra)). specialize (Ht0 ltac:(lra)).
  assert (0 <= U * t)%Q as Hut0 by (apply Qmult_le_0_compat; lra).
  assert (U * t <= t)%Q as Hut.
  { rewrite <-(Qmult_1_l t) at 2. apply Qmult_le_compat_r; lra. }
  pose proof (fl_upper (U * t) Hut0) as Hy.
  pose proof (fl_nonneg (U * t) Hut0) as Hy0.
  set (y := fl (U * t)) in *.
  pose proof (fl_upper (a + y) ltac:(lra)) as Hs.
  set (s := fl (a + y)) in *.
  lra.
Qed.

Lemma Qfloor_lt x k : (x < inject_Z k)%Q → (Qfloor x < k)%Z.
Proof.
  intros Hx. rewrite Zlt_Qlt. pose proof (Qfloor_le x). lra.
Qed.

Lemma Qfloor_ge x k : (inject_Z k <= x)%Q → (k ≤ Qfloor x)%Z.
Proof.
  intros Hx. apply Qfloor_resp_le in Hx. by rewrite Qfloor_Z in Hx.
Qed.

Lemma middle_sum_lower n u k :
  (0 < k < 2 ^ 53)%Z → (5 * k ≤ 2 * n)%Z →
  (inject_Z k <=
   fl (fl (inject_Z n / (5 # 2)) + fl (rand_Q u * fl (inject_Z n / 5))))%Q.
Proof.
  intros Hk Hkn. destruct (rand_Q_range u) as [Hu0 Hu1].
  assert (0 < inject_Z k)%Q as Hk0.
  { change 0%Q with (inject_Z 0). rewrite <-Zlt_Qlt. lia. }
  rewrite Zle_Qle, !inject_Z_mult in Hkn.
  change (inject_Z 5) with 5%Q in Hkn. change (inject_Z 2) with 2%Q in Hkn.
  divisions_as_products.
  set (N := inject_Z n) in *. set (U := rand_Q u) in *.
  pose proof (fl_ge_int k (N * (2 # 5)) Hk) as Ha.
  pose proof (fl_nonneg (N * (1 # 5))) as Ht0.
  set (a := fl (N * (2 # 5))) in *. set (t := fl (N * (1 # 5))) in *.
  specialize (Ha ltac:(lra)). specialize (Ht0 ltac:(lra)).
  assert (0 <= U * t)%Q as Hut0 by (apply Qmult_le_0_compat; lra).
  pose proof (fl_nonneg (U * t) Hut0) as Hy0.
  apply fl_ge_int; [done | lra].
Qed.

Lemma middle_range n u : (1 ≤ n)%Z → (0 ≤ middle n u < n)%Z.
Proof.
  intros Hn. unfold middle. split.
  - apply Qfloor_ge. change (inject_Z 0) with 0%Q.
    destruct (rand_Q_range u) as [Hu0 Hu1].
    apply fl_nonneg. divisions_as_products.
    pose proof (fl_nonneg (inject_Z n * (2 # 5))) as Ha0.
    pose proof (fl_nonneg (inject_Z n * (1 # 5))) as Ht0.
    rewrite Zle_Qle in Hn. change (inject_Z 1) with 1%Q in Hn.
    specialize (Ha0 ltac:(lra)). specialize (Ht0 ltac:(lra)).
    pose proof (fl_nonneg (rand_Q u * fl (inject_Z n * (1 # 5)))
                  ltac:(apply Qmult_le_0_compat; lra)).
    lra.
  - apply Qfloor_lt. pose proof (middle_sum_upper n u Hn) as Hs.
    rewrite Zle_Qle in Hn. change (inject_Z 1) with 1%Q in Hn. lra.
Qed.

Lemma middle_positive n u : (3 ≤ n)%Z → (1 ≤ middle n u)%Z.
Proof.
  intros Hn. unfold middle. apply Qfloor_ge.
  apply middle_sum_lower; lia.
Qed.

Lemma cells_lookup h w cx cy :
  in_grid h w cx cy → ∃ j, cells h w !! j = Some (cx, cy).
Proof. intros Hin. by apply list_elem_of_lookup_1, elem_of_cells. Qed.

Lemma superfluous_positive h cx cy : (1 ≤ cx)%Z → superfluous h cx cy = false.
Proof.
  intros Hcx. unfold superfluous.
  by rewrite (proj2 (Z.eqb_neq cx 0)) by lia.
Qed.

Lemma setInitialCat_placed base h w ux uy :
  (1 ≤ h)%Z → (3 ≤ w)%Z →
  is_Some (setInitialCat (grid_of base (cells h w)) h w ux uy).
Proof.
  intros Hh Hw. unfold setInitialCat.
  pose proof (middle_range h uy Hh). pose proof (middle_range w ux ltac:(lia)).
  pose proof (middle_positive w ux Hw).
  destruct (cells_lookup h w (middle w ux) (middle h uy)) as [j Hj].
  { split_and!; [lia.. | by apply superfluous_positive]. }
  exists (base + j).
  apply (grid_of_get base (cells h w) (middle w ux, middle h uy));
    [apply NoDup_cells | by exists j].
Qed.

(** In a grid at least three columns wide every spot has its left or its
    right neighbor. *)
Lemma cands_nonempty base h w c :
  (3 ≤ w)%Z → c ∈ cells h w →
  omap id (cands (grid_of base (cells h w)) c.1 c.2) ≠ [].
Proof.
  intros Hw Hc. destruct c as [cx cy].
  apply elem_of_cells in Hc as (Hcx & Hcy & Hsup). simpl.
  set (cb := if decide (cx + 1 < w)%Z then (cx + 1, cy)%Z else (cx - 1, cy)%Z).
  destruct (cells_lookup h w cb.1 cb.2) as [j Hj].
  { unfold cb. case_decide; simpl.
    - split_and!; [lia.. | apply superfluous_positive; lia].
    - split_and!; [lia.. | apply superfluous_positive; lia]. }
  assert ((base + j) ∈ omap id (cands (grid_of base (cells h w)) cx cy))
    as Hin; [|by destruct (omap id _); [apply elem_of_nil in Hin|]].
  apply (elem_of_cands_grid base (cells h w) cx cy j cb);
    [apply NoDup_cells | by destruct cb |].
  unfold cb, cand_coords. repeat case_match; find_elem.
Qed.

Lemma new_Board_policy_ready h w numBlocks ux uy draws st st' :
  new_Board h w numBlocks ux uy draws st = Some st' →
  wf_store st → policy_ready st → policy_ready st'.
Proof.
  intros Hnew Hwf Hready.
  destruct (new_Board_spec _ _ _ _ _ _ _ _ Hnew)
    as (Hbo & _ & _ & _ & Hold & Hcells & _).
  intros bj b Hb Hroomy. rewrite Hbo in Hb.
  apply lookup_app_Some in Hb as [Hb|[_ Hb]].
  - destruct (Hready bj b Hb Hroomy) as [Hcat Hadj]. split; [done|].
    intros r Hr. destruct (Hwf bj b Hb) as [Hgrid _].
    destruct (Hgrid r Hr) as (s & Hs & _).
    unfold spot_adjacent. rewrite Hold by by eapply lookup_lt_Some.
    by apply Hadj.
  - apply list_lookup_singleton_Some in Hb as [_ <-].
    destruct Hroomy as [Hh Hw]; simpl in Hh, Hw. split; simpl.
    + by apply setInitialCat_placed.
    + intros r Hr. rewrite grid_of_values in Hr. apply elem_of_seq in Hr.
      set (base := length (spots st)) in *.
      assert (∃ i, r = base + i ∧ i < length (cells h w)) as (i & -> & Hi).
      { exists (r - base). lia. }
      destruct (lookup_lt_is_Some_2 (cells h w) i Hi) as [c Hc].
      destruct (Hcells _ _ Hc) as (s & Hs & _ & _ & _ & Hadj & _).
      unfold spot_adjacent. rewrite Hs, Hadj.
      apply cands_nonempty; [done | by eapply list_elem_of_lookup_2].
Qed.

Lemma handleClick_policy_ready s u w :
  policy_ready w → policy_ready (handleClick s u w).1.
Proof.
  intros Hready bj b' Hb' Hroomy.
  destruct (handleClick_structure s u w) as (_ & Hsp & Hbo).
  destruct (Hbo bj b' Hb') as (b & Hb & Hg & Hh & Hw & Hcat).
  destruct (Hready bj b Hb) as [Hc Hadj].
  { destruct Hroomy. split; congruence. }
  split; [by apply Hcat|]. intros r Hr. rewrite Hg in Hr.
  specialize (Hadj r Hr). specialize (Hsp r). unfold spot_adjacent in *.
  destruct (spots (handleClick s u w).1 !! r) as [s1|],
           (spots w !! r) as [s2|]; simpl in *; try done.
  injection Hsp as Hsp. unfold strip in Hsp.
  destruct s1, s2; simpl in *. by simplify_eq.
Qed.

Lemma reachable_policy_ready w : reachable w → policy_ready w.
Proof.
  induction 1 as [|w h wd nb ux uy draws w' Hreach IH Hnew
                  |w s u Hreach IH].
  - intros bj b Hb. simpl in Hb. by rewrite lookup_nil in Hb.
  - eapply new_Board_policy_ready; [done | | done].
    by apply reachable_well_formed.
  - by apply handleClick_policy_ready.
Qed.

(** On a roomy board the cat's turn never throws: the policy returns a
    neighbor of the cat. *)
Lemma moveCat_returns bi b u w :
  wf_store w → policy_ready w → boards w !! bi = Some b → roomy b →
  (∃ move, nextStepForCat b u w =
             (updateDistances (grid b) w, Return (Some move))) ∧
  (moveCat bi u w).2 = Return ().
Proof.
  intros Hwf Hready Hb Hroomy.
  destruct (Hready bi b Hb Hroomy) as [[c Hc] Hadj].
  destruct (Hwf bi b Hb) as [Hgrid Hcat].
  destruct (nextStepForCat_selects bi b u w c (Hwf bi b Hb) Hc)
    as (move & Hnext & _); [by apply Hadj, Hcat|].
  split; [by exists move|].
  unfold moveCat. rewrite Hb, Hnext. by repeat case_decide.
Qed.

(** In the game as the page plays it no click ends in an exception. *)
Lemma handleClick_returns s sp b u w :
  reachable w → spots w !! s = Some sp → boards w !! board sp = Some b →
  roomy b → (handleClick s u w).2 = Return ().
Proof.
  intros Hreach Hs Hb Hroomy.
  destruct (reachable_well_formed w Hreach) as [Hwf _].
  pose proof (reachable_policy_ready w Hreach) as Hready.
  unfold handleClick. rewrite Hs, Hb.
  destruct (bool_decide (cat b = Some s) || blocked sp); [done|].
  set (wb := update_spot s (set_blocked true) w).
  pose proof (same_layout_set_blocked s true w) as Hl. fold wb in Hl.
  eapply (moveCat_returns (board sp) b u wb); [| |done..].
  - by eapply wf_store_layout.
  - intros bj bb Hbb Hr. change (boards w !! bj = Some bb) in Hbb.
    destruct (Hready bj bb Hbb Hr) as [Hc Hadj]. split; [done|].
    intros r Hrg. rewrite (same_layout_adjacent w wb) by done.
    by apply Hadj.
Qed.

(** * The sample game *)

Lemma sample_loaded_eq :
  new_Board 11 11 6 one_half one_half sample_draws empty_World =
  Some sample_loaded.
Proof. vm_compute. reflexivity. Qed.

Lemma sample_board_eq : boards sample_loaded !! 0 = Some sample_board.
Proof. vm_compute. reflexivity. Qed.

Lemma sample_reset_eq :
  new_Board 11 11 6 one_half one_half sample_draws sample_loaded =
  Some sample_reset.
Proof. vm_compute. reflexivity. Qed.

Lemma reachable_play clicks w : reachable w → reachable (play clicks w).
Proof.
  revert w. induction clicks as [|c clicks IH]; intros w Hw; [done|].
  apply IH. by apply reachable_click.
Qed.

Lemma reachable_sample_loaded : reachable sample_loaded.
Proof.
  exact (reachable_new_Board _ _ _ _ _ _ _ _ reachable_empty
           sample_loaded_eq).
Qed.

Lemma sample_lost_eq : play sample_lost_clicks sample_loaded = sample_lost.
Proof. vm_compute. reflexivity. Qed.

Lemma sample_cornered_eq :
  play [(78, one_half); (90, one_half)] sample_lost = sample_cornered.
Proof. vm_compute. reflexivity. Qed.

Lemma sample_trapped_eq :
  update_spot 8 (set_blocked true) sample_cornered = sample_trapped.
Proof. vm_compute. reflexivity. Qed.

Lemma reachable_sample_lost : reachable sample_lost.
Proof.
  rewrite <-sample_lost_eq. apply reachable_play, reachable_sample_loaded.
Qed.

Lemma reachable_sample_cornered : reachable sample_cornered.
Proof.
  rewrite <-sample_cornered_eq. apply reachable_play, reachable_sample_lost.
Qed.

Lemma reachable_sample_reset : reachable sample_reset.
Proof.
  exact (reachable_new_Board _ _ _ _ _ _ _ _ reachable_sample_loaded
           sample_reset_eq).
Qed.

Lemma sample_announcements :
  announced sample_loaded = [] ∧
  announced sample_lost = [lose] ∧
  announced sample_cornered = [lose; lose; lose] ∧
  announced (handleClick 8 one_half sample_cornered).1 =
    [lose; lose; lose; win].
Proof. vm_compute. done. Qed.

Ltac by_computation :=
  first [ vm_compute; reflexivity
        | apply (bool_decide_unpack _); vm_compute; exact I ].

(** In the sample game the cat starts six hops from the escape node. *)
Lemma sample_center_hops : min_hops sample_loaded 59 6.
Proof.
  split.
  - destruct (updateDistances_seen_walk (grid sample_board) sample_loaded 59)
      as (n & Hn & Hw); [by_computation|].
    vm_compute in Hn. by injection Hn as <-.
  - intros m Hm.
    destruct (updateDistances_walk_seen (grid sample_board) sample_loaded
                m 59 Hm) as (_ & k & Hk & Hle).
    vm_compute in Hk. by injection Hk as <-.
Qed.

(** C1 for the cat's spot of the freshly loaded sample game. *)
Lemma updateDistances_shortest_hops_witness :
  59 ∈ grid_values (grid sample_board) ∧
  ((∀ n, min_hops sample_loaded 59 n →
      spot_distance (updateDistances (grid sample_board) sample_loaded) 59
      = Fin n) ∧
   (spot_blocked sample_loaded 59 = true ∨ (∀ n, ¬ walk sample_loaded n 59) →
    spot_distance (updateDistances (grid sample_board) sample_loaded) 59
    = Infinity)).
Proof.
  assert (H : 59 ∈ grid_values (grid sample_board)) by by_computation.
  split; [exact H|].
  exact (updateDistances_shortest_hops (grid sample_board) sample_loaded 59 H).
Defined.

(** C6 for the spots (5,5) and (6,5) of the sample board. *)
Lemma createGraph_adjacency_symmetric_witness :
  new_Board 11 11 6 one_half one_half sample_draws empty_World =
    Some sample_loaded ∧
  boards sample_loaded !! length (boards empty_World) = Some sample_board ∧
  59 ∈ grid_values (grid sample_board) ∧
  60 ∈ grid_values (grid sample_board) ∧
  (60 ∈ spot_adjacent sample_loaded 59 ↔ 59 ∈ spot_adjacent sample_loaded 60).
Proof.
  assert (H1 : new_Board 11 11 6 one_half one_half sample_draws empty_World =
               Some sample_loaded) by by_computation.
  assert (H2 : boards sample_loaded !! length (boards empty_World) =
               Some sample_board) by by_computation.
  assert (H3 : 59 ∈ grid_values (grid sample_board)) by by_computation.
  assert (H4 : 60 ∈ grid_values (grid sample_board)) by by_computation.
  split_and!; [exact H1 | exact H2 | exact H3 | exact H4 |].
  exact (createGraph_adjacency_symmetric _ _ _ _ _ _ _ _ _ _ _ H1 H2 H3 H4).
Defined.

(** C7 for the sample game with the cat in the corner. *)
Lemma cat_never_on_blocked_spot_witness :
  ∃ b, reachable sample_cornered ∧
       boards sample_cornered !! 0 = Some b ∧ cat b = Some 9 ∧
       ∃ s, spots sample_cornered !! 9 = Some s ∧ blocked s = false.
Proof.
  eexists.
  assert (H1 : reachable sample_cornered) by exact reachable_sample_cornered.
  split; [exact H1|].
  refine ((λ H2 H3, conj H2 (conj H3
            (cat_never_on_blocked_spot sample_cornered 0 _ 9 H1 H2 H3)))
          _ _); by_computation.
Defined.

(** C3 on the three branches of [moveCat] in the sample game.  After the
    player has blocked (0,8), the policy selects (6,4), reference 49, at
    distance 5, and play continues.  With the cat on (10,0) the policy
    selects (9,0), reference 8, at distance 1: a loss.  With (9,0) blocked
    as well, the policy selects the blocked (9,1), reference 19, at distance
    [Infinity]: a win. *)
Lemma moveCat_outcomes_witness :
  (let w := update_spot 87 (set_blocked true) sample_loaded in
   let u := fraction 1 6 in
   let w1 := updateDistances (grid sample_board) w in
   let w' := (moveCat 0 u w).1 in
   let moved := {| height := 11; width := 11; grid := grid sample_board;
                   cat := Some 49 |} in
   boards w !! 0 = Some sample_board ∧
   nextStepForCat sample_board u w = (w1, Return (Some 49)) ∧
   spot_distance w1 49 = Fin 5 ∧
   ((moveCat 0 u w).2 = Return () ∧
    spots w' = spots w1 ∧
    (∀ bj, bj ≠ 0 → boards w' !! bj = boards w !! bj) ∧
    (spot_distance w1 49 = Infinity →
     announced w' = announced w ++ [win] ∧
     boards w' !! 0 = Some sample_board) ∧
    (spot_distance w1 49 = Fin 1 →
     announced w' = announced w ++ [lose] ∧ boards w' !! 0 = Some moved) ∧
    (spot_distance w1 49 ≠ Infinity → spot_distance w1 49 ≠ Fin 1 →
     announced w' = announced w ∧ boards w' !! 0 = Some moved))) ∧
  (let b := set_cat (Some 9) sample_board in
   let w1 := updateDistances (grid b) sample_cornered in
   let w' := (moveCat 0 one_half sample_cornered).1 in
   let moved := {| height := 11; width := 11; grid := grid sample_board;
                   cat := Some 8 |} in
   boards sample_cornered !! 0 = Some b ∧
   nextStepForCat b one_half sample_cornered = (w1, Return (Some 8)) ∧
   spot_distance w1 8 = Fin 1 ∧
   announced w' = announced sample_cornered ++ [lose] ∧
   boards w' !! 0 = Some moved) ∧
  (let b := set_cat (Some 9) sample_board in
   let w1 := updateDistances (grid b) sample_trapped in
   let w' := (moveCat 0 one_half sample_trapped).1 in
   boards sample_trapped !! 0 = Some b ∧
   nextStepForCat b one_half sample_trapped = (w1, Return (Some 19)) ∧
   spot_distance w1 19 = Infinity ∧
   announced w' = announced sample_trapped ++ [win] ∧
   boards w' !! 0 = Some b).
Proof.
  split; [|split].
  - intros w u w1 w' moved.
    assert (H1 : boards w !! 0 = Some sample_board) by by_computation.
    assert (H2 : nextStepForCat sample_board u w = (w1, Return (Some 49)))
      by by_computation.
    assert (H3 : spot_distance w1 49 = Fin 5) by by_computation.
    split; [exact H1|]. split; [exact H2|]. split; [exact H3|].
    exact (moveCat_outcomes 0 sample_board u w w1 49 H1 H2).
  - intros b w1 w' moved.
    assert (H1 : boards sample_cornered !! 0 = Some b) by by_computation.
    assert (H2 : nextStepForCat b one_half sample_cornered =
                 (w1, Return (Some 8))) by by_computation.
    assert (H3 : spot_distance w1 8 = Fin 1) by by_computation.
    split; [exact H1|]. split; [exact H2|]. split; [exact H3|].
    exact (proj1 (proj2 (proj2 (proj2 (proj2
             (moveCat_outcomes 0 b one_half sample_cornered w1 8 H1 H2)))))
             H3).
  - intros b w1 w'.
    assert (H1 : boards sample_trapped !! 0 = Some b) by by_computation.
    assert (H2 : nextStepForCat b one_half sample_trapped =
                 (w1, Return (Some 19))) by by_computation.
    assert (H3 : spot_distance w1 19 = Infinity) by by_computation.
    split; [exact H1|]. split; [exact H2|]. split; [exact H3|].
    exact (proj1 (proj2 (proj2 (proj2
             (moveCat_outcomes 0 b one_half sample_trapped w1 19 H1 H2))))
             H3).
Defined.

(** C9 for a click on (0,8), reference 87, in the freshly loaded sample
    game. *)
Lemma handleClick_cases_witness :
  ∃ sp,
    spots sample_loaded !! 87 = Some sp ∧
    boards sample_loaded !! board sp = Some sample_board ∧
    (cat sample_board = Some 87 ∨ blocked sp = true →
     handleClick 87 one_half sample_loaded = (sample_loaded, Return ())) ∧
    (cat sample_board ≠ Some 87 → blocked sp = false →
     handleClick 87 one_half sample_loaded =
       moveCat (board sp) one_half
         (update_spot 87 (set_blocked true) sample_loaded) ∧
     ∀ r, spot_blocked (handleClick 87 one_half sample_loaded).1 r =
          if decide (r = 87) then true else spot_blocked sample_loaded r).
Proof.
  eexists.
  refine ((λ H1 H2, conj H1 (conj H2
            (handleClick_cases 87 one_half sample_loaded _ sample_board
               H1 H2))) _ _); by_computation.
Defined.

(** C10 for the reset of the freshly loaded sample game. *)
Lemma new_Board_accumulates_boundary_witness :
  ∃ b,
    reachable sample_loaded ∧
    new_Board 11 11 6 one_half one_half sample_draws sample_loaded =
      Some sample_reset ∧
    boards sample_reset !! length (boards sample_loaded) = Some b ∧
    (boundary_adjacent sample_reset =
       boundary_adjacent sample_loaded ++
       filter (λ r, border 11 11 sample_reset r = true)
         (grid_values (grid b)) ∧
     (∀ bj b0 r, boards sample_loaded !! bj = Some b0 →
        r ∈ grid_values (grid b0) →
        border (height b0) (width b0) sample_loaded r = true →
        r ∈ boundary_adjacent sample_reset) ∧
     node_adjacent (bfs_world (bfs_start (grid b) sample_reset)) boundary =
       boundary_adjacent sample_reset ∧
     (∀ r, r ∈ boundary_adjacent sample_loaded → open sample_reset r →
           spot_distance (updateDistances (grid b) sample_reset) r = Fin 1)).
Proof.
  assert (H0 : reachable sample_loaded) by exact reachable_sample_loaded.
  assert (H1 : new_Board 11 11 6 one_half one_half sample_draws
                 sample_loaded = Some sample_reset) by by_computation.
  eexists. split; [exact H0|]. split; [exact H1|].
  refine ((λ H2, conj H2
            (new_Board_accumulates_boundary 11 11 6 one_half one_half
               sample_draws sample_loaded sample_reset _ H0 H1 H2)) _).
  by_computation.
Defined.

(** After the reset, the spot (2,0) of the first board, reference 1, is
    still a neighbor of the escape node and is labelled by a pass of the
    second board's distance engine. *)
Lemma sample_reset_labels_old_spot :
  ∃ b, boards sample_reset !! 1 = Some b ∧
       1 ∈ boundary_adjacent sample_reset ∧
       (1 ∉ grid_values (grid b)) ∧
       spot_distance sample_reset 1 = Infinity ∧
       spot_distance (updateDistances (grid b) sample_reset) 1 = Fin 1.
Proof.
  eexists. split; [by_computation|].
  split_and!; by_computation.
Qed.

(** C5 at the page after one reset: the list of the escape node holds 76
    spots, the 38 of the outer ring of the new board after the 38 of the
    discarded board, among them reference 1, which is no spot of the new
    grid. *)
Lemma reset_boundary_holds_old_ring :
  ∃ b, boards sample_reset !! 1 = Some b ∧
       length (boundary_adjacent sample_reset) = 76 ∧
       length (filter (λ r, border 11 11 sample_reset r = true)
                 (grid_values (grid b))) = 38 ∧
       1 ∈ boundary_adjacent sample_reset ∧
       1 ∉ grid_values (grid b).
Proof.
  eexists. split; [by_computation|].
  split_and!; by_computation.
Qed.

(** C4 at [new Board(4, 4, 0)]: the assertion fails, its message is
    logged, and construction goes on to build the grid with its 14 spots
    and to register the 10 spots of the outer ring. *)
Lemma new_Board_even_is_built :
  ∃ w b,
    new_Board 4 4 0 one_half one_half [] empty_World = Some w ∧
    console w = ["Height & width must be odd"] ∧
    boards w !! 0 = Some b ∧
    length (grid b) = 14 ∧ length (spots w) = 14 ∧
    length (boundary_adjacent w) = 10.
Proof.
  eexists _, _. split; [by_computation|].
  split_and!; by_computation.
Qed.

(** The eighth click of the sample game is on (9,0), reference 8; the cat
    turn it triggers runs on [sample_trapped]. *)
Lemma sample_trapped_played :
  handleClick 8 one_half sample_cornered = moveCat 0 one_half sample_trapped.
Proof. vm_compute. reflexivity. Qed.

Lemma wf_store_sample_trapped : wf_store sample_trapped.
Proof.
  rewrite <-sample_trapped_eq.
  eapply wf_store_layout; [apply same_layout_set_blocked|].
  apply reachable_well_formed, reachable_sample_cornered.
Qed.

(** C2 fails as stated: in the corner of the sample game the cat, on
    (10,0), has the three neighbors (9,0), (9,1) and (10,1), all blocked,
    and the policy returns (9,1), reference 19. *)
Lemma nextStepForCat_returns_blocked :
  ∃ b, boards sample_trapped !! 0 = Some b ∧ cat b = Some 9 ∧
       spot_adjacent sample_trapped 9 = [8; 19; 20] ∧
       (nextStepForCat b one_half sample_trapped).2 = Return (Some 19) ∧
       19 ∈ spot_adjacent sample_trapped 9 ∧
       spot_blocked sample_trapped 19 = true.
Proof.
  eexists. split; [by_computation|].
  split_and!; by_computation.
Qed.

(** C2, as the code has it, for the cat trapped in the corner. *)
Lemma nextStepForCat_neighbor_witness :
  ∃ b,
    boards sample_trapped !! 0 = Some b ∧
    wf_board sample_trapped 0 b ∧ cat b = Some 9 ∧
    spot_adjacent sample_trapped 9 ≠ [] ∧
    let w1 := updateDistances (grid b) sample_trapped in
    ∃ move,
      nextStepForCat b one_half sample_trapped = (w1, Return (Some move)) ∧
      move ∈ spot_adjacent sample_trapped 9 ∧
      spot_distance w1 move =
        Math_min (spot_distance w1 <$> spot_adjacent sample_trapped 9) ∧
      (spot_distance w1 move ≠ Infinity →
       spot_blocked sample_trapped move = false) ∧
      (spot_blocked sample_trapped move = true →
       (∀ r, r ∈ spot_adjacent sample_trapped 9 →
             spot_distance w1 r = Infinity) ∧
       (moveCat 0 one_half sample_trapped).2 = Return () ∧
       announced (moveCat 0 one_half sample_trapped).1 =
         announced sample_trapped ++ [win] ∧
       boards (moveCat 0 one_half sample_trapped).1 =
         boards sample_trapped).
Proof.
  assert (∃ b, boards sample_trapped !! 0 = Some b ∧ cat b = Some 9)
    as (b & Hb & Hc).
  { eexists. split; by_computation. }
  assert (H1 : wf_board sample_trapped 0 b)
    by exact (wf_store_sample_trapped 0 b Hb).
  assert (H3 : spot_adjacent sample_trapped 9 ≠ [])
    by (vm_compute; discriminate).
  exists b. split; [exact Hb|]. split; [exact H1|]. split; [exact Hc|].
  split; [exact H3|].
  exact (nextStepForCat_neighbor 0 b one_half sample_trapped 9 Hb H1 Hc H3).
Defined.


(** * More on the distance engine *)

Lemma reset_distances_other g w r :
  r ∉ grid_values g →
  spot_distance (reset_distances g w) r = spot_distance w r.
Proof.
  unfold reset_distances. revert w.
  induction (grid_values g) as [|a l IH]; intros w Hr; simpl; [done|].
  apply not_elem_of_cons in Hr as [Hne Hr].
  rewrite IH by done. by apply spot_distance_update_ne.
Qed.

Lemma updateDistances_unseen g w r :
  r ∉ seen (updateDistances_run g w) →
  spot_distance (updateDistances g w) r =
  spot_distance (reset_distances g w) r.
Proof.
  intros Hr. destruct (updateDistances_invariant g w) as [P Hout].
  by apply (inv_unseen _ _ _ (outer_inv _ _ _ Hout)).
Qed.

Lemma updateDistances_grid_finite_seen g w r n :
  r ∈ grid_values g → spot_distance (updateDistances g w) r = Fin n →
  r ∈ seen (updateDistances_run g w).
Proof.
  intros Hr Hd.
  destruct (decide (r ∈ seen (updateDistances_run g w))) as [|Hs]; [done|].
  rewrite updateDistances_unseen, reset_distances_grid in Hd by done.
  discriminate.
Qed.

(** The label of a seen spot is the least length of a walk to it. *)
Lemma updateDistances_seen_min g w r :
  r ∈ seen (updateDistances_run g w) →
  ∃ n, spot_distance (updateDistances g w) r = Fin n ∧ min_hops w r n.
Proof.
  intros Hs. destruct (updateDistances_seen_walk g w r Hs) as (n & Hn & Hw).
  exists n. split; [done|]. split; [done|]. intros m Hm.
  destruct (updateDistances_walk_seen g w m r Hm) as (_ & k & Hk & Hle).
  congruence.
Qed.

Lemma same_graph_spots w w' :
  same_graph w w' → (∀ r, spot_distance w' r = spot_distance w r) →
  spots w' = spots w.
Proof.
  intros [_ Hs] Hd. apply list_eq. intros r.
  specialize (Hs r). specialize (Hd r). unfold spot_distance in Hd.
  destruct (spots w' !! r) as [s'|], (spots w !! r) as [s|];
    simpl in *; try done.
  injection Hs as Hs. f_equal. unfold erase in Hs.
  destruct s, s'; simpl in *. by simplify_eq.
Qed.

Lemma World_eq w w' : spots w' = spots w → rest w' = rest w → w' = w.
Proof.
  destruct w, w'; simpl. unfold rest; simpl. by intros -> [= -> -> -> ->].
Qed.

Lemma updateDistances_twice g w :
  updateDistances g (updateDistances g w) = updateDistances g w.
Proof.
  set (w1 := updateDistances g w).
  pose proof (updateDistances_same_graph g w) as Hg1. fold w1 in Hg1.
  pose proof (updateDistances_same_graph g w1) as Hg2.
  apply World_eq; [|apply updateDistances_rest].
  apply same_graph_spots; [done|]. intros r.
  destruct (decide (r ∈ seen (updateDistances_run g w1))) as [Hs2|Hs2].
  - destruct (updateDistances_seen_min g w1 r Hs2) as (n2 & Hn2 & Hw2 & Hmin2).
    rewrite Hn2.
    assert (walk w n2 r) as Hw by by eapply same_graph_walk.
    destruct (updateDistances_walk_seen g w n2 r Hw) as (Hs1 & n1 & Hn1 & Hle).
    destruct (updateDistances_seen_walk g w r Hs1) as (n1' & Hn1' & Hw1).
    fold w1 in Hn1, Hn1'. rewrite Hn1. f_equal.
    apply Nat.le_antisymm; [|done].
    apply Hmin2. eapply same_graph_walk; [by apply same_graph_sym|].
    congruence.
  - rewrite updateDistances_unseen by done.
    assert (r ∉ seen (updateDistances_run g w)) as Hs1.
    { intros Hs1. destruct (updateDistances_seen_walk g w r Hs1)
        as (n & _ & Hw).
      apply Hs2. eapply (updateDistances_walk_seen g w1 n).
      eapply same_graph_walk; [by apply same_graph_sym | done]. }
    destruct (decide (r ∈ grid_values g)) as [Hr|Hr].
    + rewrite reset_distances_grid by done. unfold w1.
      rewrite updateDistances_unseen by done.
      by rewrite reset_distances_grid.
    + by rewrite reset_distances_other.
Qed.

(** X1.  Running the distance engine a second time, with no click in
    between, changes nothing in the store. *)
Theorem updateDistances_idempotent g w :
  updateDistances g (updateDistances g w) = updateDistances g w.
Proof. apply updateDistances_twice. Qed.

Lemma bfs_loop_more_fuel fuel k st :
  toVisit (bfs_loop fuel st) = [] →
  bfs_loop (fuel + k) st = bfs_loop fuel st.
Proof.
  revert st. induction fuel as [|fuel IH]; intros st Hq; simpl in *.
  - destruct k; simpl; [done|]. by rewrite Hq.
  - destruct (toVisit st) as [|p rest]; [done|]. by apply IH.
Qed.

(** X2.  The [while] loop of [updateDistances] ends by itself after at
    most one round more than there are spots in the store: with any larger
    bound on the number of rounds the search returns the same state, and
    its queue is empty. *)
Theorem updateDistances_loop_terminates g w k :
  bfs_loop (S (length (spots w)) + k) (bfs_start g w) =
    updateDistances_run g w ∧
  toVisit (updateDistances_run g w) = [].
Proof.
  split; [|apply updateDistances_runs_to_completion].
  apply bfs_loop_more_fuel, updateDistances_runs_to_completion.
Qed.

Lemma walk_one w r : walk w 1 r → r ∈ boundary_adjacent w ∧ open w r.
Proof.
  inversion 1 as [|n p ? Hp]; subst; [done|].
  apply walk_pos in Hp. lia.
Qed.

Lemma updateDistances_ring g w r :
  r ∈ grid_values g →
  spot_distance (updateDistances g w) r ≠ Fin 0 ∧
  (spot_distance (updateDistances g w) r = Fin 1 ↔
   r ∈ boundary_adjacent w ∧ open w r).
Proof.
  intros Hr. split.
  - intros Hd.
    pose proof (updateDistances_grid_finite_seen g w r 0 Hr Hd) as Hs.
    destruct (updateDistances_seen_walk g w r Hs) as (n & Hn & Hw).
    apply walk_pos in Hw. rewrite Hd in Hn. injection Hn as <-. lia.
  - split.
    + intros Hd.
      pose proof (updateDistances_grid_finite_seen g w r 1 Hr Hd) as Hs.
      destruct (updateDistances_seen_walk g w r Hs) as (n & Hn & Hw).
      rewrite Hd in Hn. injection Hn as <-. by apply walk_one.
    + intros [Hin Ho]. apply updateDistances_min_hops. split.
      * by apply walk_escape.
      * intros m Hm. by eapply walk_pos.
Qed.

(** X3.  After a pass no spot of the grid has distance 0, and a spot of the
    grid has distance 1 exactly when it is unblocked and listed in
    [boundary.adjacent]. *)
Theorem updateDistances_distance_one g w r :
  r ∈ grid_values g →
  spot_distance (updateDistances g w) r ≠ Fin 0 ∧
  (spot_distance (updateDistances g w) r = Fin 1 ↔
   r ∈ boundary_adjacent w ∧ open w r).
Proof. apply updateDistances_ring. Qed.

Lemma walk_last w n r :
  walk w (S (S n)) r →
  ∃ p, walk w (S n) p ∧ r ∈ spot_adjacent w p ∧ open w r.
Proof. inversion 1; subst. by eauto. Qed.

(** Labels grow by at most one along a link out of a labelled spot. *)
Lemma updateDistances_link g w p r m :
  spot_distance (updateDistances g w) p = Fin m →
  p ∈ seen (updateDistances_run g w) →
  r ∈ spot_adjacent w p → open w r →
  ∃ k, spot_distance (updateDistances g w) r = Fin k ∧ k ≤ S m.
Proof.
  intros Hp Hs Hr Ho.
  destruct (updateDistances_seen_walk g w p Hs) as (m' & Hm' & Hw).
  assert (m' = m) as -> by congruence.
  destruct (updateDistances_walk_seen g w (S m) r) as (_ & k & Hk & Hle).
  { by eapply walk_step. }
  by exists k.
Qed.

Lemma updateDistances_predecessor g w r n :
  r ∈ grid_values g →
  spot_distance (updateDistances g w) r = Fin (S (S n)) →
  ∃ p, r ∈ spot_adjacent w p ∧ open w p ∧
       p ∈ seen (updateDistances_run g w) ∧
       spot_distance (updateDistances g w) p = Fin (S n).
Proof.
  intros Hr Hd.
  pose proof (updateDistances_grid_finite_seen g w r _ Hr Hd) as Hs.
  destruct (updateDistances_seen_walk g w r Hs) as (n' & Hn' & Hw).
  assert (n' = S (S n)) as -> by congruence.
  destruct (walk_last w n r Hw) as (p & Hwp & Hadj & Ho).
  destruct (updateDistances_walk_seen g w (S n) p Hwp) as (Hsp & m & Hm & Hle).
  exists p. split_and!; [done | by eapply walk_open | done |].
  destruct (updateDistances_link g w p r m Hm Hsp Hadj Ho) as (k & Hk & Hle').
  rewrite Hm. f_equal.
  assert (k = S (S n)) by congruence. lia.
Qed.

(** X4.  After a pass, a grid spot at distance [d + 1 >= 2] is a neighbor
    of an unblocked spot at distance [d], and the distance of an unblocked
    neighbor of a reached spot exceeds that spot's distance by at most
    one. *)
Theorem updateDistances_labels_chain g w r n :
  r ∈ grid_values g →
  spot_distance (updateDistances g w) r = Fin (S (S n)) →
  (∃ p, r ∈ spot_adjacent w p ∧ open w p ∧
        spot_distance (updateDistances g w) p = Fin (S n)) ∧
  (∀ q, q ∈ spot_adjacent w r → open w q →
        ∃ k, spot_distance (updateDistances g w) q = Fin k ∧ k ≤ S (S (S n))).
Proof.
  intros Hr Hd. split.
  - destruct (updateDistances_predecessor g w r n Hr Hd)
      as (p & ? & ? & _ & ?). by exists p.
  - intros q Hq Ho. eapply updateDistances_link; [done | | done..].
    by eapply updateDistances_grid_finite_seen.
Qed.

(** * More on the cat's turn *)

Lemma Math_min_all_Infinity ds :
  (∀ d, d ∈ ds → d = Infinity) → Math_min ds = Infinity.
Proof.
  induction ds as [|d ds IH]; intros Hall; simpl; [done|].
  rewrite (Hall d) by by left. simpl. apply IH.
  intros d' Hd'. apply Hall. by right.
Qed.

Lemma Math_min_le ds m :
  Fin m ∈ ds → ∃ k, Math_min ds = Fin k ∧ k ≤ m.
Proof.
  induction ds as [|d ds IH]; intros Hin; [by apply elem_of_nil in Hin|].
  simpl. apply elem_of_cons in Hin as [<-|Hin].
  - destruct (Math_min ds) as [k|]; simpl.
    + exists (Nat.min m k). split; [done | lia].
    + by exists m.
  - destruct (IH Hin) as (k & -> & Hle). destruct d as [j|]; simpl.
    + exists (Nat.min j k). split; [done | lia].
    + by exists k.
Qed.

(** What [moveCat] announces, by the distance of the selected move. *)
Lemma moveCat_announces bi b u w w1 move :
  boards w !! bi = Some b →
  nextStepForCat b u w = (w1, Return (Some move)) →
  announced (moveCat bi u w).1 =
  announced w ++
  (if decide (spot_distance w1 move = Infinity) then [win]
   else if decide (spot_distance w1 move = Fin 1) then [lose] else []).
Proof.
  intros Hb Hnext.
  pose proof (nextStepForCat_world b u w) as Hw1.
  rewrite Hnext in Hw1; simpl in Hw1.
  destruct (rest_fields _ _ (updateDistances_rest (grid b) w))
    as (_ & _ & _ & Han).
  rewrite <-Hw1 in Han.
  unfold moveCat. rewrite Hb, Hnext.
  change (spot_distance (with_boards ?f w1) move)
    with (spot_distance w1 move).
  repeat case_decide; simpl; rewrite ?Han, ?app_nil_r; done.
Qed.

Lemma neighbor_enclosed_iff bi b w c :
  wf_board w bi b → cat b = Some c →
  Math_min (spot_distance (updateDistances (grid b) w) <$> spot_adjacent w c)
    = Infinity ↔ enclosed w c.
Proof.
  intros [Hgrid Hcat] Hc.
  destruct (Hgrid c (Hcat c Hc)) as (sc & Hsc & _ & Hclosed).
  assert (Hadj : ∀ r, r ∈ spot_adjacent w c → r ∈ grid_values (grid b)).
  { intros r Hr. apply Hclosed. unfold spot_adjacent in Hr.
    by rewrite Hsc in Hr. }
  split.
  - intros Hmin r n Hr Hw.
    destruct (updateDistances_walk_seen (grid b) w n r Hw)
      as (_ & k & Hk & _).
    rewrite (Math_min_Infinity _ _ Hmin (list_elem_of_fmap_2 _ _ _ Hr)) in Hk.
    discriminate.
  - intros Henc. apply Math_min_all_Infinity.
    intros d (r & -> & Hr)%list_elem_of_fmap.
    apply updateDistances_unreachable; [by apply Hadj|].
    intros n. by apply Henc.
Qed.

(** X5.  On a well-formed board whose cat has a neighbor, [moveCat]
    announces a win exactly when the cat is enclosed: no neighbor of the
    cat is connected to the escape node through unblocked spots. *)
Theorem moveCat_win_iff_enclosed bi b u w c :
  boards w !! bi = Some b → wf_board w bi b → cat b = Some c →
  spot_adjacent w c ≠ [] →
  announced (moveCat bi u w).1 = announced w ++ [win] ↔ enclosed w c.
Proof.
  intros Hb Hwf Hc Hadj.
  destruct (nextStepForCat_selects bi b u w c Hwf Hc Hadj)
    as (move & Hnext & _ & Hmin & _).
  rewrite (moveCat_announces bi b u w _ move Hb Hnext).
  rewrite <-(neighbor_enclosed_iff bi b w c Hwf Hc), <-Hmin.
  repeat case_decide; split; intros Heq; try done.
  - by apply app_inv_head in Heq.
  - apply (f_equal length) in Heq. rewrite app_nil_r, length_app in Heq.
    simpl in Heq. lia.
Qed.

Lemma neighbor_ring_iff bi b w c :
  wf_board w bi b → cat b = Some c →
  Math_min (spot_distance (updateDistances (grid b) w) <$> spot_adjacent w c)
    = Fin 1 ↔
  ∃ r, r ∈ spot_adjacent w c ∧ r ∈ boundary_adjacent w ∧ open w r.
Proof.
  intros [Hgrid Hcat] Hc.
  destruct (Hgrid c (Hcat c Hc)) as (sc & Hsc & _ & Hclosed).
  assert (Hadj : ∀ r, r ∈ spot_adjacent w c → r ∈ grid_values (grid b)).
  { intros r Hr. apply Hclosed. unfold spot_adjacent in Hr.
    by rewrite Hsc in Hr. }
  set (w1 := updateDistances (grid b) w).
  split.
  - intros Hmin.
    assert (spot_distance w1 <$> spot_adjacent w c ≠ []) as Hne.
    { intros Hnil. by rewrite Hnil in Hmin. }
    apply Math_min_attained in Hne. rewrite Hmin in Hne.
    apply list_elem_of_fmap in Hne as (r & Hd & Hr).
    exists r. split; [done|].
    by apply (updateDistances_ring (grid b) w r (Hadj r Hr)).
  - intros (r & Hr & Hin & Ho).
    assert (spot_distance w1 r = Fin 1) as Hd.
    { by apply (updateDistances_ring (grid b) w r (Hadj r Hr)). }
    destruct (Math_min_le (spot_distance w1 <$> spot_adjacent w c) 1)
      as (k & Hk & Hle).
    { rewrite <-Hd. by apply list_elem_of_fmap_2. }
    rewrite Hk. f_equal.
    destruct k as [|k]; [|lia]. exfalso.
    assert (spot_distance w1 <$> spot_adjacent w c ≠ []) as Hne.
    { intros Hnil. by rewrite Hnil in Hk. }
    apply Math_min_attained in Hne. rewrite Hk in Hne.
    apply list_elem_of_fmap in Hne as (q & Hq & Hqin).
    by apply (updateDistances_ring (grid b) w q (Hadj q Hqin)).
Qed.

(** X6.  On a well-formed board whose cat has a neighbor, [moveCat]
    announces a loss exactly when some neighbor of the cat is an unblocked
    spot listed in [boundary.adjacent]. *)
Theorem moveCat_lose_iff_ring_neighbor bi b u w c :
  boards w !! bi = Some b → wf_board w bi b → cat b = Some c →
  spot_adjacent w c ≠ [] →
  announced (moveCat bi u w).1 = announced w ++ [lose] ↔
  ∃ r, r ∈ spot_adjacent w c ∧ r ∈ boundary_adjacent w ∧ open w r.
Proof.
  intros Hb Hwf Hc Hadj.
  destruct (nextStepForCat_selects bi b u w c Hwf Hc Hadj)
    as (move & Hnext & _ & Hmin & _).
  rewrite (moveCat_announces bi b u w _ move Hb Hnext).
  rewrite <-(neighbor_ring_iff bi b w c Hwf Hc), <-Hmin.
  repeat case_decide; split; intros Heq; try done; try congruence.
  - by apply app_inv_head in Heq.
  - apply (f_equal length) in Heq. rewrite app_nil_r, length_app in Heq.
    simpl in Heq. lia.
Qed.

(** X7.  [moveCat] moves the cat by at most one step: afterwards the cat
    of the board is where it was or on a spot of the old cat's [adjacent],
    and no other board is touched. *)
Theorem moveCat_one_step bi b u w :
  boards w !! bi = Some b →
  (∃ b', boards (moveCat bi u w).1 !! bi = Some b' ∧
     (cat b' = cat b ∨
      ∃ c move, cat b = Some c ∧ cat b' = Some move ∧
                move ∈ spot_adjacent w c)) ∧
  (∀ bj, bj ≠ bi → boards (moveCat bi u w).1 !! bj = boards w !! bj).
Proof.
  intros Hb. unfold moveCat. rewrite Hb.
  pose proof (nextStepForCat_world b u w) as Hw1.
  destruct (rest_fields _ _ (updateDistances_rest (grid b) w)) as (Hbo & _).
  rewrite <-Hw1 in Hbo.
  destruct (nextStepForCat b u w) as [w1 [[move|]|]] eqn:Hnext;
    cbn [fst] in *.
  2,3: (split; [exists b; rewrite Hbo; by auto | intros; by rewrite Hbo]).
  destruct (nextStepForCat_move _ _ _ _ _ Hnext) as (_ & c & Hc & Hmove).
  apply paths_of_subset in Hmove.
  rewrite (same_graph_adjacent w w1) in Hmove
    by (rewrite Hw1; apply updateDistances_same_graph).
  assert (Hmoved : ∀ w2,
    boards w2 = alter (set_cat (Some move)) bi (boards w1) →
    (∃ b', boards w2 !! bi = Some b' ∧
       (cat b' = cat b ∨
        ∃ c move, cat b = Some c ∧ cat b' = Some move ∧
                  move ∈ spot_adjacent w c)) ∧
    (∀ bj, bj ≠ bi → boards w2 !! bj = boards w !! bj)).
  { intros w2 ->. rewrite Hbo. split.
    - exists (set_cat (Some move) b).
      rewrite list_lookup_alter_eq, Hb. split; [done|]. right.
      by exists c, move.
    - intros bj Hne. by rewrite list_lookup_alter_ne. }
  repeat case_decide.
  - split; [exists b; cbn; rewrite Hbo; by auto | intros; cbn; by rewrite Hbo].
  - by apply (Hmoved (gameEnd lose
                (with_boards (alter (set_cat (Some move)) bi) w1))).
  - by apply (Hmoved (with_boards (alter (set_cat (Some move)) bi) w1)).
Qed.

(** X8.  In every store reached by building boards and clicking spots, a
    click on a spot of a board with at least one row and three columns
    never ends in an exception. *)
Theorem clicks_never_throw s sp b u w :
  reachable w → spots w !! s = Some sp → boards w !! board sp = Some b →
  roomy b → (handleClick s u w).2 = Return ().
Proof. apply handleClick_returns. Qed.

(** * The graph after construction *)

Lemma strip_fields o o' :
  strip <$> o' = strip <$> o →
  match o', o with
  | Some s', Some s =>
      adjacent s' = adjacent s ∧ x s' = x s ∧ y s' = y s ∧
      board s' = board s
  | None, None => True
  | _, _ => False
  end.
Proof.
  destruct o' as [s'|], o as [s|]; simpl; try done.
  intros [= Hs]. unfold strip in Hs.
  destruct s, s'; simpl in *. by simplify_eq.
Qed.

Lemma handleClick_adjacent s u w r :
  spot_adjacent (handleClick s u w).1 r = spot_adjacent w r.
Proof.
  destruct (handleClick_structure s u w) as (_ & Hsp & _).
  pose proof (strip_fields _ _ (Hsp r)) as Hf. unfold spot_adjacent.
  destruct (spots (handleClick s u w).1 !! r), (spots w !! r); try done.
  by destruct Hf as (-> & _).
Qed.

Lemma spot_adjacent_valid w a c :
  c ∈ spot_adjacent w a → a < length (spots w).
Proof.
  unfold spot_adjacent. destruct (spots w !! a) eqn:Ha.
  - intros _. by eapply lookup_lt_Some.
  - by intros ?%elem_of_nil.
Qed.

Lemma new_Board_adjacency_symmetric h w numBlocks ux uy draws st st' :
  new_Board h w numBlocks ux uy draws st = Some st' →
  adjacency_symmetric st → adjacency_symmetric st'.
Proof.
  intros Hnew Hsym a c Hc.
  destruct (new_Board_spec _ _ _ _ _ _ _ _ Hnew)
    as (_ & _ & _ & _ & Hold & Hcells & Hlen & _).
  set (base := length (spots st)) in *.
  assert (Hadj_old : ∀ r, r < base → spot_adjacent st' r = spot_adjacent st r).
  { intros r Hr. unfold spot_adjacent. by rewrite Hold. }
  destruct (decide (a < base)) as [Ha|Ha].
  - rewrite Hadj_old in Hc by done. apply Hsym in Hc.
    rewrite Hadj_old; [done|]. by eapply spot_adjacent_valid.
  - pose proof (spot_adjacent_valid _ _ _ Hc) as Hva. rewrite Hlen in Hva.
    assert (∃ i, a = base + i ∧ i < length (cells h w)) as (i & -> & Hi).
    { exists (a - base). lia. }
    destruct (lookup_lt_is_Some_2 (cells h w) i Hi) as [ca Hca].
    destruct (Hcells _ _ Hca) as (sa & Hsa & _ & _ & _ & Hadja & _).
    unfold spot_adjacent in Hc. rewrite Hsa, Hadja in Hc.
    assert (c ∈ grid_values (grid_of base (cells h w))) as Hcg.
    { apply list_elem_of_omap in Hc as (o & Ho & Hid). simpl in Hid. subst o.
      apply list_elem_of_fmap in Ho as (cc & Hget & _).
      by eapply grid_get_value. }
    rewrite grid_of_values in Hcg. apply elem_of_seq in Hcg.
    assert (∃ j, c = base + j ∧ j < length (cells h w)) as (j & -> & Hj).
    { exists (c - base). lia. }
    destruct (lookup_lt_is_Some_2 (cells h w) j Hj) as [cc Hcc].
    destruct (Hcells _ _ Hcc) as (sc & Hsc & _ & _ & _ & Hadjc & _).
    unfold spot_adjacent. rewrite Hsc, Hadjc.
    apply (elem_of_cands_grid base (cells h w) _ _ j cc) in Hc;
      [|apply NoDup_cells | done].
    apply (elem_of_cands_grid base (cells h w) _ _ i ca);
      [apply NoDup_cells | done |].
    by apply cand_coords_sym.
Qed.

Lemma reachable_adjacency_symmetric w :
  reachable w → adjacency_symmetric w.
Proof.
  induction 1 as [|w h wd nb ux uy draws w' _ IH Hnew|w s u _ IH].
  - intros a c Hc. by apply elem_of_nil in Hc.
  - by eapply new_Board_adjacency_symmetric.
  - intros a c. rewrite !handleClick_adjacent. apply IH.
Qed.

(** X9.  A click changes no link of the graph: the list of the escape
    node, the [adjacent] list, the coordinates and the board of every spot,
    and the height, width and grid of every board stay as they are (only
    [blocked], [distance] and [cat] change). *)
Theorem handleClick_keeps_graph s u w :
  boundary_adjacent (handleClick s u w).1 = boundary_adjacent w ∧
  length (spots (handleClick s u w).1) = length (spots w) ∧
  (∀ r sp, spots w !! r = Some sp →
     ∃ sp', spots (handleClick s u w).1 !! r = Some sp' ∧
            adjacent sp' = adjacent sp ∧ x sp' = x sp ∧ y sp' = y sp ∧
            board sp' = board sp) ∧
  length (boards (handleClick s u w).1) = length (boards w) ∧
  (∀ bj b, boards w !! bj = Some b →
     ∃ b', boards (handleClick s u w).1 !! bj = Some b' ∧
           grid b' = grid b ∧ height b' = height b ∧ width b' = width b).
Proof.
  destruct (handleClick_structure s u w) as (Hbd & Hsp & Hbo).
  assert (Hlen : length (boards (handleClick s u w).1) = length (boards w)).
  { unfold handleClick.
    destruct (spots w !! s) as [sp|]; [|done].
    destruct (boards w !! board sp) as [b|] eqn:Hb; [|done].
    destruct (bool_decide (cat b = Some s) || blocked sp); [done|].
    unfold moveCat. cbn [boards update_spot with_spots]. rewrite Hb.
    set (wb := update_spot s (set_blocked true) w).
    pose proof (nextStepForCat_world b u wb) as Hw1.
    destruct (rest_fields _ _ (updateDistances_rest (grid b) wb))
      as (Hbo1 & _).
    rewrite <-Hw1 in Hbo1.
    destruct (nextStepForCat b u wb) as [w1 [[move|]|]]; cbn [fst] in *;
      try (by rewrite Hbo1).
    repeat case_decide; cbn; rewrite ?length_alter; by rewrite Hbo1. }
  split_and!; [done | | | done |].
  - apply Nat.le_antisymm; apply Nat.nlt_ge; intros Hlt.
    + destruct (lookup_lt_is_Some_2 (spots (handleClick s u w).1)
                  (length (spots w))) as [sp Hs]; [done|].
      pose proof (strip_fields _ _ (Hsp (length (spots w)))) as Hf.
      rewrite Hs, (lookup_ge_None_2 (spots w)) in Hf; done.
    + destruct (lookup_lt_is_Some_2 (spots w)
                  (length (spots (handleClick s u w).1))) as [sp Hs];
        [done|].
      pose proof (strip_fields _ _
                    (Hsp (length (spots (handleClick s u w).1)))) as Hf.
      rewrite Hs, (lookup_ge_None_2 (spots (handleClick s u w).1)) in Hf;
        done.
  - intros r sp Hr. pose proof (strip_fields _ _ (Hsp r)) as Hf.
    rewrite Hr in Hf.
    destruct (spots (handleClick s u w).1 !! r) as [sp'|]; [|done].
    by exists sp'.
  - intros bj b Hb.
    destruct (lookup_lt_is_Some_2 (boards (handleClick s u w).1) bj)
      as [b' Hb'].
    { rewrite Hlen. by eapply lookup_lt_Some. }
    destruct (Hbo bj b' Hb') as (b0 & Hb0 & ? & ? & ? & _).
    exists b'. assert (b0 = b) as -> by congruence. done.
Qed.

(** With mutual neighborhoods the selected move is one hop closer. *)
Lemma nextStepForCat_down bi b u w c n :
  wf_board w bi b → adjacency_symmetric w → cat b = Some c →
  spot_distance (updateDistances (grid b) w) c = Fin (S (S n)) →
  ∃ move,
    nextStepForCat b u w =
      (updateDistances (grid b) w, Return (Some move)) ∧
    move ∈ spot_adjacent w c ∧
    spot_distance (updateDistances (grid b) w) move = Fin (S n).
Proof.
  intros Hwf Hsym Hc Hd. pose proof Hwf as [Hgrid Hcat].
  set (w1 := updateDistances (grid b) w) in *.
  pose proof (Hcat c Hc) as Hcg.
  destruct (Hgrid c Hcg) as (sc & Hsc & _ & Hclosed).
  assert (Hadj : ∀ r, r ∈ spot_adjacent w c → r ∈ grid_values (grid b)).
  { intros r Hr. apply Hclosed. unfold spot_adjacent in Hr.
    by rewrite Hsc in Hr. }
  destruct (updateDistances_predecessor (grid b) w c n Hcg Hd)
    as (p & Hcp & _ & _ & Hp).
  apply Hsym in Hcp.
  assert (spot_adjacent w c ≠ []) as Hne.
  { intros Hnil. rewrite Hnil in Hcp. by apply elem_of_nil in Hcp. }
  destruct (nextStepForCat_selects bi b u w c Hwf Hc Hne)
    as (move & Hnext & Hin & Hmin & _).
  exists move. split_and!; [done..|]. fold w1 in Hmin.
  destruct (Math_min_le (spot_distance w1 <$> spot_adjacent w c) (S n))
    as (k & Hk & Hle).
  { rewrite <-Hp. by apply list_elem_of_fmap_2. }
  rewrite Hmin, Hk. f_equal. apply Nat.le_antisymm; [done|].
  rewrite Hk in Hmin.
  assert (open w c) as Hoc.
  { apply (updateDistances_finite_open (grid b)); [done|]. fold w1.
    by rewrite Hd. }
  destruct (updateDistances_link (grid b) w move c k Hmin) as (j & Hj & Hle').
  - by eapply updateDistances_grid_finite_seen; [apply Hadj|].
  - by apply Hsym.
  - done.
  - fold w1 in Hj. assert (j = S (S n)) by congruence. lia.
Qed.

(** X10.  On a well-formed board with mutual neighborhoods, when the cat's
    own spot has distance [d + 1 >= 2] after the pass, the move policy
    returns a neighbor of the cat at distance exactly [d]: the cat comes
    one hop closer to the escape node. *)
Theorem nextStepForCat_descends bi b u w c n :
  wf_board w bi b → adjacency_symmetric w → cat b = Some c →
  spot_distance (updateDistances (grid b) w) c = Fin (S (S n)) →
  ∃ move,
    nextStepForCat b u w =
      (updateDistances (grid b) w, Return (Some move)) ∧
    move ∈ spot_adjacent w c ∧
    spot_distance (updateDistances (grid b) w) move = Fin (S n).
Proof. apply nextStepForCat_down. Qed.

(** * More on construction *)

(** X11.  The keys [`${x}-${y}`] of the grid object never collide: two
    pairs of integers with the same key are the same pair. *)
Theorem grid_key_injective (cx cy cx' cy' : Z) :
  key cx cy = key cx' cy' ↔ cx = cx' ∧ cy = cy'.
Proof.
  split; [apply key_inj | by intros [-> ->]].
Qed.

Lemma new_Board_lookup h w numBlocks ux uy draws st st' cx cy :
  new_Board h w numBlocks ux uy draws st = Some st' →
  let g := grid_of (length (spots st)) (cells h w) in
  (is_Some (grid_get g (key cx cy)) ↔ in_grid h w cx cy) ∧
  (∀ r, grid_get g (key cx cy) = Some r →
     length (spots st) ≤ r ∧
     ∃ sp, spots st' !! r = Some sp ∧ x sp = cx ∧ y sp = cy ∧
           board sp = length (boards st)).
Proof.
  intros Hnew g.
  destruct (new_Board_spec _ _ _ _ _ _ _ _ Hnew)
    as (_ & _ & _ & _ & _ & Hcells & _).
  split.
  - split.
    + intros [r Hr].
      apply (grid_of_get _ (cells h w) (cx, cy)) in Hr as (i & Hi & _);
        [|apply NoDup_cells].
      by eapply elem_of_cells, list_elem_of_lookup_2.
    + intros Hin. destruct (cells_lookup h w cx cy Hin) as [j Hj].
      exists (length (spots st) + j).
      apply (grid_of_get _ (cells h w) (cx, cy)); [apply NoDup_cells|].
      by exists j.
  - intros r Hr.
    apply (grid_of_get _ (cells h w) (cx, cy)) in Hr as (i & Hi & ->);
      [|apply NoDup_cells].
    split; [lia|].
    destruct (Hcells _ _ Hi) as (sp & Hsp & Hx & Hy & Hb & _).
    by exists sp.
Qed.

(** X12.  After construction, [grid[`${x}-${y}`]] is defined exactly for
    the coordinates inside the board other than (0,0) and (0,height-1),
    and the spot found there is a newly allocated one that carries these
    coordinates and points back to the new board. *)
Theorem new_Board_grid_lookup h w numBlocks ux uy draws st st' b cx cy :
  new_Board h w numBlocks ux uy draws st = Some st' →
  boards st' !! length (boards st) = Some b →
  (is_Some (grid_get (grid b) (key cx cy)) ↔ in_grid h w cx cy) ∧
  (∀ r, grid_get (grid b) (key cx cy) = Some r →
     length (spots st) ≤ r ∧
     ∃ sp, spots st' !! r = Some sp ∧ x sp = cx ∧ y sp = cy ∧
           board sp = length (boards st)).
Proof.
  intros Hnew Hb. rewrite (new_Board_last _ _ _ _ _ _ _ _ _ Hnew Hb).
  cbn [grid]. by eapply new_Board_lookup.
Qed.

Lemma length_coords h w :
  length (coords h w) = Z.to_nat h * Z.to_nat w.
Proof.
  unfold coords, zrange. rewrite <-(length_seqZ 0 h).
  induction (seqZ 0 h) as [|cy l IH]; [done|].
  rewrite bind_cons, length_app, IH, length_fmap, length_seqZ. simpl. lia.
Qed.

Lemma superfluous_spec h cx cy :
  superfluous h cx cy = true ↔ cx = 0%Z ∧ (cy = 0%Z ∨ cy = (h - 1)%Z).
Proof.
  unfold superfluous.
  rewrite andb_true_iff, orb_true_iff, !Z.eqb_eq. tauto.
Qed.

Lemma length_cells h w :
  (2 ≤ h)%Z → (1 ≤ w)%Z →
  Z.of_nat (length (cells h w)) = (h * w - 2)%Z.
Proof.
  intros Hh Hw.
  pose proof (filter_app_complement
                (λ c : Z * Z, superfluous h c.1 c.2 = false) (coords h w))
    as Hperm.
  apply Permutation_length in Hperm.
  rewrite length_app, length_coords in Hperm. fold (cells h w) in Hperm.
  assert (filter (λ c : Z * Z, ¬ superfluous h c.1 c.2 = false) (coords h w)
            ≡ₚ [(0, 0); (0, h - 1)]%Z) as Hout.
  { apply NoDup_Permutation.
    - apply NoDup_filter, NoDup_coords.
    - apply NoDup_cons. split; [|apply NoDup_singleton].
      intros [= ?]%list_elem_of_singleton. lia.
    - intros [cx cy]. rewrite list_elem_of_filter, elem_of_coords. simpl.
      rewrite not_false_iff_true, superfluous_spec.
      rewrite elem_of_cons, list_elem_of_singleton. split.
      + intros [[-> [-> | ->]] _]; auto.
      + intros [[= -> ->] | [= -> ->]]; split; auto; lia. }
  apply Permutation_length in Hout. simpl in Hout. nia.
Qed.

(** X13.  A board of at least two rows and one column gets
    [height * width - 2] spots: one for each coordinate but the two
    superfluous corners. *)
Theorem new_Board_spot_count h w numBlocks ux uy draws st st' b :
  new_Board h w numBlocks ux uy draws st = Some st' →
  boards st' !! length (boards st) = Some b →
  (2 ≤ h)%Z → (1 ≤ w)%Z →
  Z.of_nat (length (grid b)) = (h * w - 2)%Z ∧
  Z.of_nat (length (spots st')) =
    (Z.of_nat (length (spots st)) + (h * w - 2))%Z.
Proof.
  intros Hnew Hb Hh Hw. rewrite (new_Board_last _ _ _ _ _ _ _ _ _ Hnew Hb).
  cbn [grid].
  destruct (new_Board_spec _ _ _ _ _ _ _ _ Hnew)
    as (_ & _ & _ & _ & _ & _ & Hlen & _).
  pose proof (length_cells h w Hh Hw) as Hc.
  assert (length (grid_of (length (spots st)) (cells h w)) =
          length (cells h w)) as ->.
  { unfold grid_of. rewrite length_zip_with, length_fmap, length_seq. lia. }
  split; [done|]. rewrite Hlen. lia.
Qed.

(** X14.  Building a board leaves every spot and every board that was in
    the store as it is, announces nothing, and adds exactly one board. *)
Theorem new_Board_frame h w numBlocks ux uy draws st st' :
  new_Board h w numBlocks ux uy draws st = Some st' →
  (∀ r, r < length (spots st) → spots st' !! r = spots st !! r) ∧
  (∀ bj, bj < length (boards st) → boards st' !! bj = boards st !! bj) ∧
  length (boards st') = S (length (boards st)) ∧
  announced st' = announced st.
Proof.
  intros Hnew.
  destruct (new_Board_spec _ _ _ _ _ _ _ _ Hnew)
    as (Hbo & _ & Han & _ & Hold & _).
  split_and!; [done | | | done].
  - intros bj Hbj. rewrite Hbo. by apply lookup_app_l.
  - rewrite Hbo, length_app. simpl. lia.
Qed.

(** * Shape of the neighborhoods *)

Ltac distinct_pairs :=
  repeat (apply NoDup_cons_2;
          [rewrite ?not_elem_of_cons; split_and?;
             first [apply not_elem_of_nil | intros [=]; lia]|]);
  apply NoDup_nil_2.

Lemma NoDup_cand_coords cx cy : NoDup (cand_coords cx cy).
Proof. unfold cand_coords. case_match; distinct_pairs. Qed.

Lemma self_not_cand cx cy : (cx, cy) ∉ cand_coords cx cy.
Proof.
  unfold cand_coords.
  case_match; rewrite ?not_elem_of_cons; split_and?;
    first [apply not_elem_of_nil | intros [=]; lia].
Qed.

Lemma length_cand_coords cx cy : length (cand_coords cx cy) = 6.
Proof. unfold cand_coords. by case_match. Qed.

Lemma length_omap_id_le {A} (l : list (option A)) :
  length (omap id l) ≤ length l.
Proof. induction l as [|[a|] l IH]; csimpl; lia. Qed.

Lemma length_omap_id_all {A} (l : list (option A)) :
  (∀ o, o ∈ l → is_Some o) → length (omap id l) = length l.
Proof.
  induction l as [|o l IH]; intros Hall; [done|].
  destruct (Hall o) as [a ->]; [by left|]. simpl. f_equal.
  apply IH. intros o' Ho'. apply Hall. by right.
Qed.

Lemma NoDup_cands base cs cx cy :
  NoDup cs → NoDup (omap id (cands (grid_of base cs) cx cy)).
Proof.
  intros Hnd. unfold cands.
  pose proof (NoDup_cand_coords cx cy) as Hcc.
  induction (cand_coords cx cy) as [|c l IH]; [constructor|].
  apply NoDup_cons in Hcc as [Hc Hl]. rewrite fmap_cons. simpl.
  destruct (grid_get (grid_of base cs) (key c.1 c.2)) as [r|] eqn:Hr;
    simpl; [|by apply IH].
  apply NoDup_cons. split; [|by apply IH].
  intros (o & Ho & Hid)%list_elem_of_omap. simpl in Hid. subst o.
  apply list_elem_of_fmap in Ho as (c' & Hget & Hc').
  symmetry in Hget.
  apply (grid_of_get base cs c) in Hr as (i & Hi & ->); [|done].
  apply (grid_of_get base cs c') in Hget as (i' & Hi' & Heq); [|done].
  assert (i' = i) as -> by lia. congruence.
Qed.

Lemma self_not_in_cands base cs i c :
  NoDup cs → cs !! i = Some c →
  (base + i) ∉ omap id (cands (grid_of base cs) c.1 c.2).
Proof.
  intros Hnd Hi Hin.
  apply (elem_of_cands_grid base cs c.1 c.2 i c) in Hin; [|done..].
  destruct c. by apply self_not_cand in Hin.
Qed.

Lemma new_Board_grid_spot h w numBlocks ux uy draws st st' a :
  new_Board h w numBlocks ux uy draws st = Some st' →
  a ∈ grid_values (grid_of (length (spots st)) (cells h w)) →
  ∃ i c, a = length (spots st) + i ∧ cells h w !! i = Some c ∧
         spot_adjacent st' a =
         omap id (cands (grid_of (length (spots st)) (cells h w)) c.1 c.2).
Proof.
  intros Hnew Ha.
  destruct (new_Board_spec _ _ _ _ _ _ _ _ Hnew)
    as (_ & _ & _ & _ & _ & Hcells & _).
  rewrite grid_of_values in Ha. apply elem_of_seq in Ha.
  set (base := length (spots st)) in *.
  assert (∃ i, a = base + i ∧ i < length (cells h w)) as (i & -> & Hi).
  { exists (a - base). lia. }
  destruct (lookup_lt_is_Some_2 (cells h w) i Hi) as [c Hc].
  destruct (Hcells _ _ Hc) as (sa & Hsa & _ & _ & _ & Hadj & _).
  exists i, c. split_and!; [done..|].
  unfold spot_adjacent. by rewrite Hsa.
Qed.

(** X15.  After construction the [adjacent] list of a spot of the grid
    holds at most six spots, all of the same grid, none twice, and never
    the spot itself. *)
Theorem createGraph_adjacent_shape h w numBlocks ux uy draws st st' b a :
  new_Board h w numBlocks ux uy draws st = Some st' →
  boards st' !! length (boards st) = Some b →
  a ∈ grid_values (grid b) →
  length (spot_adjacent st' a) ≤ 6 ∧
  NoDup (spot_adjacent st' a) ∧
  (a ∉ spot_adjacent st' a) ∧
  ∀ c, c ∈ spot_adjacent st' a → c ∈ grid_values (grid b).
Proof.
  intros Hnew Hb. rewrite (new_Board_last _ _ _ _ _ _ _ _ _ Hnew Hb).
  cbn [grid]. intros Ha.
  destruct (new_Board_grid_spot _ _ _ _ _ _ _ _ _ Hnew Ha)
    as (i & c & -> & Hc & ->).
  split_and!.
  - etrans; [apply length_omap_id_le|].
    unfold cands. by rewrite length_fmap, length_cand_coords.
  - apply NoDup_cands, NoDup_cells.
  - apply self_not_in_cands; [apply NoDup_cells | done].
  - intros r (o & Ho & Hid)%list_elem_of_omap. simpl in Hid. subst o.
    apply list_elem_of_fmap in Ho as (cc & Hget & _).
    by eapply grid_get_value.
Qed.

(** X16.  A spot in column 2 to [width - 2] and row 1 to [height - 2] has
    exactly six neighbors. *)
Theorem createGraph_six_neighbors
    h w numBlocks ux uy draws st st' b cx cy a :
  new_Board h w numBlocks ux uy draws st = Some st' →
  boards st' !! length (boards st) = Some b →
  grid_get (grid b) (key cx cy) = Some a →
  (2 ≤ cx ≤ w - 2)%Z → (1 ≤ cy ≤ h - 2)%Z →
  length (spot_adjacent st' a) = 6.
Proof.
  intros Hnew Hb. rewrite (new_Board_last _ _ _ _ _ _ _ _ _ Hnew Hb).
  cbn [grid]. intros Ha Hcx Hcy.
  destruct (new_Board_grid_spot _ _ _ _ _ _ _ _ _ Hnew
              (grid_get_value _ _ _ Ha)) as (i & c & Heq & Hc & ->).
  apply (grid_of_get _ (cells h w) (cx, cy)) in Ha as (i' & Hi' & Ha);
    [|apply NoDup_cells].
  assert (i' = i) as -> by lia.
  assert (c = (cx, cy)) as -> by congruence. simpl.
  rewrite length_omap_id_all.
  { unfold cands. by rewrite length_fmap, length_cand_coords. }
  intros o (cc & -> & Hcc)%list_elem_of_fmap.
  destruct (cells_lookup h w cc.1 cc.2) as [j Hj].
  { unfold cand_coords in Hcc.
    case_match;
      repeat (apply elem_of_cons in Hcc as [->|Hcc]);
      try (by apply elem_of_nil in Hcc); simpl;
      (split_and!; [lia.. | apply superfluous_positive; lia]). }
  exists (length (spots st) + j).
  apply (grid_of_get _ (cells h w) cc); [apply NoDup_cells|].
  exists j. by destruct cc.
Qed.

(** * The initial blocks and the initial cat *)

Lemma spot_blocked_update_eq r w :
  is_Some (spots w !! r) →
  spot_blocked (update_spot r (set_blocked true) w) r = true.
Proof.
  intros [s Hs]. unfold spot_blocked.
  by rewrite spots_update_spot, decide_True, Hs.
Qed.

Lemma blocked_count_update_notin l r f w :
  r ∉ l → blocked_count l (update_spot r f w) = blocked_count l w.
Proof.
  unfold blocked_count. induction l as [|a l IH]; intros Hr; [done|].
  apply not_elem_of_cons in Hr as [Hne Hr].
  rewrite !filter_cons, spot_blocked_update_ne by done.
  case_decide; simpl; by rewrite IH.
Qed.

Lemma blocked_count_update l r w :
  NoDup l → r ∈ l → is_Some (spots w !! r) → spot_blocked w r = false →
  blocked_count l (update_spot r (set_blocked true) w) =
  S (blocked_count l w).
Proof.
  intros Hnd Hin Hs Hopen. induction l as [|a l IH].
  { by apply elem_of_nil in Hin. }
  apply NoDup_cons in Hnd as [Ha Hnd].
  destruct (decide (a = r)) as [->|Hne].
  - pose proof (blocked_count_update_notin l r (set_blocked true) w Ha)
      as Hrest.
    unfold blocked_count in *. rewrite !filter_cons.
    rewrite spot_blocked_update_eq, Hopen by done.
    rewrite decide_True, decide_False by done. simpl. by rewrite Hrest.
  - apply elem_of_cons in Hin as [->|Hin]; [done|].
    specialize (IH Hnd Hin).
    unfold blocked_count in *. rewrite !filter_cons.
    rewrite spot_blocked_update_ne by done.
    case_decide; simpl; by rewrite IH.
Qed.

Lemma blocked_count_zero l w :
  (∀ r, r ∈ l → spot_blocked w r = false) → blocked_count l w = 0.
Proof.
  unfold blocked_count. induction l as [|a l IH]; intros Hall; [done|].
  rewrite filter_cons, (Hall a) by by left.
  rewrite decide_False by done. apply IH. intros r Hr. apply Hall. by right.
Qed.

Lemma blocked_count_le l w : blocked_count l w ≤ length l.
Proof. apply length_filter. Qed.

(** The loop blocks exactly [numBlocks - i] further spots. *)
Lemma setInitialBlocks_count draws numBlocks i g h w c st st' :
  setInitialBlocks draws numBlocks i g h w c st = Some st' →
  NoDup (grid_values g) →
  (∀ r, r ∈ grid_values g → is_Some (spots st !! r)) →
  Z.of_nat (blocked_count (grid_values g) st') =
  (Z.of_nat (blocked_count (grid_values g) st) + Z.max 0 (numBlocks - i))%Z.
Proof.
  intros Hrun Hnd. revert i st Hrun.
  induction draws as [|d draws IH]; intros i st; simpl.
  { destruct (Z.ltb_spec i numBlocks); [done|]. intros [= <-] _. lia. }
  destruct (Z.ltb_spec i numBlocks) as [Hlt|Hge];
    [|intros [= <-] _; lia].
  destruct (block_target g h w d) as [r|] eqn:Ht; [|by apply IH].
  destruct (negb (spot_blocked st r) && negb (bool_decide (c = Some r)))
    eqn:Hcond; [|by apply IH].
  apply andb_prop in Hcond as [Hopen%negb_true_iff _].
  intros Hrec Hall.
  pose proof (block_target_grid g h w d r Ht) as Hr.
  rewrite (IH _ _ Hrec).
  - rewrite blocked_count_update by auto. lia.
  - intros r' Hr'. rewrite spots_update_spot.
    case_decide; [subst; by apply fmap_is_Some, Hall | by apply Hall].
Qed.

(** Every spot the loop blocks was the target of one of its rounds. *)
Lemma setInitialBlocks_blocked draws numBlocks i g h w c st st' r :
  setInitialBlocks draws numBlocks i g h w c st = Some st' →
  spot_blocked st' r = true →
  spot_blocked st r = true ∨
  ∃ d, d ∈ draws ∧ block_target g h w d = Some r.
Proof.
  revert i st. induction draws as [|d draws IH]; intros i st; simpl.
  { destruct (i <? numBlocks)%Z; [done|]. intros [= <-]. by left. }
  destruct (i <? numBlocks)%Z; [|intros [= <-]; by left].
  assert (Hnext : ∀ j, setInitialBlocks draws numBlocks j g h w c st =
                       Some st' → spot_blocked st' r = true →
            spot_blocked st r = true ∨
            ∃ d0, d0 ∈ d :: draws ∧ block_target g h w d0 = Some r).
  { intros j Hrec Hb. destruct (IH _ _ Hrec Hb) as [?|(d0 & ? & ?)];
      [by left | right; exists d0; split; [by right | done]]. }
  destruct (block_target g h w d) as [r0|] eqn:Ht; [|by apply Hnext].
  destruct (negb (spot_blocked st r0) && negb (bool_decide (c = Some r0)));
    [|by apply Hnext].
  intros Hrec Hb. destruct (IH _ _ Hrec Hb) as [Hold|(d0 & ? & ?)].
  - destruct (decide (r0 = r)) as [->|Hne].
    + right. exists d. split; [by left | done].
    + left. by rewrite spot_blocked_update_ne in Hold.
  - right. exists d0. split; [by right | done].
Qed.

Lemma quarter_range n u : (1 ≤ n)%Z → (0 ≤ quarter n u ∧ 4 * quarter n u < n)%Z.
Proof.
  intros Hn. unfold quarter. pose proof (rand_range u) as Hr.
  apply andb_prop in Hr as [H0%Z.leb_le Hlt%Z.ltb_lt].
  split; [apply Z.div_pos; nia|].
  pose proof (Z.mul_div_le (num u * n) (4 * den u) ltac:(lia)). nia.
Qed.

Lemma block_target_corner base h w d r :
  block_target (grid_of base (cells h w)) h w d = Some r →
  ∃ i cx cy, r = base + i ∧ cells h w !! i = Some (cx, cy) ∧
             in_quarter w cx ∧ in_quarter h cy.
Proof.
  unfold block_target.
  set (cx := if rand_coin (draw_x d) then _ else _).
  set (cy := if rand_coin (draw_y d) then _ else _).
  intros Hget.
  apply (grid_of_get base (cells h w) (cx, cy)) in Hget as (i & Hi & ->);
    [|apply NoDup_cells].
  exists i, cx, cy. split_and!; [done..| |].
  - apply list_elem_of_lookup_2, elem_of_cells in Hi as (Hx & Hy & _).
    pose proof (quarter_range w (draw_dx d) ltac:(lia)).
    split; [done|]. unfold cx. destruct (rand_coin (draw_x d)); lia.
  - apply list_elem_of_lookup_2, elem_of_cells in Hi as (Hx & Hy & _).
    pose proof (quarter_range h (draw_dy d) ltac:(lia)).
    split; [done|]. unfold cy. destruct (rand_coin (draw_y d)); lia.
Qed.

(** The constructor's steps, made explicit: the fresh spots as
    [createGraph] leaves them, and the run of [setInitialBlocks]. *)
Lemma new_Board_blocks h w numBlocks ux uy draws st st' :
  new_Board h w numBlocks ux uy draws st = Some st' →
  let base := length (spots st) in
  let g := grid_of base (cells h w) in
  ∃ st1 st2,
    setInitialBlocks draws numBlocks 0 g h w (setInitialCat g h w ux uy) st1
      = Some st2 ∧
    spots st' = spots st2 ∧
    ∀ r, r ∈ grid_values g →
         ∃ s, spots st1 !! r = Some s ∧ blocked s = false.
Proof.
  unfold new_Board. rewrite make_grid_spec. cbn [fst snd].
  assert (Hsp0 : spots (assert_odd h w st) = spots st).
  { unfold assert_odd. by case_match. }
  rewrite Hsp0. intros Hnew.
  set (base := length (spots st)) in *.
  set (g := grid_of base (cells h w)) in *.
  set (sti := with_spots _ _) in Hnew.
  set (st1 := createGraph g h w sti) in Hnew.
  destruct (setInitialBlocks draws numBlocks 0 g h w
              (setInitialCat g h w ux uy) st1) as [st2|] eqn:Hblocks;
    [|done].
  injection Hnew as <-. exists st1, st2. split_and!; [done..|].
  intros r Hr.
  destruct (createGraph_fold g h w (grid_values g) sti) as (Hsp1 & _).
  fold (createGraph g h w sti) in Hsp1. fold st1 in Hsp1.
  rewrite Hsp1, decide_True by done.
  unfold g in Hr. rewrite grid_of_values in Hr. apply elem_of_seq in Hr.
  unfold sti, with_spots; simpl.
  rewrite lookup_app_r by (unfold base in *; lia).
  unfold spots_of. rewrite list_lookup_fmap.
  destruct (lookup_lt_is_Some_2 (cells h w) (r - length (spots st)))
    as [c ->]; [unfold base in *; lia|].
  simpl. by eexists.
Qed.

(** X17.  When the constructor returns, exactly [numBlocks] spots of the
    new board are blocked (none when [numBlocks] is negative). *)
Theorem setInitialBlocks_blocks_numBlocks
    h w numBlocks ux uy draws st st' b :
  new_Board h w numBlocks ux uy draws st = Some st' →
  boards st' !! length (boards st) = Some b →
  blocked_count (grid_values (grid b)) st' = Z.to_nat numBlocks.
Proof.
  intros Hnew Hb. rewrite (new_Board_last _ _ _ _ _ _ _ _ _ Hnew Hb).
  cbn [grid].
  destruct (new_Board_blocks _ _ _ _ _ _ _ _ Hnew)
    as (st1 & st2 & Hrun & Hsp & Hfresh).
  set (g := grid_of (length (spots st)) (cells h w)) in *.
  assert (Hcount : ∀ wa wb, spots wa = spots wb →
            blocked_count (grid_values g) wa =
            blocked_count (grid_values g) wb).
  { intros wa wb Heq. unfold blocked_count, spot_blocked. by rewrite Heq. }
  rewrite (Hcount st' st2 Hsp).
  assert (Hnd : NoDup (grid_values g)).
  { unfold g. rewrite grid_of_values. apply NoDup_seq. }
  pose proof (setInitialBlocks_count _ _ _ _ _ _ _ _ _ Hrun Hnd) as Hc.
  assert (blocked_count (grid_values g) st1 = 0) as Hzero.
  { apply blocked_count_zero. intros r Hr.
    destruct (Hfresh r Hr) as (s & Hs & Hopen).
    unfold spot_blocked. by rewrite Hs. }
  rewrite Hzero in Hc.
  assert (Hall : ∀ r, r ∈ grid_values g → is_Some (spots st1 !! r)).
  { intros r Hr. destruct (Hfresh r Hr) as (s & -> & _). by eexists. }
  specialize (Hc Hall). lia.
Qed.

(** X18.  Asked for more blocks than the board has spots, the constructor
    never returns, whatever numbers [Math.random] draws: the loop of
    [setInitialBlocks] uses up every supply of draws. *)
Theorem setInitialBlocks_too_many h w numBlocks ux uy draws st :
  (2 ≤ h)%Z → (1 ≤ w)%Z → (h * w - 2 < numBlocks)%Z →
  new_Board h w numBlocks ux uy draws st = None.
Proof.
  intros Hh Hw Hmany.
  destruct (new_Board h w numBlocks ux uy draws st) as [st'|] eqn:Hnew;
    [exfalso|done].
  destruct (new_Board_blocks _ _ _ _ _ _ _ _ Hnew)
    as (st1 & st2 & Hrun & Hsp & Hfresh).
  set (g := grid_of (length (spots st)) (cells h w)) in *.
  assert (Hnd : NoDup (grid_values g)).
  { unfold g. rewrite grid_of_values. apply NoDup_seq. }
  assert (Hall : ∀ r, r ∈ grid_values g → is_Some (spots st1 !! r)).
  { intros r Hr. destruct (Hfresh r Hr) as (s & -> & _). by eexists. }
  pose proof (setInitialBlocks_count _ _ _ _ _ _ _ _ _ Hrun Hnd Hall) as Hc.
  pose proof (blocked_count_le (grid_values g) st2) as Hle.
  unfold g in Hle at 2. rewrite grid_of_values, length_seq in Hle.
  pose proof (length_cells h w Hh Hw). lia.
Qed.

(** X19.  Every spot that is blocked when the constructor returns lies in
    a corner region of the board: its column is in the first or the last
    quarter of the columns, and its row in the first or the last quarter of
    the rows. *)
Theorem setInitialBlocks_in_corners
    h w numBlocks ux uy draws st st' b cx cy r :
  new_Board h w numBlocks ux uy draws st = Some st' →
  boards st' !! length (boards st) = Some b →
  grid_get (grid b) (key cx cy) = Some r →
  spot_blocked st' r = true →
  in_quarter w cx ∧ in_quarter h cy.
Proof.
  intros Hnew Hb. rewrite (new_Board_last _ _ _ _ _ _ _ _ _ Hnew Hb).
  cbn [grid]. intros Hget Hblocked.
  destruct (new_Board_blocks _ _ _ _ _ _ _ _ Hnew)
    as (st1 & st2 & Hrun & Hsp & Hfresh).
  set (g := grid_of (length (spots st)) (cells h w)) in *.
  assert (spot_blocked st2 r = true) as Hb2.
  { unfold spot_blocked in *. by rewrite <-Hsp. }
  destruct (setInitialBlocks_blocked _ _ _ _ _ _ _ _ _ r Hrun Hb2)
    as [Hold|(d & _ & Ht)].
  - destruct (Hfresh r (grid_get_value _ _ _ Hget)) as (s & Hs & Hopen).
    unfold spot_blocked in Hold. rewrite Hs in Hold. congruence.
  - apply block_target_corner in Ht as (i & cx' & cy' & Hr & Hi & Hq).
    apply (grid_of_get _ (cells h w) (cx, cy)) in Hget as (i' & Hi' & Hr');
      [|apply NoDup_cells].
    assert (i' = i) as -> by lia.
    assert (cx' = cx ∧ cy' = cy) as [-> ->] by (split; congruence).
    done.
Qed.

Lemma middle_in_middle n u :
  (1 ≤ n ≤ 2 ^ 49)%Z → in_middle n (middle n u).
Proof.
  intros [Hn Hbig]. unfold in_middle, middle. split.
  - destruct (Z.le_gt_cases (2 * n / 5) 0) as [Hsmall|Hpos].
    + pose proof (middle_range n u Hn) as [H0 _]. unfold middle in H0.
      pose proof (Z.mul_succ_div_gt (2 * n) 5 ltac:(lia)). lia.
    + pose proof (Z.mul_div_le (2 * n) 5 ltac:(lia)) as Hle.
      pose proof (Z.mul_succ_div_gt (2 * n) 5 ltac:(lia)) as Hgt.
      assert (2 * n / 5 ≤
              Qfloor (fl (fl (inject_Z n / (5 # 2)) +
                          fl (rand_Q u * fl (inject_Z n / 5)))))%Z.
      { apply Qfloor_ge, middle_sum_lower; [|lia].
        change (2 ^ 49)%Z with 562949953421312%Z in Hbig.
        change (2 ^ 53)%Z with 9007199254740992%Z. lia. }
      lia.
  - pose proof (middle_sum_upper n u Hn) as Hs.
    pose proof (Qfloor_le (fl (fl (inject_Z n / (5 # 2)) +
                               fl (rand_Q u * fl (inject_Z n / 5))))) as Hf.
    set (c := Qfloor _) in *.
    rewrite Zle_Qle in Hn, Hbig.
    change (inject_Z 1) with 1%Q in Hn.
    change (inject_Z (2 ^ 49)) with (562949953421312 # 1)%Q in Hbig.
    assert (inject_Z (5 * c) < inject_Z (3 * n + 1))%Q as Hlt.
    { rewrite inject_Z_plus, !inject_Z_mult.
      change (inject_Z 5) with 5%Q. change (inject_Z 3) with 3%Q.
      change (inject_Z 1) with 1%Q. lra. }
    rewrite <-Zlt_Qlt in Hlt. lia.
Qed.

(** The rounded sum reaches [3 n / 5], which the exact sum stays below:
    on a board of five columns the draw [1 - 2 ^ -52] puts the cat in
    column 3. *)
Lemma middle_reaches_three_fifths :
  middle 5 (fraction (2 ^ 52 - 1) (2 ^ 52)) = 3%Z.
Proof. vm_compute. reflexivity. Qed.

(** X20.  When the constructor has placed the cat on a board of at most
    [2 ^ 49] columns and rows, the cat's spot belongs to the new board and
    its column and row lie in the middle band, from two fifths to three
    fifths of the width and of the height, both rounded down. *)
Theorem setInitialCat_in_middle h w numBlocks ux uy draws st st' b c :
  new_Board h w numBlocks ux uy draws st = Some st' →
  boards st' !! length (boards st) = Some b →
  cat b = Some c →
  (w ≤ 2 ^ 49)%Z → (h ≤ 2 ^ 49)%Z →
  ∃ sp, spots st' !! c = Some sp ∧ board sp = length (boards st) ∧
        in_middle w (x sp) ∧ in_middle h (y sp).
Proof.
  intros Hnew Hb. rewrite (new_Board_last _ _ _ _ _ _ _ _ _ Hnew Hb).
  cbn [cat]. unfold setInitialCat. intros Hget Hw Hh.
  destruct (new_Board_lookup _ _ _ _ _ _ _ _ (middle w ux) (middle h uy) Hnew)
    as [Hin Hsp].
  destruct (Hsp c Hget) as (_ & sp & Hs & Hx & Hy & Hbd).
  assert (in_grid h w (middle w ux) (middle h uy)) as (Hcx & Hcy & _).
  { apply Hin. by eexists. }
  exists sp. rewrite Hx, Hy. split_and!; [done..| |];
    apply middle_in_middle; lia.
Qed.

(** * The escape node's list on the first board *)

(** X21.  On a page whose escape node has no neighbor yet, building a
    board puts every spot of its outer ring in [boundary.adjacent] exactly
    once, and no other spot. *)
Theorem createGraph_ring_exactly_once h w numBlocks ux uy draws st st' b :
  boundary_adjacent st = [] →
  new_Board h w numBlocks ux uy draws st = Some st' →
  boards st' !! length (boards st) = Some b →
  NoDup (boundary_adjacent st') ∧
  ∀ r, r ∈ boundary_adjacent st' ↔
       r ∈ grid_values (grid b) ∧ border h w st' r = true.
Proof. apply first_Board_boundary. Qed.

(** * More on the move policy and the clicks *)

Lemma rand_index_exact (i n : nat)
    (H : ((0 <=? Z.of_nat i) && (Z.of_nat i <? Z.of_nat n))%Z = true) :
  rand_index {| num := Z.of_nat i; den := Z.of_nat n; rand_range := H |} n = i.
Proof.
  unfold rand_index. simpl.
  apply andb_prop in H as [_ Hlt%Z.ltb_lt].
  rewrite Z.div_mul by lia. lia.
Qed.

(** X22.  The random choice can fall on every candidate: each neighbor of
    the cat whose distance is the least among the neighbors is returned by
    [nextStepForCat] for some value of [Math.random()]. *)
Theorem nextStepForCat_any_candidate b w c r :
  cat b = Some c →
  r ∈ spot_adjacent w c →
  spot_distance (updateDistances (grid b) w) r =
    Math_min (spot_distance (updateDistances (grid b) w) <$>
              spot_adjacent w c) →
  ∃ u, nextStepForCat b u w =
       (updateDistances (grid b) w, Return (Some r)).
Proof.
  intros Hc Hr Hmin. unfold nextStepForCat. rewrite Hc.
  set (w1 := updateDistances (grid b) w) in *.
  rewrite (same_graph_adjacent w w1) by apply updateDistances_same_graph.
  assert (r ∈ paths_of w1 (spot_adjacent w c)) as Hin.
  { unfold paths_of. by apply list_elem_of_filter. }
  apply list_elem_of_lookup_1 in Hin as [i Hi].
  pose proof (lookup_lt_Some _ _ _ Hi) as Hlt.
  set (n := length (paths_of w1 (spot_adjacent w c))) in *.
  assert (((0 <=? Z.of_nat i) && (Z.of_nat i <? Z.of_nat n))%Z = true)
    as Hrange.
  { apply andb_true_intro. split; [apply Z.leb_le | apply Z.ltb_lt]; lia. }
  exists {| num := Z.of_nat i; den := Z.of_nat n; rand_range := Hrange |}.
  by rewrite rand_index_exact, Hi.
Qed.

Lemma handleClick_blocked s u w r :
  (spot_blocked w r = true → spot_blocked (handleClick s u w).1 r = true) ∧
  (spot_blocked (handleClick s u w).1 r = true →
   spot_blocked w r = true ∨ r = s).
Proof.
  unfold handleClick.
  destruct (spots w !! s) as [sp|] eqn:Hs; [|by auto].
  destruct (boards w !! board sp) as [b|]; [|by auto].
  destruct (bool_decide (cat b = Some s) || blocked sp); [by auto|].
  set (wb := update_spot s (set_blocked true) w).
  rewrite (same_graph_blocked wb (moveCat (board sp) u wb).1 r
             (moveCat_same_graph _ _ _)).
  destruct (decide (s = r)) as [->|Hne].
  - split; [|by auto]. intros _. apply spot_blocked_update_eq. by eexists.
  - unfold wb. rewrite spot_blocked_update_ne by done. by auto.
Qed.

(** X23.  Blocks are permanent: along any sequence of clicks a blocked
    spot stays blocked, and the spots that become blocked are among the
    clicked ones. *)
Theorem play_blocks_permanent clicks w r :
  (spot_blocked w r = true → spot_blocked (play clicks w) r = true) ∧
  (spot_blocked (play clicks w) r = true →
   spot_blocked w r = true ∨ r ∈ clicks.*1).
Proof.
  unfold play. revert w.
  induction clicks as [|[s u] clicks IH]; intros w; simpl.
  { by auto. }
  destruct (IH (handleClick s u w).1) as [IH1 IH2].
  destruct (handleClick_blocked s u w r) as [H1 H2].
  split; [by auto|].
  intros [Hb|Hin]%IH2.
  - destruct (H2 Hb) as [?| ->]; [by left | right; by left].
  - right. by right.
Qed.

Lemma announced_kept (a a' : list Outcome) :
  a' = a → ∃ l, a' = a ++ l ∧ length l ≤ 1.
Proof. intros ->. exists []. rewrite app_nil_r. simpl. split; [done|lia]. Qed.

Lemma moveCat_announces_once bi u w :
  ∃ l, announced (moveCat bi u w).1 = announced w ++ l ∧ length l ≤ 1.
Proof.
  unfold moveCat. destruct (boards w !! bi) as [b|] eqn:Hb.
  2:{ by apply announced_kept. }
  pose proof (nextStepForCat_world b u w) as Hw1.
  destruct (rest_fields _ _ (updateDistances_rest (grid b) w))
    as (_ & _ & _ & Han).
  rewrite <-Hw1 in Han.
  destruct (nextStepForCat b u w) as [w1 [[move|]|]]; simpl in *;
    try by apply announced_kept.
  repeat case_decide; simpl; rewrite Han.
  - exists [win]. simpl. split; [done|lia].
  - exists [lose]. simpl. split; [done|lia].
  - by apply announced_kept.
Qed.

(** X24.  A click never retracts an announcement and makes at most one:
    the record of the calls of [gameEnd] grows by no or one entry. *)
Theorem handleClick_announces_at_most_once s u w :
  ∃ l, announced (handleClick s u w).1 = announced w ++ l ∧ length l ≤ 1.
Proof.
  unfold handleClick.
  destruct (spots w !! s) as [sp|]; [|by apply announced_kept].
  destruct (boards w !! board sp) as [b|]; [|by apply announced_kept].
  destruct (bool_decide (cat b = Some s) || blocked sp);
    [by apply announced_kept|].
  apply (moveCat_announces_once (board sp) u
           (update_spot s (set_blocked true) w)).
Qed.

(** X25.  The distance engine writes [distance] fields only: the boards,
    the list of the escape node, the console, the announcements, and the
    position, the flag and the neighbors of every spot are as before. *)
Theorem updateDistances_writes_distances_only g w :
  rest (updateDistances g w) = rest w ∧
  length (spots (updateDistances g w)) = length (spots w) ∧
  ∀ r, spot_blocked (updateDistances g w) r = spot_blocked w r ∧
       spot_adjacent (updateDistances g w) r = spot_adjacent w r ∧
       strip <$> spots (updateDistances g w) !! r = strip <$> spots w !! r.
Proof.
  pose proof (updateDistances_same_graph g w) as Hg.
  pose proof (updateDistances_layout g w) as Hl.
  split_and!.
  - apply updateDistances_rest.
  - by apply same_layout_length.
  - intros r. split_and!.
    + by apply same_graph_blocked.
    + by apply same_graph_adjacent.
    + by destruct Hl as (_ & _ & _ & _ & Hs).
Qed.

(** * Drawing *)

(** X26.  In every store reached by building boards and clicking spots,
    [draw] never gives a circle both the class [blocked] and the class
    [cat]. *)
Theorem draw_never_blocked_cat drawCat s w :
  reachable w → draw drawCat s w ≠ Some "spot blocked cat".
Proof.
  intros Hreach. destruct (reachable_well_formed w Hreach) as [_ Hfree].
  unfold draw. destruct (spots w !! s) as [sp|] eqn:Hs; [|done].
  destruct (blocked sp) eqn:Hblocked.
  - destruct (drawCat && is_cat w s sp) eqn:Hcat; [|done].
    apply andb_prop in Hcat as [_ Hcat]. unfold is_cat in Hcat.
    destruct (boards w !! board sp) as [b|] eqn:Hb; [|done].
    apply bool_decide_eq_true in Hcat.
    destruct (Hfree _ _ _ Hb Hcat) as (sp' & Hs' & Hopen). congruence.
  - by destruct (drawCat && is_cat w s sp).
Qed.

(** X27.  The circles of two different spots never overlap: their centers
    are at least two radii apart. *)
Theorem circles_do_not_overlap (x1 y1 x2 y2 : Z) :
  (x1, y1) ≠ (x2, y2) →
  ((2 * circle_r) ^ 2 ≤
   (circle_cx x1 y1 - circle_cx x2 y2) ^ 2 +
   (circle_cy y1 - circle_cy y2) ^ 2)%Z.
Proof.
  intros Hne. unfold circle_cx, circle_cy, circle_r.
  destruct (decide (y1 = y2)) as [->|Hy].
  - assert (x1 ≠ x2) by congruence.
    destruct (Z.rem y2 2 =? 0)%Z; nia.
  - destruct (Z.rem y1 2 =? 0)%Z, (Z.rem y2 2 =? 0)%Z; nia.
Qed.

(** X28.  The circle of every spot of the grid lies inside the SVG area
    the constructor sets up. *)
Theorem circles_inside_board h w cx cy :
  in_grid h w cx cy →
  (0 ≤ circle_cx cx cy - circle_r ∧
   circle_cx cx cy + circle_r ≤ svg_width w ∧
   0 ≤ circle_cy cy - circle_r ∧
   circle_cy cy + circle_r ≤ svg_height h)%Z.
Proof.
  intros (Hx & Hy & _).
  unfold circle_cx, circle_cy, circle_r, svg_width, svg_height.
  destruct (Z.rem cy 2 =? 0)%Z; lia.
Qed.


(** * The added properties on the sample game *)

Lemma wf_board_sample_loaded : wf_board sample_loaded 0 sample_board.
Proof.
  apply (proj1 (reachable_well_formed _ reachable_sample_loaded)).
  exact sample_board_eq.
Qed.

Lemma sample_cornered_board :
  boards sample_cornered !! 0 = Some (set_cat (Some 9) sample_board).
Proof. vm_compute. reflexivity. Qed.

Lemma sample_trapped_board :
  boards sample_trapped !! 0 = Some (set_cat (Some 9) sample_board).
Proof. vm_compute. reflexivity. Qed.

Lemma sample_loaded_first :
  boards sample_loaded !! length (boards empty_World) = Some sample_board.
Proof. vm_compute. reflexivity. Qed.

Lemma sample_center_distance :
  spot_distance (updateDistances (grid sample_board) sample_loaded) 59 =
  Fin 6.
Proof. vm_compute. reflexivity. Qed.

(** X3 for the cat's spot of the freshly loaded sample game. *)
Lemma updateDistances_distance_one_witness :
  59 ∈ grid_values (grid sample_board) ∧
  (spot_distance (updateDistances (grid sample_board) sample_loaded) 59
     ≠ Fin 0 ∧
   (spot_distance (updateDistances (grid sample_board) sample_loaded) 59
      = Fin 1 ↔
    59 ∈ boundary_adjacent sample_loaded ∧ open sample_loaded 59)).
Proof.
  assert (H : 59 ∈ grid_values (grid sample_board)) by by_computation.
  split; [exact H|].
  exact (updateDistances_distance_one (grid sample_board) sample_loaded 59 H).
Defined.

(** X4 for the cat's spot of the freshly loaded sample game, six hops from
    the escape node. *)
Lemma updateDistances_labels_chain_witness :
  let w1 := updateDistances (grid sample_board) sample_loaded in
  59 ∈ grid_values (grid sample_board) ∧
  spot_distance w1 59 = Fin 6 ∧
  ((∃ p, 59 ∈ spot_adjacent sample_loaded p ∧ open sample_loaded p ∧
         spot_distance w1 p = Fin 5) ∧
   (∀ q, q ∈ spot_adjacent sample_loaded 59 → open sample_loaded q →
         ∃ k, spot_distance w1 q = Fin k ∧ k ≤ 7)).
Proof.
  intros w1.
  assert (H1 : 59 ∈ grid_values (grid sample_board)) by by_computation.
  assert (H2 : spot_distance w1 59 = Fin 6) by exact sample_center_distance.
  split; [exact H1|]. split; [exact H2|].
  exact (updateDistances_labels_chain (grid sample_board) sample_loaded 59 4
           H1 H2).
Defined.

(** X5 for the cat trapped in the corner of the sample game. *)
Lemma moveCat_win_iff_enclosed_witness :
  let b := set_cat (Some 9) sample_board in
  boards sample_trapped !! 0 = Some b ∧
  wf_board sample_trapped 0 b ∧
  cat b = Some 9 ∧
  spot_adjacent sample_trapped 9 ≠ [] ∧
  (announced (moveCat 0 one_half sample_trapped).1 =
     announced sample_trapped ++ [win] ↔ enclosed sample_trapped 9).
Proof.
  intros b.
  assert (H1 : boards sample_trapped !! 0 = Some b)
    by exact sample_trapped_board.
  assert (H2 : wf_board sample_trapped 0 b)
    by exact (wf_store_sample_trapped 0 b H1).
  assert (H3 : cat b = Some 9) by reflexivity.
  assert (H4 : spot_adjacent sample_trapped 9 ≠ []) by by_computation.
  split; [exact H1|]. split; [exact H2|]. split; [exact H3|].
  split; [exact H4|].
  exact (moveCat_win_iff_enclosed 0 b one_half sample_trapped 9 H1 H2 H3 H4).
Defined.

(** X6 for the cat in the corner of the sample game. *)
Lemma moveCat_lose_iff_ring_neighbor_witness :
  let b := set_cat (Some 9) sample_board in
  boards sample_cornered !! 0 = Some b ∧
  wf_board sample_cornered 0 b ∧
  cat b = Some 9 ∧
  spot_adjacent sample_cornered 9 ≠ [] ∧
  (announced (moveCat 0 one_half sample_cornered).1 =
     announced sample_cornered ++ [lose] ↔
   ∃ r, r ∈ spot_adjacent sample_cornered 9 ∧
        r ∈ boundary_adjacent sample_cornered ∧ open sample_cornered r).
Proof.
  intros b.
  assert (H1 : boards sample_cornered !! 0 = Some b)
    by exact sample_cornered_board.
  assert (H2 : wf_board sample_cornered 0 b)
    by exact (proj1 (reachable_well_formed _ reachable_sample_cornered)
                0 b H1).
  assert (H3 : cat b = Some 9) by reflexivity.
  assert (H4 : spot_adjacent sample_cornered 9 ≠ []) by by_computation.
  split; [exact H1|]. split; [exact H2|]. split; [exact H3|].
  split; [exact H4|].
  exact (moveCat_lose_iff_ring_neighbor 0 b one_half sample_cornered 9
           H1 H2 H3 H4).
Defined.

(** X7 for a cat turn in the freshly loaded sample game. *)
Lemma moveCat_one_step_witness :
  boards sample_loaded !! 0 = Some sample_board ∧
  ((∃ b', boards (moveCat 0 one_half sample_loaded).1 !! 0 = Some b' ∧
      (cat b' = cat sample_board ∨
       ∃ c move, cat sample_board = Some c ∧ cat b' = Some move ∧
                 move ∈ spot_adjacent sample_loaded c)) ∧
   (∀ bj, bj ≠ 0 →
      boards (moveCat 0 one_half sample_loaded).1 !! bj =
      boards sample_loaded !! bj)).
Proof.
  assert (H : boards sample_loaded !! 0 = Some sample_board)
    by exact sample_board_eq.
  split; [exact H|].
  exact (moveCat_one_step 0 sample_board one_half sample_loaded H).
Defined.

(** X8 for a click on (0,8), reference 87, in the freshly loaded sample
    game. *)
Lemma clicks_never_throw_witness :
  ∃ sp,
    reachable sample_loaded ∧
    spots sample_loaded !! 87 = Some sp ∧
    boards sample_loaded !! board sp = Some sample_board ∧
    roomy sample_board ∧
    (handleClick 87 one_half sample_loaded).2 = Return ().
Proof.
  eexists.
  assert (H1 : reachable sample_loaded) by exact reachable_sample_loaded.
  assert (H4 : roomy sample_board) by (split; simpl; lia).
  refine ((λ H2 H3, conj H1 (conj H2 (conj H3 (conj H4
            (clicks_never_throw 87 _ sample_board one_half sample_loaded
               H1 H2 H3 H4))))) _ _); by_computation.
Defined.

(** X10 for the cat of the freshly loaded sample game: from distance 6 the
    policy returns a neighbor at distance 5. *)
Lemma nextStepForCat_descends_witness :
  let w1 := updateDistances (grid sample_board) sample_loaded in
  wf_board sample_loaded 0 sample_board ∧
  adjacency_symmetric sample_loaded ∧
  cat sample_board = Some 59 ∧
  spot_distance w1 59 = Fin 6 ∧
  ∃ move,
    nextStepForCat sample_board one_half sample_loaded =
      (w1, Return (Some move)) ∧
    move ∈ spot_adjacent sample_loaded 59 ∧
    spot_distance w1 move = Fin 5.
Proof.
  intros w1.
  assert (H1 : wf_board sample_loaded 0 sample_board)
    by exact wf_board_sample_loaded.
  assert (H2 : adjacency_symmetric sample_loaded)
    by exact (reachable_adjacency_symmetric _ reachable_sample_loaded).
  assert (H3 : cat sample_board = Some 59) by reflexivity.
  assert (H4 : spot_distance w1 59 = Fin 6) by exact sample_center_distance.
  split; [exact H1|]. split; [exact H2|]. split; [exact H3|].
  split; [exact H4|].
  exact (nextStepForCat_descends 0 sample_board one_half sample_loaded 59 4
           H1 H2 H3 H4).
Defined.

(** X12 for the coordinates (5,5) of the sample board. *)
Lemma new_Board_grid_lookup_witness :
  new_Board 11 11 6 one_half one_half sample_draws empty_World =
    Some sample_loaded ∧
  boards sample_loaded !! length (boards empty_World) = Some sample_board ∧
  ((is_Some (grid_get (grid sample_board) (key 5 5)) ↔ in_grid 11 11 5 5) ∧
   (∀ r, grid_get (grid sample_board) (key 5 5) = Some r →
      length (spots empty_World) ≤ r ∧
      ∃ sp, spots sample_loaded !! r = Some sp ∧ x sp = 5%Z ∧ y sp = 5%Z ∧
            board sp = length (boards empty_World))).
Proof.
  split; [exact sample_loaded_eq|]. split; [exact sample_loaded_first|].
  exact (new_Board_grid_lookup 11 11 6 one_half one_half sample_draws
           empty_World sample_loaded sample_board 5 5
           sample_loaded_eq sample_loaded_first).
Defined.

(** X13 for the sample board: 119 spots. *)
Lemma new_Board_spot_count_witness :
  new_Board 11 11 6 one_half one_half sample_draws empty_World =
    Some sample_loaded ∧
  boards sample_loaded !! length (boards empty_World) = Some sample_board ∧
  (2 ≤ 11)%Z ∧ (1 ≤ 11)%Z ∧
  Z.of_nat (length (grid sample_board)) = (11 * 11 - 2)%Z ∧
  Z.of_nat (length (spots sample_loaded)) =
    (Z.of_nat (length (spots empty_World)) + (11 * 11 - 2))%Z.
Proof.
  assert (H3 : (2 ≤ 11)%Z) by lia. assert (H4 : (1 ≤ 11)%Z) by lia.
  split; [exact sample_loaded_eq|]. split; [exact sample_loaded_first|].
  split; [exact H3|]. split; [exact H4|].
  exact (new_Board_spot_count 11 11 6 one_half one_half sample_draws
           empty_World sample_loaded sample_board
           sample_loaded_eq sample_loaded_first H3 H4).
Defined.

(** X14 for the reset of the freshly loaded sample game. *)
Lemma new_Board_frame_witness :
  new_Board 11 11 6 one_half one_half sample_draws sample_loaded =
    Some sample_reset ∧
  (∀ r, r < length (spots sample_loaded) →
        spots sample_reset !! r = spots sample_loaded !! r) ∧
  (∀ bj, bj < length (boards sample_loaded) →
         boards sample_reset !! bj = boards sample_loaded !! bj) ∧
  length (boards sample_reset) = S (length (boards sample_loaded)) ∧
  announced sample_reset = announced sample_loaded.
Proof.
  split; [exact sample_reset_eq|].
  exact (new_Board_frame 11 11 6 one_half one_half sample_draws
           sample_loaded sample_reset sample_reset_eq).
Defined.

(** X15 for the cat's spot of the sample board. *)
Lemma createGraph_adjacent_shape_witness :
  new_Board 11 11 6 one_half one_half sample_draws empty_World =
    Some sample_loaded ∧
  boards sample_loaded !! length (boards empty_World) = Some sample_board ∧
  59 ∈ grid_values (grid sample_board) ∧
  length (spot_adjacent sample_loaded 59) ≤ 6 ∧
  NoDup (spot_adjacent sample_loaded 59) ∧
  (59 ∉ spot_adjacent sample_loaded 59) ∧
  ∀ c, c ∈ spot_adjacent sample_loaded 59 →
       c ∈ grid_values (grid sample_board).
Proof.
  assert (H3 : 59 ∈ grid_values (grid sample_board)) by by_computation.
  split; [exact sample_loaded_eq|]. split; [exact sample_loaded_first|].
  split; [exact H3|].
  exact (createGraph_adjacent_shape 11 11 6 one_half one_half sample_draws
           empty_World sample_loaded sample_board 59
           sample_loaded_eq sample_loaded_first H3).
Defined.

(** X16 for the spot (5,5) of the sample board. *)
Lemma createGraph_six_neighbors_witness :
  new_Board 11 11 6 one_half one_half sample_draws empty_World =
    Some sample_loaded ∧
  boards sample_loaded !! length (boards empty_World) = Some sample_board ∧
  grid_get (grid sample_board) (key 5 5) = Some 59 ∧
  (2 ≤ 5 ≤ 11 - 2)%Z ∧ (1 ≤ 5 ≤ 11 - 2)%Z ∧
  length (spot_adjacent sample_loaded 59) = 6.
Proof.
  assert (H3 : grid_get (grid sample_board) (key 5 5) = Some 59)
    by by_computation.
  assert (H4 : (2 ≤ 5 ≤ 11 - 2)%Z) by lia.
  assert (H5 : (1 ≤ 5 ≤ 11 - 2)%Z) by lia.
  split; [exact sample_loaded_eq|]. split; [exact sample_loaded_first|].
  split; [exact H3|]. split; [exact H4|]. split; [exact H5|].
  exact (createGraph_six_neighbors 11 11 6 one_half one_half sample_draws
           empty_World sample_loaded sample_board 5 5 59
           sample_loaded_eq sample_loaded_first H3 H4 H5).
Defined.

(** X17 for the sample board: six blocked spots. *)
Lemma setInitialBlocks_blocks_numBlocks_witness :
  new_Board 11 11 6 one_half one_half sample_draws empty_World =
    Some sample_loaded ∧
  boards sample_loaded !! length (boards empty_World) = Some sample_board ∧
  blocked_count (grid_values (grid sample_board)) sample_loaded =
    Z.to_nat 6.
Proof.
  split; [exact sample_loaded_eq|]. split; [exact sample_loaded_first|].
  exact (setInitialBlocks_blocks_numBlocks 11 11 6 one_half one_half
           sample_draws empty_World sample_loaded sample_board
           sample_loaded_eq sample_loaded_first).
Defined.

(** X18 for [new Board(3, 3, 8)]: a board of seven spots. *)
Lemma setInitialBlocks_too_many_witness :
  (2 ≤ 3)%Z ∧ (1 ≤ 3)%Z ∧ (3 * 3 - 2 < 8)%Z ∧
  new_Board 3 3 8 one_half one_half sample_draws empty_World = None.
Proof.
  assert (H1 : (2 ≤ 3)%Z) by lia. assert (H2 : (1 ≤ 3)%Z) by lia.
  assert (H3 : (3 * 3 - 2 < 8)%Z) by lia.
  split; [exact H1|]. split; [exact H2|]. split; [exact H3|].
  exact (setInitialBlocks_too_many 3 3 8 one_half one_half sample_draws
           empty_World H1 H2 H3).
Defined.

(** X19 for the blocked spot (9,1), reference 19, of the sample board. *)
Lemma setInitialBlocks_in_corners_witness :
  new_Board 11 11 6 one_half one_half sample_draws empty_World =
    Some sample_loaded ∧
  boards sample_loaded !! length (boards empty_World) = Some sample_board ∧
  grid_get (grid sample_board) (key 9 1) = Some 19 ∧
  spot_blocked sample_loaded 19 = true ∧
  in_quarter 11 9 ∧ in_quarter 11 1.
Proof.
  assert (H3 : grid_get (grid sample_board) (key 9 1) = Some 19)
    by by_computation.
  assert (H4 : spot_blocked sample_loaded 19 = true) by by_computation.
  split; [exact sample_loaded_eq|]. split; [exact sample_loaded_first|].
  split; [exact H3|]. split; [exact H4|].
  exact (setInitialBlocks_in_corners 11 11 6 one_half one_half
           sample_draws empty_World sample_loaded sample_board 9 1 19
           sample_loaded_eq sample_loaded_first H3 H4).
Defined.

(** X20 for the cat of the sample board, at (5,5). *)
Lemma setInitialCat_in_middle_witness :
  new_Board 11 11 6 one_half one_half sample_draws empty_World =
    Some sample_loaded ∧
  boards sample_loaded !! length (boards empty_World) = Some sample_board ∧
  cat sample_board = Some 59 ∧
  (11 ≤ 2 ^ 49)%Z ∧ (11 ≤ 2 ^ 49)%Z ∧
  ∃ sp, spots sample_loaded !! 59 = Some sp ∧
        board sp = length (boards empty_World) ∧
        in_middle 11 (x sp) ∧ in_middle 11 (y sp).
Proof.
  assert (H3 : cat sample_board = Some 59) by reflexivity.
  assert (H4 : (11 ≤ 2 ^ 49)%Z) by (vm_compute; discriminate).
  split; [exact sample_loaded_eq|]. split; [exact sample_loaded_first|].
  split; [exact H3|]. split; [exact H4|]. split; [exact H4|].
  exact (setInitialCat_in_middle 11 11 6 one_half one_half sample_draws
           empty_World sample_loaded sample_board 59
           sample_loaded_eq sample_loaded_first H3 H4 H4).
Defined.

(** X21 for the sample board, the first one of its page. *)
Lemma createGraph_ring_exactly_once_witness :
  boundary_adjacent empty_World = [] ∧
  new_Board 11 11 6 one_half one_half sample_draws empty_World =
    Some sample_loaded ∧
  boards sample_loaded !! length (boards empty_World) = Some sample_board ∧
  NoDup (boundary_adjacent sample_loaded) ∧
  ∀ r, r ∈ boundary_adjacent sample_loaded ↔
       r ∈ grid_values (grid sample_board) ∧
       border 11 11 sample_loaded r = true.
Proof.
  assert (H1 : boundary_adjacent empty_World = []) by reflexivity.
  split; [exact H1|].
  split; [exact sample_loaded_eq|]. split; [exact sample_loaded_first|].
  exact (createGraph_ring_exactly_once 11 11 6 one_half one_half
           sample_draws empty_World sample_loaded sample_board
           H1 sample_loaded_eq sample_loaded_first).
Defined.

(** X22 for the neighbor (6,6), reference 71, of the cat of the freshly
    loaded sample game: all six neighbors are five hops from the escape
    node. *)
Lemma nextStepForCat_any_candidate_witness :
  let w1 := updateDistances (grid sample_board) sample_loaded in
  cat sample_board = Some 59 ∧
  71 ∈ spot_adjacent sample_loaded 59 ∧
  spot_distance w1 71 =
    Math_min (spot_distance w1 <$> spot_adjacent sample_loaded 59) ∧
  ∃ u, nextStepForCat sample_board u sample_loaded =
       (w1, Return (Some 71)).
Proof.
  intros w1.
  assert (H1 : cat sample_board = Some 59) by reflexivity.
  assert (H2 : 71 ∈ spot_adjacent sample_loaded 59) by by_computation.
  assert (H3 : spot_distance w1 71 =
               Math_min (spot_distance w1 <$> spot_adjacent sample_loaded 59))
    by by_computation.
  split; [exact H1|]. split; [exact H2|]. split; [exact H3|].
  exact (nextStepForCat_any_candidate sample_board sample_loaded 59 71
           H1 H2 H3).
Defined.

(** X26 for the cat's circle in the freshly loaded sample game. *)
Lemma draw_never_blocked_cat_witness :
  reachable sample_loaded ∧
  draw true 59 sample_loaded ≠ Some "spot blocked cat".
Proof.
  assert (H : reachable sample_loaded) by exact reachable_sample_loaded.
  split; [exact H|].
  exact (draw_never_blocked_cat true 59 sample_loaded H).
Defined.

(** X27 for the spots (1,0) and (0,1): their centers are 13 apart in one
    direction and 30 in the other. *)
Lemma circles_do_not_overlap_witness :
  ((1, 0) ≠ (0, 1))%Z ∧
  ((2 * circle_r) ^ 2 ≤
   (circle_cx 1 0 - circle_cx 0 1) ^ 2 + (circle_cy 0 - circle_cy 1) ^ 2)%Z.
Proof.
  assert (H : ((1, 0) ≠ (0, 1))%Z) by (intros [=]).
  split; [exact H|].
  exact (circles_do_not_overlap 1 0 0 1 H).
Defined.

(** X28 for the last spot of the sample board, (10,10). *)
Lemma circles_inside_board_witness :
  in_grid 11 11 10 10 ∧
  (0 ≤ circle_cx 10 10 - circle_r ∧
   circle_cx 10 10 + circle_r ≤ svg_width 11 ∧
   0 ≤ circle_cy 10 - circle_r ∧
   circle_cy 10 + circle_r ≤ svg_height 11)%Z.
Proof.
  assert (H : in_grid 11 11 10 10) by (split_and!; [lia.. | reflexivity]).
  split; [exact H|].
  exact (circles_inside_board 11 11 10 10 H).
Defined.
